(** * Cross-evaluation route: a shallow embedding of [runCrossEvaluation] and [POST]

    The route handler asks several chat backends the same question, lets
    every answering backend judge the answers of the others, tallies the
    votes and reports a winner.  The development below embeds the handler
    as executable Rocq functions and states the properties of the voting
    engine as theorems about them.

    Conventions.
    - A JavaScript string is the list of its UTF-16 code units ([jsstring]).
    - A value of TypeScript type [any] is a [jsval].
    - An expression that may raise is a [completion]: [Return v] or [Throw e].
    - Network traffic is an input: the reply to every outgoing request is
      supplied as an argument, and every outgoing request is
      recorded in a trace. *)

From Stdlib Require Import List NArith ZArith String Ascii Bool Lia Permutation Sorted.
Import ListNotations.

Set Implicit Arguments.
Set Warnings "-register-all".
Local Open Scope list_scope.

(** ** Strings *)

Module JsString.

Definition jsstring := list N.

(** [lit "abc"] is the JavaScript string literal ["abc"]. *)
Definition lit (s : string) : jsstring :=
  map N_of_ascii (list_ascii_of_string s).

Fixpoint eqb (a b : jsstring) : bool :=
  match a, b with
  | [], [] => true
  | x :: a', y :: b' => N.eqb x y && eqb a' b'
  | _, _ => false
  end.

(** WhiteSpace and LineTerminator code points, the ones [trim] removes. *)
Definition is_ws (c : N) : bool :=
  existsb (N.eqb c)
    [9; 10; 11; 12; 13; 32; 160; 5760; 8232; 8233; 8239; 8287; 12288; 65279]%N
  || (N.leb 8192 c && N.leb c 8202).

Fixpoint trimStart (s : jsstring) : jsstring :=
  match s with
  | c :: s' => if is_ws c then trimStart s' else s
  | [] => []
  end.

Definition trimEnd (s : jsstring) : jsstring := rev (trimStart (rev s)).

Definition trim (s : jsstring) : jsstring := trimEnd (trimStart s).

Fixpoint startsWith (s p : jsstring) {struct p} : bool :=
  match p, s with
  | [], _ => true
  | x :: p', y :: s' => N.eqb x y && startsWith s' p'
  | _ :: _, [] => false
  end.

(** [indexOf] and [lastIndexOf] for a one-character needle; [-1] when the
    character does not occur. *)
Fixpoint indexOf (s : jsstring) (c : N) : Z :=
  match s with
  | [] => (-1)
  | x :: s' =>
      if N.eqb x c then 0
      else let i := indexOf s' c in
           if (i <? 0)%Z then (-1) else (i + 1)%Z
  end.

Fixpoint lastIndexOf (s : jsstring) (c : N) : Z :=
  match s with
  | [] => (-1)
  | x :: s' =>
      let i := lastIndexOf s' c in
      if (0 <=? i)%Z then (i + 1)%Z
      else if N.eqb x c then 0 else (-1)
  end.

(** [s.slice(from, to)]: negative bounds count from the end, bounds are
    clamped to the string, an empty range gives the empty string. *)
Definition clamp (len i : Z) : Z :=
  if (i <? 0)%Z then Z.max (len + i) 0 else Z.min i len.

Definition slice (s : jsstring) (from to : Z) : jsstring :=
  let len := Z.of_nat (List.length s) in
  let a := clamp len from in
  let b := clamp len to in
  firstn (Z.to_nat (b - a)) (skipn (Z.to_nat a) s).

End JsString.
Export JsString.

(** ** Values of type [any] *)

(** A number is kept as the numeric literal it was read from: the handler
    never computes with the numbers it receives, it only tests them. *)
Inductive jsval : Type :=
| JUndefined
| JNull
| JBool (b : bool)
| JNum (literal : jsstring)
| JStr (s : jsstring)
| JArr (items : list jsval)
| JObj (fields : list (jsstring * jsval)).

Inductive error : Type :=
| TypeError
| NetworkError
| SyntaxError.

Inductive completion (A : Type) : Type :=
| Return (a : A)
| Throw (e : error).
Arguments Throw {A} e.

Definition bind {A B} (c : completion A) (k : A -> completion B) : completion B :=
  match c with
  | Return a => k a
  | Throw e => Throw e
  end.

Notation "x <- c ;; k" := (bind c (fun x => k))
  (at level 61, c at next level, right associativity).

Module Js.

(** Reading a numeric literal [-?digits(.digits)?([eE][+-]?digits)?]:
    the digits of the mantissa as one integer, the number of digits after
    the point, and the exponent. *)
Definition digit (c : N) : bool := N.leb 48 c && N.leb c 57.

Fixpoint read_digits (l : jsstring) (acc : N) : N :=
  match l with
  | [] => acc
  | c :: l' => if digit c then read_digits l' (acc * 10 + (c - 48)) else read_digits l' acc
  end.

Definition read_exponent (l : jsstring) : Z :=
  match l with
  | 45%N :: l' => (- Z.of_N (read_digits l' 0))%Z
  | _ => Z.of_N (read_digits l 0)
  end.

Fixpoint read_number (l : jsstring) (mant : N) (point : bool) (scale : Z) : N * Z * Z :=
  match l with
  | [] => (mant, scale, 0%Z)
  | c :: l' =>
      if digit c then
        read_number l' (mant * 10 + (c - 48)) point (if point then scale + 1 else scale)%Z
      else if N.eqb c 46 then read_number l' mant true scale
      else if N.eqb c 101 || N.eqb c 69 then (mant, scale, read_exponent l')
      else read_number l' mant point scale
  end.

(** The number a literal denotes is [mant * 10^(expo - scale)], rounded
    to the nearest double.  It is zero when the mantissa is, and when
    the value is at most [2^-1075], half the smallest positive double. *)
Definition number_is_zero (l : jsstring) : bool :=
  let '(mant, scale, expo) := read_number l 0 false 0%Z in
  N.eqb mant 0
  || ((expo - scale <? 0)%Z
      && (Z.of_N mant * 2 ^ 1075 <=? 10 ^ (scale - expo))%Z).

(** ToBoolean. *)
Definition truthy (v : jsval) : bool :=
  match v with
  | JUndefined | JNull => false
  | JBool b => b
  | JNum l => negb (number_is_zero l)
  | JStr s => negb (eqb s [])
  | JArr _ | JObj _ => true
  end.

Definition isArray (v : jsval) : bool :=
  match v with JArr _ => true | _ => false end.

(** Own property of an object built by [JSON.parse]: when a key is
    repeated in the source text the last occurrence is the one kept. *)
Fixpoint lookup (k : jsstring) (fs : list (jsstring * jsval)) : option jsval :=
  match fs with
  | [] => None
  | (k', v) :: fs' =>
      match lookup k fs' with
      | Some w => Some w
      | None => if eqb k' k then Some v else None
      end
  end.

(** [v.k] for a property name [k] that no built-in prototype defines
    ([model], [message], [content], [choices], [role], ...).  Reading a
    property of [undefined] or [null] raises. *)
Definition get (v : jsval) (k : jsstring) : completion jsval :=
  match v with
  | JUndefined | JNull => Throw TypeError
  | JObj fs => Return (match lookup k fs with Some w => w | None => JUndefined end)
  | _ => Return JUndefined
  end.

(** [v?.k]. *)
Definition opt_get (v : jsval) (k : jsstring) : jsval :=
  match get v k with
  | Return w => w
  | Throw _ => JUndefined
  end.

(** [v?.[0]]: first element of an array, first character of a string,
    property ["0"] of an object. *)
Definition opt_first (v : jsval) : jsval :=
  match v with
  | JArr (x :: _) => x
  | JStr (c :: _) => JStr [c]
  | JObj fs => match lookup (lit "0") fs with Some w => w | None => JUndefined end
  | _ => JUndefined
  end.

End Js.

(** ** [JSON.parse]

    The text is cut into tokens by a one-pass scanner and the tokens are
    assembled by a pushdown automaton; both run once over their input, so
    the parser is total. *)

Module Json.

Inductive token : Type :=
| TLBrace | TRBrace | TLBracket | TRBracket | TColon | TComma
| TString (s : jsstring)
| TNumber (literal : jsstring)
| TTrue | TFalse | TNull.

(** Where the scanner stands inside a numeric literal. *)
Inductive numphase : Type :=
| NMinus      (* after the sign: a digit must follow *)
| NZero       (* after a leading 0 *)
| NInt        (* inside the integer digits *)
| NDot        (* after the point: a digit must follow *)
| NFrac       (* inside the fraction digits *)
| NExp        (* after e or E: a sign or a digit must follow *)
| NExpSign    (* after the exponent sign: a digit must follow *)
| NExpDigits. (* inside the exponent digits *)

Inductive lstate : Type :=
| LIdle
| LStr (acc : jsstring)
| LEsc (acc : jsstring)
| LHex (acc : jsstring) (todo : nat) (code : N)
| LNum (ph : numphase) (acc : jsstring)
| LWord (rest : jsstring) (t : token).

Definition is_digit (c : N) : bool := N.leb 48 c && N.leb c 57.

Definition hex_value (c : N) : option N :=
  if is_digit c then Some (c - 48)%N
  else if N.leb 97 c && N.leb c 102 then Some (c - 87)%N
  else if N.leb 65 c && N.leb c 70 then Some (c - 55)%N
  else None.

(** JSON white space: tab, line feed, carriage return, space. *)
Definition is_json_ws (c : N) : bool :=
  N.eqb c 9 || N.eqb c 10 || N.eqb c 13 || N.eqb c 32.

Definition chr (a : ascii) : N := N_of_ascii a.

(** A character read between tokens. *)
Definition idle_char (c : N) : option (lstate * list token) :=
  if is_json_ws c then Some (LIdle, [])
  else if N.eqb c (chr "{") then Some (LIdle, [TLBrace])
  else if N.eqb c (chr "}") then Some (LIdle, [TRBrace])
  else if N.eqb c (chr "[") then Some (LIdle, [TLBracket])
  else if N.eqb c (chr "]") then Some (LIdle, [TRBracket])
  else if N.eqb c (chr ":") then Some (LIdle, [TColon])
  else if N.eqb c (chr ",") then Some (LIdle, [TComma])
  else if N.eqb c 34 then Some (LStr [], [])
  else if N.eqb c (chr "-") then Some (LNum NMinus [c], [])
  else if N.eqb c (chr "0") then Some (LNum NZero [c], [])
  else if is_digit c then Some (LNum NInt [c], [])
  else if N.eqb c (chr "t") then Some (LWord (lit "rue") TTrue, [])
  else if N.eqb c (chr "f") then Some (LWord (lit "alse") TFalse, [])
  else if N.eqb c (chr "n") then Some (LWord (lit "ull") TNull, [])
  else None.

(** The phase reached when [c] continues a numeric literal. *)
Definition num_next (ph : numphase) (c : N) : option numphase :=
  let e := N.eqb c (chr "e") || N.eqb c (chr "E") in
  let dot := N.eqb c (chr ".") in
  let sign := N.eqb c (chr "+") || N.eqb c (chr "-") in
  match ph with
  | NMinus => if N.eqb c (chr "0") then Some NZero
              else if is_digit c then Some NInt else None
  | NZero => if dot then Some NDot else if e then Some NExp else None
  | NInt => if is_digit c then Some NInt
            else if dot then Some NDot else if e then Some NExp else None
  | NDot => if is_digit c then Some NFrac else None
  | NFrac => if is_digit c then Some NFrac else if e then Some NExp else None
  | NExp => if is_digit c then Some NExpDigits
            else if sign then Some NExpSign else None
  | NExpSign => if is_digit c then Some NExpDigits else None
  | NExpDigits => if is_digit c then Some NExpDigits else None
  end.

(** The phases in which a numeric literal may end. *)
Definition num_complete (ph : numphase) : bool :=
  match ph with
  | NZero | NInt | NFrac | NExpDigits => true
  | _ => false
  end.

Definition escape_char (c : N) : option N :=
  if N.eqb c 34 then Some 34%N
  else if N.eqb c 92 then Some 92%N
  else if N.eqb c (chr "/") then Some (chr "/")
  else if N.eqb c (chr "b") then Some 8%N
  else if N.eqb c (chr "f") then Some 12%N
  else if N.eqb c (chr "n") then Some 10%N
  else if N.eqb c (chr "r") then Some 13%N
  else if N.eqb c (chr "t") then Some 9%N
  else None.

(** One step of the scanner; string and number buffers are kept reversed. *)
Definition lex_char (st : lstate) (c : N) : option (lstate * list token) :=
  match st with
  | LIdle => idle_char c
  | LStr acc =>
      if N.eqb c 34 then Some (LIdle, [TString (rev acc)])
      else if N.eqb c 92 then Some (LEsc acc, [])
      else if N.ltb c 32 then None
      else Some (LStr (c :: acc), [])
  | LEsc acc =>
      if N.eqb c (chr "u") then Some (LHex acc 4 0%N, [])
      else match escape_char c with
           | Some d => Some (LStr (d :: acc), [])
           | None => None
           end
  | LHex acc todo code =>
      match hex_value c with
      | None => None
      | Some h =>
          let code' := (code * 16 + h)%N in
          match todo with
          | 0%nat | 1%nat => Some (LStr (code' :: acc), [])
          | S n => Some (LHex acc n code', [])
          end
      end
  | LNum ph acc =>
      match num_next ph c with
      | Some ph' => Some (LNum ph' (c :: acc), [])
      | None =>
          if num_complete ph then
            match idle_char c with
            | Some (st', ts) => Some (st', TNumber (rev acc) :: ts)
            | None => None
            end
          else None
      end
  | LWord rest t =>
      match rest with
      | [] => None
      | [x] => if N.eqb c x then Some (LIdle, [t]) else None
      | x :: rest' => if N.eqb c x then Some (LWord rest' t, []) else None
      end
  end.

(** What remains to be emitted when the text ends in state [st]. *)
Definition lex_end (st : lstate) : option (list token) :=
  match st with
  | LIdle => Some []
  | LNum ph acc => if num_complete ph then Some [TNumber (rev acc)] else None
  | _ => None
  end.

Fixpoint lex (st : lstate) (s : jsstring) : option (list token) :=
  match s with
  | [] => lex_end st
  | c :: s' =>
      match lex_char st c with
      | None => None
      | Some (st', ts) =>
          match lex st' s' with
          | None => None
          | Some ts' => Some (ts ++ ts')
          end
      end
  end.

(** The automaton.  A frame is pushed while the value of an array element
    or of an object member is being read. *)
Inductive frame : Type :=
| FArr (acc : list jsval)
| FObj (acc : list (jsstring * jsval)) (key : jsstring).

Inductive pstate : Type :=
| PValue (st : list frame)                          (* a value must follow *)
| PArrFirst (st : list frame)                       (* after [ *)
| PArrNext (acc : list jsval) (st : list frame)     (* after an element *)
| PObjFirst (st : list frame)                       (* after { *)
| PObjKey (acc : list (jsstring * jsval)) (st : list frame)   (* after , *)
| PColon (acc : list (jsstring * jsval)) (key : jsstring) (st : list frame)
| PObjNext (acc : list (jsstring * jsval)) (st : list frame)  (* after a member *)
| PDone (v : jsval).

(** A value [v] has been read in the context [st]. *)
Definition reduce (v : jsval) (st : list frame) : pstate :=
  match st with
  | [] => PDone v
  | FArr acc :: st' => PArrNext (v :: acc) st'
  | FObj acc key :: st' => PObjNext ((key, v) :: acc) st'
  end.

Definition value_token (t : token) (st : list frame) : option pstate :=
  match t with
  | TLBrace => Some (PObjFirst st)
  | TLBracket => Some (PArrFirst st)
  | TString s => Some (reduce (JStr s) st)
  | TNumber l => Some (reduce (JNum l) st)
  | TTrue => Some (reduce (JBool true) st)
  | TFalse => Some (reduce (JBool false) st)
  | TNull => Some (reduce JNull st)
  | TRBrace | TRBracket | TColon | TComma => None
  end.

Definition pstep (ps : pstate) (t : token) : option pstate :=
  match ps with
  | PValue st => value_token t st
  | PArrFirst st =>
      match t with
      | TRBracket => Some (reduce (JArr []) st)
      | _ => value_token t (FArr [] :: st)
      end
  | PArrNext acc st =>
      match t with
      | TComma => Some (PValue (FArr acc :: st))
      | TRBracket => Some (reduce (JArr (rev acc)) st)
      | _ => None
      end
  | PObjFirst st =>
      match t with
      | TString k => Some (PColon [] k st)
      | TRBrace => Some (reduce (JObj []) st)
      | _ => None
      end
  | PObjKey acc st =>
      match t with
      | TString k => Some (PColon acc k st)
      | _ => None
      end
  | PColon acc k st =>
      match t with
      | TColon => Some (PValue (FObj acc k :: st))
      | _ => None
      end
  | PObjNext acc st =>
      match t with
      | TComma => Some (PObjKey acc st)
      | TRBrace => Some (reduce (JObj (rev acc)) st)
      | _ => None
      end
  | PDone _ => None
  end.

Fixpoint prun (ps : pstate) (ts : list token) : option jsval :=
  match ts with
  | [] => match ps with PDone v => Some v | _ => None end
  | t :: ts' =>
      match pstep ps t with
      | Some ps' => prun ps' ts'
      | None => None
      end
  end.

(** [JSON.parse text]: [None] stands for the SyntaxError it raises. *)
Definition parse (text : jsstring) : option jsval :=
  match lex LIdle text with
  | Some ts => prun (PValue []) ts
  | None => None
  end.

End Json.

(** ** Plain objects used as maps

    [globalScores] is an object literal: its own properties are kept in
    creation order, and a read that finds no own property continues in
    [Object.prototype]. *)

Module JsObject.

(** The value of an own property of the tally: a number, or the text
    that [+= 1] produces from a built-in function, that is the source text
    of the function found under [name] followed by [ones] characters [1]. *)
Inductive prop : Type :=
| PNum (n : Z)
| PNative (name : jsstring) (ones : nat).

Definition jsobject := list (jsstring * prop).

Fixpoint own (o : jsobject) (k : jsstring) : option prop :=
  match o with
  | [] => None
  | (k', v) :: o' => if eqb k' k then Some v else own o' k
  end.

(** The methods every object inherits from [Object.prototype]. *)
Definition prototype_methods : list jsstring :=
  map lit ["constructor"; "hasOwnProperty"; "isPrototypeOf";
           "propertyIsEnumerable"; "toLocaleString"; "toString"; "valueOf";
           "__defineGetter__"; "__defineSetter__";
           "__lookupGetter__"; "__lookupSetter__"]%string.

Definition is_method (k : jsstring) : bool := existsb (eqb k) prototype_methods.

(** [__proto__] is an accessor of [Object.prototype]: reading it gives the
    prototype, writing a value that is not an object does nothing. *)
Definition proto_key : jsstring := lit "__proto__".

(** What [o[k]] evaluates to. *)
Inductive read : Type :=
| RUndefined
| ROwn (v : prop)
| RMethod
| RPrototype.

Definition get (o : jsobject) (k : jsstring) : read :=
  match own o k with
  | Some v => ROwn v
  | None =>
      if eqb k proto_key then RPrototype
      else if is_method k then RMethod
      else RUndefined
  end.

(** [o[k] != null]. *)
Definition not_nullish (r : read) : bool :=
  match r with RUndefined => false | _ => true end.

(** Replace the value of the own property [k], keeping its position, or
    create the property after the existing ones. *)
Fixpoint put (o : jsobject) (k : jsstring) (v : prop) : jsobject :=
  match o with
  | [] => [(k, v)]
  | (k', w) :: o' => if eqb k' k then (k', v) :: o' else (k', w) :: put o' k v
  end.

(** [o[k] = v] for a number or string [v]. *)
Definition set (o : jsobject) (k : jsstring) (v : prop) : jsobject :=
  if eqb k proto_key then o else put o k v.

(** An array index is the canonical decimal text of an integer below
    [2^32 - 1]. *)
Fixpoint digits_value (acc : N) (s : jsstring) : option N :=
  match s with
  | [] => Some acc
  | c :: s' =>
      if Json.is_digit c then digits_value (acc * 10 + (c - 48))%N s' else None
  end.

Definition array_index (k : jsstring) : option N :=
  match k with
  | [] => None
  | [48%N] => Some 0%N
  | c :: _ =>
      if N.eqb c 48 then None
      else match digits_value 0 k with
           | Some n => if N.ltb n 4294967295 then Some n else None
           | None => None
           end
  end.

Fixpoint insert_by_index (e : N * (jsstring * prop)) (l : list (N * (jsstring * prop)))
  : list (N * (jsstring * prop)) :=
  match l with
  | [] => [e]
  | x :: l' => if N.leb (fst e) (fst x) then e :: l else x :: insert_by_index e l'
  end.

Definition indexed (o : jsobject) : list (N * (jsstring * prop)) :=
  flat_map (fun e => match array_index (fst e) with
                     | Some n => [(n, e)]
                     | None => []
                     end) o.

Definition named (o : jsobject) : jsobject :=
  filter (fun e => match array_index (fst e) with Some _ => false | None => true end) o.

(** [Object.entries(o)]: array-index keys in ascending order, then the
    other keys in creation order. *)
Definition entries (o : jsobject) : jsobject :=
  map snd (fold_right insert_by_index [] (indexed o)) ++ named o.

Definition keys (o : jsobject) : list jsstring := map fst o.

End JsObject.

(** ** Network *)

(** The outcome of one [fetch]: the promise is rejected, or a response
    arrives with a status and a body; [None] is a body that cannot be
    read. *)
Record response : Type := { status : Z; body : option jsstring }.

Inductive fetched : Type :=
| Rejected
| Responded (r : response).

Definition ok (r : response) : bool := (200 <=? status r)%Z && (status r <=? 299)%Z.

Definition fetch (f : fetched) : completion response :=
  match f with
  | Rejected => Throw NetworkError
  | Responded r => Return r
  end.

(** [res.json()]. *)
Definition res_json (r : response) : completion jsval :=
  match body r with
  | None => Throw NetworkError
  | Some t => match Json.parse t with
              | Some v => Return v
              | None => Throw SyntaxError
              end
  end.

(** [res.text()]. *)
Definition res_text (r : response) : completion jsstring :=
  match body r with
  | None => Throw NetworkError
  | Some t => Return t
  end.

(** ** Completion order of concurrent tasks

    Tasks started together and awaited with [Promise.all] finish in an
    order the program does not control.  A schedule is a list of numbers:
    at every step the head, reduced modulo the number of tasks still
    running, selects the task that finishes next. *)

Module Schedule.

Fixpoint remove_nth {A} (i : nat) (l : list A) : list A :=
  match l, i with
  | [], _ => []
  | _ :: l', O => l'
  | x :: l', S j => x :: remove_nth j l'
  end.

Fixpoint drain {A} (n : nat) (sched : list nat) (pending : list A) : list A :=
  match n with
  | O => []
  | S n' =>
      let i := Nat.modulo (hd 0%nat sched) (List.length pending) in
      match nth_error pending i with
      | Some x => x :: drain n' (tl sched) (remove_nth i pending)
      | None => []
      end
  end.

Definition completion_order {A} (sched : list nat) (tasks : list A) : list A :=
  drain (List.length tasks) sched tasks.

End Schedule.

(** ** runCrossEvaluation *)

Section CrossEvaluation.

Import JsObject.

(** The text [JSON.stringify] gives for a value other than [undefined].
    The digits it prints for a number depend on floating-point formatting,
    so the text is left open; no branch of the handler inspects it
    beyond testing whether it is blank. *)
Variable serialize : jsval -> jsstring.

(** [JSON.stringify(v)] is [undefined] when [v] is. *)
Definition JSON_stringify (v : jsval) : option jsstring :=
  match v with
  | JUndefined => None
  | _ => Some (serialize v)
  end.

Record ModelAnswer : Type := {
  index : nat;
  model : jsstring;
  content : jsstring
}.

Record JudgeVote : Type := {
  judgeModelId : jsstring;
  votedModelId : option jsstring;
  reasoning : option jsstring
}.

Record CrossEvaluation : Type := {
  scores : jsobject;
  winnerModelId : option jsstring;
  winnerIndex : option nat;
  judges : list JudgeVote
}.

(** The request a judge is sent: its own model id and the question
    followed by the answers of the other candidates.  The system
    instruction is the same in every request and the temperature is
    always 0; neither is recorded. *)
Record judge_request : Type := {
  req_headers : list (jsstring * jsstring);
  req_model : jsstring;
  req_question : jsstring;
  req_candidates : list ModelAnswer
}.

(** What the mapping step makes of one choice: nothing, or an answer
    whose content is still possibly [undefined]. *)
Definition normalize (ix : nat) (choice : jsval)
  : option (nat * jsstring * option jsstring) :=
  match Js.opt_get choice (lit "model") with
  | JStr m =>
      let message := Js.opt_get choice (lit "message") in
      if negb (Js.truthy (JStr m)) || negb (Js.truthy message) then None
      else
        let rawContent := Js.opt_get message (lit "content") in
        Some (ix, m, match rawContent with
                     | JStr s => Some s
                     | _ => JSON_stringify rawContent
                     end)
  | _ => None
  end.

Fixpoint mapi {A B} (f : nat -> A -> B) (i : nat) (l : list A) : list B :=
  match l with
  | [] => []
  | x :: l' => f i x :: mapi f (S i) l'
  end.

(** The filtering step; [a.content.trim()] raises on a missing content. *)
Fixpoint keep_valid (l : list (option (nat * jsstring * option jsstring)))
  : completion (list ModelAnswer) :=
  match l with
  | [] => Return []
  | None :: l' => keep_valid l'
  | Some (ix, m, None) :: _ => Throw TypeError
  | Some (ix, m, Some c) :: l' =>
      rest <- keep_valid l' ;;
      Return (if (0 <? List.length (trim c))%nat
              then {| index := ix; model := m; content := c |} :: rest
              else rest)
  end.

Definition valid_answers (choices : list jsval) : completion (list ModelAnswer) :=
  keep_valid (mapi normalize 0 choices).

(** [globalScores[a.model] = 0] for every answer. *)
Definition init_scores (answers : list ModelAnswer) : jsobject :=
  fold_left (fun g a => set g (model a) (PNum 0)) answers [].

Definition null_vote (judge : ModelAnswer) : JudgeVote :=
  {| judgeModelId := model judge; votedModelId := None; reasoning := None |}.

Definition fence : jsstring := lit "```".

(** The text handed to [JSON.parse]: the trimmed content, cut down to
    the span from the first [{] to the last [}] when it opens with a
    fence and has both braces. *)
Definition judge_text (content : jsstring) : jsstring :=
  let text := trim content in
  if startsWith text fence then
    let firstBrace := indexOf text (Json.chr "{") in
    let lastBrace := lastIndexOf text (Json.chr "}") in
    if negb (firstBrace =? -1)%Z && negb (lastBrace =? -1)%Z
    then slice text firstBrace (lastBrace + 1)
    else text
  else text.

Definition string_field (parsed : jsval) (k : jsstring) : option jsstring :=
  if Js.truthy parsed then
    match Js.opt_get parsed k with
    | JStr s => Some s
    | _ => None
    end
  else None.

(** [if (votedModelId && globalScores[votedModelId] != null)
       globalScores[votedModelId] += 1]. *)
Definition tally (g : jsobject) (voted : option jsstring) : jsobject :=
  match voted with
  | None => g
  | Some v =>
      if Js.truthy (JStr v) && not_nullish (get g v) then
        match get g v with
        | ROwn (PNum n) => set g v (PNum (n + 1))
        | ROwn (PNative f k) => set g v (PNative f (S k))
        | RMethod => set g v (PNative v 1)
        | RPrototype | RUndefined => g
        end
      else g
  end.

(** The first half of the [try] block of one judge: the request is
    answered, the response is read, and the content of its first choice
    is kept when it is a string.  [None] is a null vote pushed early. *)
Definition judge_content (reply : fetched) : completion (option jsstring) :=
  res <- fetch reply ;;
  if negb (ok res) then Return None
  else
    json <- res_json res ;;
    Return (match Js.opt_get (Js.opt_get (Js.opt_first (Js.opt_get json (lit "choices")))
                                         (lit "message")) (lit "content") with
            | JStr c => Some c
            | _ => None
            end).

(** The second half: the content is parsed and the two fields are read;
    [None] is the parse error caught by the inner [try]. *)
Definition read_vote (content : jsstring) : option (option jsstring * option jsstring) :=
  match Json.parse (judge_text content) with
  | None => None
  | Some parsed =>
      Some (string_field parsed (lit "winner_model_id"),
            string_field parsed (lit "reasoning"))
  end.

Definition judge_try (judge : ModelAnswer) (reply : fetched) (g : jsobject)
  : completion (jsobject * JudgeVote) :=
  content <- judge_content reply ;;
  match content with
  | None => Return (g, null_vote judge)
  | Some c =>
      match read_vote c with
      | None => Return (g, null_vote judge)
      | Some (voted, why) =>
          Return (tally g voted,
                  {| judgeModelId := model judge;
                     votedModelId := voted;
                     reasoning := why |})
      end
  end.

(** One judge finishing: the tally is updated and one record is pushed;
    whatever the [try] block raises becomes a null vote. *)
Definition judge_finish (net : nat -> fetched)
  (st : jsobject * list JudgeVote) (judge : ModelAnswer)
  : jsobject * list JudgeVote :=
  match judge_try judge (net (index judge)) (fst st) with
  | Return (g, v) => (g, snd st ++ [v])
  | Throw _ => (fst st, snd st ++ [null_vote judge])
  end.

Definition judge_requests (headers : list (jsstring * jsstring))
  (question : jsstring) (answers : list ModelAnswer) : list judge_request :=
  map (fun judge =>
         {| req_headers := headers;
            req_model := model judge;
            req_question := question;
            req_candidates :=
              filter (fun a => negb (Nat.eqb (index a) (index judge))) answers |})
      answers.

(** The running maximum over [Object.entries(globalScores)]; a property
    holding text compares as NaN and never replaces the best. *)
Definition pick_winner (g : jsobject) : option jsstring * Z :=
  fold_left (fun (acc : option jsstring * Z) (e : jsstring * prop) =>
               match snd e with
               | PNum score => if (score >? snd acc)%Z then (Some (fst e), score) else acc
               | PNative _ _ => acc
               end)
            (entries g) (None, (-1)%Z).

Definition find_index (answers : list ModelAnswer) (w : option jsstring) : option nat :=
  match w with
  | Some m => option_map index (find (fun a => eqb (model a) m) answers)
  | None => None
  end.

(** The whole function.  [net i] is the outcome of the request sent to
    the judge whose answer has index [i], and [sched] decides the order
    in which the judges finish.  The second component of the result is
    the list of judge requests sent, in the order they are issued. *)
Definition runCrossEvaluation (choices : list jsval)
  (baseHeaders : list (jsstring * jsstring)) (userQuestion : option jsstring)
  (net : nat -> fetched) (sched : list nat)
  : completion (option CrossEvaluation) * list judge_request :=
  match userQuestion with
  | None => (Return None, [])
  | Some question =>
      if negb (Js.truthy (JStr question)) || (List.length choices <? 2)%nat
      then (Return None, [])
      else
        match valid_answers choices with
        | Throw e => (Throw e, [])
        | Return answers =>
            if (List.length answers <? 2)%nat then (Return None, [])
            else
              let globalScores := init_scores answers in
              let '(g, judgesResults) :=
                fold_left (judge_finish net)
                          (Schedule.completion_order sched answers)
                          (globalScores, []) in
              let winner := fst (pick_winner g) in
              (Return (Some {| scores := g;
                               winnerModelId := winner;
                               winnerIndex := find_index answers winner;
                               judges := judgesResults |}),
               judge_requests baseHeaders question answers)
        end
  end.

End CrossEvaluation.

(** ** The POST handler *)

Section Route.

Import JsObject.

Variable serialize : jsval -> jsstring.

Definition NVIDIA_MODEL : jsstring := lit "nvidia/nemotron-3-nano-30b-a3b:free".
Definition MISTRAL_MODEL : jsstring := lit "mistralai/devstral-2512:free".
Definition MOLMO_MODEL : jsstring := lit "allenai/molmo-2-8b:free".
Definition TNG_MODEL : jsstring := lit "tngtech/tng-r1t-chimera:free".
Definition GEMMA_MODEL : jsstring := lit "google/gemma-3n-e4b-it:free".
Definition MIMO_MODEL : jsstring := lit "xiaomi/mimo-v2-flash:free".

(** One entry of [allModels]; [with_reasoning] tells whether
    [makePayload] adds the [reasoning] field. *)
Record backend : Type := {
  modelId : jsstring;
  label : jsstring;
  with_reasoning : bool
}.

Definition allModels : list backend :=
  [ {| modelId := NVIDIA_MODEL; label := lit "nvidia"; with_reasoning := true |};
    {| modelId := MISTRAL_MODEL; label := lit "mistral"; with_reasoning := false |};
    {| modelId := MOLMO_MODEL; label := lit "molmo"; with_reasoning := false |};
    {| modelId := TNG_MODEL; label := lit "tng"; with_reasoning := false |};
    {| modelId := GEMMA_MODEL; label := lit "gemma"; with_reasoning := false |};
    {| modelId := MIMO_MODEL; label := lit "mimo"; with_reasoning := true |} ].

Record environment : Type := {
  OPENROUTER_API_KEY : option jsstring;
  OPENROUTER_REFERER : option jsstring;
  OPENROUTER_SITE_TITLE : option jsstring
}.

(** A variable of the environment that is set and not empty. *)
Definition present (v : option jsstring) : option jsstring :=
  match v with
  | Some (c :: s) => Some (c :: s)
  | _ => None
  end.

Record backend_request : Type := {
  call_headers : list (jsstring * jsstring);
  call_model : jsstring;
  call_messages : jsval;
  call_reasoning : option jsval
}.

Inductive event : Type :=
| BackendCall (r : backend_request)
| JudgeCall (r : judge_request).

Record model_status : Type := {
  st_ok : bool;
  st_status : Z;
  st_body : option jsstring
}.

Inductive payload : Type :=
| ErrorBody (msg : jsstring)
| ErrorDetails (msg : jsstring) (details : list (jsstring * model_status))
| Answers (choices : list jsval) (raws : list (jsstring * jsval))
          (evaluation : option CrossEvaluation)
          (modelStatuses : list (jsstring * model_status)).

Record http_response : Type := { http_status : Z; http_body : payload }.

Definition json_error (code : Z) (msg : string) : http_response :=
  {| http_status := code; http_body := ErrorBody (lit msg) |}.

Definition baseHeaders (apiKey : jsstring) (e : environment) : list (jsstring * jsstring) :=
  [(lit "Authorization", lit "Bearer " ++ apiKey);
   (lit "Content-Type", lit "application/json")]
  ++ match present (OPENROUTER_REFERER e) with
     | Some r => [(lit "HTTP-Referer", r)]
     | None => []
     end
  ++ match present (OPENROUTER_SITE_TITLE e) with
     | Some t => [(lit "X-Title", t)]
     | None => []
     end.

(** [body.activeModels] reduced to its non-empty strings, when it is an
    array. *)
Definition activeModelIds (body : jsval) : option (list jsstring) :=
  match Js.opt_get body (lit "activeModels") with
  | JArr ms =>
      Some (flat_map (fun m => match m with
                               | JStr (c :: s) => [c :: s]
                               | _ => []
                               end) ms)
  | _ => None
  end.

Definition modelsToCall (body : jsval) : list backend :=
  match activeModelIds body with
  | Some ids => filter (fun m => existsb (eqb (modelId m)) ids) allModels
  | None => allModels
  end.

Definition default_reasoning : jsval := JObj [(lit "enabled", JBool true)].

Definition makePayload (headers : list (jsstring * jsstring)) (body messages : jsval)
  (m : backend) : backend_request :=
  {| call_headers := headers;
     call_model := modelId m;
     call_messages := messages;
     call_reasoning :=
       if with_reasoning m then
         Some (match Js.opt_get body (lit "reasoning") with
               | JUndefined => default_reasoning
               | r => r
               end)
       else None |}.

(** [await Promise.all(modelsToCall.map(fetch))]: one rejected call
    rejects the whole. *)
Fixpoint all_fetched (net : jsstring -> fetched) (ms : list backend)
  : completion (list (backend * response)) :=
  match ms with
  | [] => Return []
  | m :: ms' =>
      res <- fetch (net (modelId m)) ;;
      rest <- all_fetched net ms' ;;
      Return ((m, res) :: rest)
  end.

Definition status_of (mr : backend * response) : jsstring * model_status :=
  let res := snd mr in
  (modelId (fst mr),
   if ok res then {| st_ok := true; st_status := status res; st_body := None |}
   else {| st_ok := false;
           st_status := status res;
           st_body := match res_text res with
                      | Return (c :: t) => Some (c :: t)
                      | _ => None
                      end |}).

(** [modelStatuses]: the entries of the successful calls are written at
    once, those of the failed calls as their bodies finish being read. *)
Definition model_statuses (sched : list nat) (responses : list (backend * response))
  : list (jsstring * model_status) :=
  map status_of (filter (fun mr => ok (snd mr)) responses)
  ++ map status_of
       (Schedule.completion_order sched (filter (fun mr => negb (ok (snd mr))) responses)).

(** The loop over the successful responses. *)
Fixpoint collect (successful : list (backend * response))
  : completion (list (jsstring * jsval) * list jsval) :=
  match successful with
  | [] => Return ([], [])
  | (m, res) :: rest =>
      data <- res_json res ;;
      let choice := Js.opt_first (Js.opt_get data (lit "choices")) in
      let message := Js.opt_get choice (lit "message") in
      more <- collect rest ;;
      Return ((label m, data) :: fst more,
              if Js.truthy message
              then JObj [(lit "model", JStr (modelId m)); (lit "message", message)] :: snd more
              else snd more)
  end.

(** [rawByLabel[l] ?? null]; a later write to the same label wins. *)
Definition raw_of (rawByLabel : list (jsstring * jsval)) (l : jsstring) : jsval :=
  match Js.lookup l rawByLabel with
  | Some d => d
  | None => JNull
  end.

(** [[...messages].reverse().find((m) => m.role === "user")]. *)
Fixpoint find_user (reversed : list jsval) : completion (option jsval) :=
  match reversed with
  | [] => Return None
  | m :: rest =>
      role <- Js.get m (lit "role") ;;
      match role with
      | JStr r => if eqb r (lit "user") then Return (Some m) else find_user rest
      | _ => find_user rest
      end
  end.

Definition userQuestion (messages : list jsval) : completion (option jsstring) :=
  lastUser <- find_user (rev messages) ;;
  Return (match lastUser with
          | Some m => match Js.opt_get m (lit "content") with
                      | JStr s => Some s
                      | _ => None
                      end
          | None => None
          end).

(** The body of the [try] block. *)
Definition attempt (headers : list (jsstring * jsstring)) (body : jsval)
  (messages : list jsval)
  (backend_net : jsstring -> fetched) (judge_net : nat -> fetched)
  (sched_status sched_judges : list nat)
  : completion http_response * list event :=
  let models := modelsToCall body in
  if (List.length models =? 0)%nat
  then (Return (json_error 400 "No models selected to call"), [])
  else
    let calls :=
      map (fun m => BackendCall (makePayload headers body (JArr messages) m)) models in
    match all_fetched backend_net models with
    | Throw err => (Throw err, calls)
    | Return responses =>
        let modelStatuses := model_statuses sched_status responses in
        let successful := filter (fun mr => ok (snd mr)) responses in
        if (List.length successful =? 0)%nat
        then (Return {| http_status := 502;
                        http_body := ErrorDetails (lit "OpenRouter API error")
                                                  modelStatuses |},
              calls)
        else
          match collect successful with
          | Throw err => (Throw err, calls)
          | Return (rawByLabel, choices) =>
              match userQuestion messages with
              | Throw err => (Throw err, calls)
              | Return question =>
                  let '(ev, reqs) :=
                    runCrossEvaluation serialize choices headers question
                                       judge_net sched_judges in
                  (match ev with
                   | Throw err => Throw err
                   | Return evaluation =>
                       Return {| http_status := 200;
                                 http_body :=
                                   Answers choices
                                     (map (fun m => (label m, raw_of rawByLabel (label m)))
                                          allModels)
                                     evaluation modelStatuses |}
                   end,
                   calls ++ map JudgeCall reqs)
              end
          end
    end.

(** The handler.  [req_text] is the text of the request body,
    [backend_net m] the outcome of the request sent to the backend [m],
    [judge_net] the outcomes of the judge requests, and the two schedules
    order the reading of the failed bodies and the judges.  A [Throw]
    result is an exception that leaves the handler; an exception inside
    the [try] block is answered with status 500. *)
Definition POST (e : environment) (req_text : jsstring)
  (backend_net : jsstring -> fetched) (judge_net : nat -> fetched)
  (sched_status sched_judges : list nat)
  : completion http_response * list event :=
  match present (OPENROUTER_API_KEY e) with
  | None => (Return (json_error 500 "Missing OPENROUTER_API_KEY in environment"), [])
  | Some apiKey =>
      match Json.parse req_text with
      | None => (Return (json_error 400 "Invalid JSON body"), [])
      | Some body =>
          match Js.get body (lit "messages") with
          | Throw err => (Throw err, [])
          | Return (JArr messages) =>
              let '(res, trace) :=
                attempt (baseHeaders apiKey e) body messages
                        backend_net judge_net sched_status sched_judges in
              (match res with
               | Return r => Return r
               | Throw _ => Return (json_error 500 "Failed to call OpenRouter API")
               end,
               trace)
          | Return _ => (Return (json_error 400 "'messages' array is required"), [])
          end
      end
  end.

End Route.

(** ** The page

    The client keeps the conversation and the set of enabled models,
    builds the request of the handler above and sorts the messages into
    one column per model. *)

Module Page.

Record column : Type := {
  key : jsstring;
  title : jsstring;
  modelId : jsstring
}.

Definition MODEL_COLUMNS : list column :=
  [ {| key := lit "nvidia"; title := lit "Nvidia Nemotron";
       modelId := lit "nvidia/nemotron-3-nano-30b-a3b:free" |};
    {| key := lit "mistral"; title := lit "Mistral Devstral";
       modelId := lit "mistralai/devstral-2512:free" |};
    {| key := lit "molmo"; title := lit "Molmo Vision";
       modelId := lit "allenai/molmo-2-8b:free" |};
    {| key := lit "tng"; title := lit "TNG R1T Chimera";
       modelId := lit "tngtech/tng-r1t-chimera:free" |};
    {| key := lit "gemma"; title := lit "Gemma 3n";
       modelId := lit "google/gemma-3n-e4b-it:free" |};
    {| key := lit "mimo"; title := lit "Mimo v2 Flash";
       modelId := lit "xiaomi/mimo-v2-flash:free" |} ].

Inductive role : Type := User | Assistant.

(** A message of the conversation.  [content] is whatever the backend
    sent, and [model] is missing on the messages of the user. *)
Record ChatMessage : Type := {
  msg_role : role;
  content : jsval;
  reasoning_details : jsval;
  model : option jsstring
}.

(** [enabledModels]: the own properties of the state object, last
    write first. *)
Definition enabledModels := list (jsstring * bool).

Fixpoint flag (e : enabledModels) (k : jsstring) : option bool :=
  match e with
  | [] => None
  | (k', b) :: e' => if eqb k' k then Some b else flag e' k
  end.

(** [enabledModels[k] !== false]. *)
Definition enabled (e : enabledModels) (k : jsstring) : bool :=
  match flag e k with
  | Some false => false
  | _ => true
  end.

(** The initial state: every column enabled. *)
Definition all_enabled : enabledModels :=
  map (fun c => (key c, true)) MODEL_COLUMNS.

(** [{ ...prev, [k]: checked }], the handler of a checkbox. *)
Definition toggle (prev : enabledModels) (k : jsstring) (checked : bool) : enabledModels :=
  (k, checked) :: prev.

Definition activeModelIds (e : enabledModels) : list jsstring :=
  map modelId (filter (fun c => enabled e (key c)) MODEL_COLUMNS).

Definition newUserMessage (trimmed : jsstring) : ChatMessage :=
  {| msg_role := User; content := JStr trimmed;
     reasoning_details := JUndefined; model := None |}.

(** What [handleSubmit] does before it sends anything: nothing when the
    input is blank or a request is running, an error when no model is
    enabled, and otherwise a request with the trimmed input and the ids
    of the enabled models. *)
Inductive submission : Type :=
| Ignored
| Refused (error : jsstring)
| Sent (question : jsstring) (activeModels : list jsstring).

Definition handleSubmit (input : jsstring) (isLoading : bool) (e : enabledModels)
  : submission :=
  let trimmed := trim input in
  if negb (Js.truthy (JStr trimmed)) || isLoading then Ignored
  else
    match activeModelIds e with
    | [] => Refused (lit "Please enable at least one model.")
    | ids => Sent trimmed ids
    end.

(** The message as it is put in the request: [role], [content], and
    [reasoning_details] when it is truthy. *)
Definition api_message (m : ChatMessage) : jsval :=
  JObj ([(lit "role", JStr (match msg_role m with
                            | User => lit "user"
                            | Assistant => lit "assistant"
                            end));
         (lit "content", content m)]
        ++ (if Js.truthy (reasoning_details m)
            then [(lit "reasoning_details", reasoning_details m)]
            else [])).

(** The messages made of the choices of a response: a choice without
    a message is dropped, a missing content becomes the empty text, and
    the model is kept when it is a string. *)
Definition assistantMessages (choices : list jsval) : list ChatMessage :=
  flat_map (fun choice =>
              let message := Js.opt_get choice (lit "message") in
              if Js.truthy message then
                [ {| msg_role := Assistant;
                     content := match Js.opt_get message (lit "content") with
                                | JUndefined | JNull => JStr []
                                | v => v
                                end;
                     reasoning_details := Js.opt_get message (lit "reasoning_details");
                     model := match Js.opt_get choice (lit "model") with
                              | JStr id => Some id
                              | _ => None
                              end |} ]
              else [])
           choices.

(** [columnMessages]: the loop over the conversation.  A message of the
    user is pushed to every column, a message of an assistant to the
    first column of its model, if there is one. *)
Definition push (cols : list (jsstring * list ChatMessage)) (k : jsstring)
  (m : ChatMessage) : list (jsstring * list ChatMessage) :=
  map (fun kl => if eqb (fst kl) k then (fst kl, snd kl ++ [m]) else kl) cols.

Definition place (cols : list (jsstring * list ChatMessage)) (m : ChatMessage)
  : list (jsstring * list ChatMessage) :=
  match msg_role m with
  | User => fold_left (fun cs c => push cs (key c) m) MODEL_COLUMNS cols
  | Assistant =>
      match model m with
      | Some (x :: id) =>
          match find (fun c => eqb (modelId c) (x :: id)) MODEL_COLUMNS with
          | Some c => push cols (key c) m
          | None => cols
          end
      | _ => cols
      end
  end.

Definition columnMessages (messages : list ChatMessage)
  : list (jsstring * list ChatMessage) :=
  fold_left place messages (map (fun c => (key c, [])) MODEL_COLUMNS).

Definition column_of (cols : list (jsstring * list ChatMessage)) (k : jsstring)
  : list ChatMessage :=
  match find (fun kl => eqb (fst kl) k) cols with
  | Some kl => snd kl
  | None => []
  end.

End Page.

(** ** Notions used in the statements *)

Section Notions.

Import JsObject Json.

(** Test texts are written with ['] where the JSON text has a double quote. *)
Definition qq (s : string) : jsstring :=
  map (fun c => if N.eqb c 39 then 34%N else c) (lit s).

Definition jsstring_eq_dec (a b : jsstring) : {a = b} + {a <> b} :=
  list_eq_dec N.eq_dec a b.

(** A key that an object literal stores like any other and lists in
    creation order: neither [__proto__] nor an array index. *)
Definition plain_key (k : jsstring) : bool :=
  negb (eqb k proto_key)
  && match array_index k with None => true | Some _ => false end.

(** The sum of the values of an object, when all of them are numbers. *)
Fixpoint sum_values (o : jsobject) : option Z :=
  match o with
  | [] => Some 0%Z
  | (_, PNum n) :: o' => option_map (Z.add n) (sum_values o')
  | (_, PNative _ _) :: _ => None
  end.

(** The vote names one of the keys [ks]. *)
Definition names (ks : list jsstring) (voted : option jsstring) : bool :=
  match voted with
  | Some v => existsb (eqb v) ks
  | None => false
  end.

Definition not_null (voted : option jsstring) : bool :=
  match voted with Some _ => true | None => false end.

Definition count {A} (p : A -> bool) (l : list A) : nat := List.length (filter p l).

(** The record a judge leaves; it does not depend on the tally. *)
Definition vote_of (net : nat -> fetched) (judge : ModelAnswer) : JudgeVote :=
  match judge_content (net (index judge)) with
  | Return (Some c) =>
      match read_vote c with
      | Some (voted, why) =>
          {| judgeModelId := model judge; votedModelId := voted; reasoning := why |}
      | None => null_vote judge
      end
  | _ => null_vote judge
  end.

Definition count_vote (g : jsobject) (v : JudgeVote) : jsobject :=
  tally g (votedModelId v).

(** The result of a round that proceeds, as a function of the valid
    answers. *)
Definition round (net : nat -> fetched) (sched : list nat)
  (answers : list ModelAnswer) : CrossEvaluation :=
  let votes := map (vote_of net) (Schedule.completion_order sched answers) in
  let g := fold_left count_vote votes (init_scores answers) in
  {| scores := g;
     winnerModelId := fst (pick_winner g);
     winnerIndex := find_index answers (fst (pick_winner g));
     judges := votes |}.

(** The characters that open an object, an array or a string. *)
Definition opener (c : N) : bool :=
  N.eqb c (Json.chr "{") || N.eqb c (Json.chr "[") || N.eqb c 34.

(** The characters with which a JSON value can begin. *)
Definition opens_json_value (c : N) : bool :=
  existsb (N.eqb c) (lit "{[-tfn") || N.eqb c 34 || Json.is_digit c.

(** The question as the specification words it: the content of the
    last message whose role is ["user"], when that content is a string. *)
Definition is_user (m : jsval) : bool :=
  match m with
  | JObj fs => match Js.lookup (lit "role") fs with
               | Some (JStr r) => eqb r (lit "user")
               | _ => false
               end
  | _ => false
  end.

Fixpoint spec_last_user (messages : list jsval) : option jsval :=
  match messages with
  | [] => None
  | m :: rest =>
      match spec_last_user rest with
      | Some u => Some u
      | None => if is_user m then Some m else None
      end
  end.

Definition spec_question (messages : list jsval) : option jsstring :=
  match spec_last_user messages with
  | Some (JObj fs) => match Js.lookup (lit "content") fs with
                      | Some (JStr s) => Some s
                      | _ => None
                      end
  | _ => None
  end.

Definition nullish (v : jsval) : bool :=
  match v with JUndefined | JNull => true | _ => false end.

(** A null element stands after the last message of the user, or
    anywhere when there is no such message: the search from the end of
    the array meets it before it meets a message of the user. *)
Fixpoint null_after_last_user (messages : list jsval) : bool :=
  match messages with
  | [] => false
  | m :: rest =>
      null_after_last_user rest
      || match spec_last_user rest with
         | Some _ => false
         | None => nullish m
         end
  end.

(** The text an answer is given for the raw content of a message. *)
Definition content_text (serialize : jsval -> jsstring) (raw : jsval) : option jsstring :=
  match raw with
  | JStr s => Some s
  | _ => JSON_stringify serialize raw
  end.

(** The answer [a] was made from the choice [ch]. *)
Definition made_from (serialize : jsval -> jsstring) (ch : jsval) (a : ModelAnswer) : Prop :=
  Js.opt_get ch (lit "model") = JStr (model a) /\
  Js.truthy (Js.opt_get ch (lit "message")) = true /\
  content_text serialize (Js.opt_get (Js.opt_get ch (lit "message")) (lit "content"))
  = Some (content a).

(** The vote names the key [k]. *)
Definition votes_for (k : jsstring) (v : JudgeVote) : bool :=
  match votedModelId v with
  | Some m => eqb m k
  | None => false
  end.

(** The body of the response is JSON whose first choice has a usable
    message. *)
Definition has_message (r : response) : bool :=
  match res_json r with
  | Return data =>
      Js.truthy (Js.opt_get (Js.opt_first (Js.opt_get data (lit "choices")))
                            (lit "message"))
  | Throw _ => false
  end.

(** The backend answered with a success status and a usable message. *)
Definition answered (net : jsstring -> fetched) (m : backend) : bool :=
  match net (modelId m) with
  | Responded r => ok r && has_message r
  | Rejected => false
  end.

(** The request body carries the question and the selection the page
    built: the last message is the new message of the user, and
    [activeModels] lists the ids. *)
Definition carries (body : jsval) (question : jsstring) (ids : list jsstring) : Prop :=
  (exists history,
      Js.opt_get body (lit "messages")
      = JArr (history ++ [Page.api_message (Page.newUserMessage question)])) /\
  Js.opt_get body (lit "activeModels") = JArr (map JStr ids).

(** The message belongs in the column [c]. *)
Definition shown_in (c : Page.column) (m : Page.ChatMessage) : bool :=
  match Page.msg_role m with
  | Page.User => true
  | Page.Assistant =>
      match Page.model m with
      | Some id => negb (eqb id []) && eqb (Page.modelId c) id
      | None => false
      end
  end.

Unset Implicit Arguments.

(** *** Notions used in the proofs *)

(** *** The shape of the tally during a round

    [K] lists the keys created by the initialisation.  They keep their
    place and hold non-negative numbers; whatever follows them is a
    method name of [Object.prototype] holding text. *)
Record tally_inv (K : list jsstring) (g : jsobject) : Prop := {
  inv_keys : exists X,
      keys g = K ++ X /\
      Forall (fun k => is_method k = true /\ exists f j, own g k = Some (PNative f j)) X;
  inv_nodup : NoDup (keys g);
  inv_num : forall k, In k K -> exists n, own g k = Some (PNum n) /\ (0 <= n)%Z;
  inv_proto : ~ In proto_key K;
  inv_nonempty : ~ In [] K
}.

Definition zero_step (g : jsobject) (a : ModelAnswer) : jsobject :=
  set g (model a) (PNum 0).

(** All properties hold a non-negative number and no key is repeated. *)
Definition numeric (g : jsobject) : Prop :=
  NoDup (keys g) /\
  (forall k, In k (keys g) -> exists n, own g k = Some (PNum n) /\ (0 <= n)%Z) /\
  ~ In proto_key (keys g).

(** One step of the running maximum. *)
Definition better (acc : option jsstring * Z) (e : jsstring * prop) : option jsstring * Z :=
  match snd e with
  | PNum score => if (score >? snd acc)%Z then (Some (fst e), score) else acc
  | PNative _ _ => acc
  end.

(** Tokens that neither open a structure nor are a string. *)
Definition flat (t : token) : Prop :=
  match t with
  | TLBrace | TLBracket | TString _ => False
  | _ => True
  end.

(** Scanner states reachable without reading an opener. *)
Definition quiet (st : lstate) : Prop :=
  match st with
  | LIdle | LNum _ _ => True
  | LWord rest t => flat t /\ ~ In (chr "{") rest
  | _ => False
  end.

(** A frame of an array. *)
Definition arr_frame (f : frame) : bool :=
  match f with FArr _ => true | FObj _ _ => false end.

(** The automaton is reading something else than an object: the value
    it is in, at the outermost level, is an array, or it is done with a
    value that is no object. *)
Definition rooted (ps : pstate) : bool :=
  match ps with
  | PValue st | PObjFirst st | PObjKey _ st | PColon _ _ st | PObjNext _ st =>
      arr_frame (last st (FObj [] []))
  | PArrFirst st | PArrNext _ st => arr_frame (last st (FArr []))
  | PDone (JObj _) => false
  | PDone _ => true
  end.

(** Scanner states inside a string. *)
Definition stringy (st : lstate) : Prop :=
  match st with
  | LStr _ | LEsc _ | LHex _ _ _ => True
  | _ => False
  end.

(** The value under a key of the tally, zero when there is none. *)
Definition value (g : jsobject) (k : jsstring) : prop :=
  match own g k with
  | Some p => p
  | None => PNum 0
  end.

(** *** Sample inputs *)

(** A choice as the handler builds it, with a text content. *)
Definition choice_of (m c : string) : jsval :=
  JObj [(lit "model", JStr (lit m));
        (lit "message", JObj [(lit "role", JStr (lit "assistant"));
                              (lit "content", JStr (lit c))])].

(** The JSON string literal denoting [s]. *)
Definition quote (s : jsstring) : jsstring :=
  [34%N]
  ++ flat_map (fun c => if N.eqb c 34 then [92%N; 34%N]
                        else if N.eqb c 92 then [92%N; 92%N]
                        else if N.eqb c 10 then [92%N; 110%N]
                        else [c]) s
  ++ [34%N].

(** A successful completion response whose first choice has the text
    [content]. *)
Definition answering (content : jsstring) : fetched :=
  Responded {| status := 200;
               body := Some (qq "{'choices':[{'message':{'role':'assistant','content':"
                             ++ quote content ++ qq "}}]}") |}.

(** A response with an error status. *)
Definition failing (code : Z) (text : string) : fetched :=
  Responded {| status := code; body := Some (lit text) |}.

(** The replies to the judges, by position of the judge. *)
Definition replies (l : list fetched) (i : nat) : fetched := nth i l Rejected.

(** The replies of the backends, by model id. *)
Fixpoint backend_replies (l : list (jsstring * fetched)) (m : jsstring) : fetched :=
  match l with
  | [] => Rejected
  | (k, r) :: l' => if eqb k m then r else backend_replies l' m
  end.

Definition answer_of (i : nat) (m c : string) : ModelAnswer :=
  {| index := i; model := lit m; content := lit c |}.

(** An object inside a fenced block, as a judge may send it. *)
Definition fenced_sample : jsstring :=
  lit "```json" ++ [10%N] ++ qq "{'winner_model_id':'X','reasoning':'ok'}"
  ++ [10%N] ++ lit "```".

(** Two candidates that vote for each other. *)
Definition tie_choices : list jsval := [choice_of "A" "a"; choice_of "B" "b"].

Definition tie_answers : list ModelAnswer := [answer_of 0 "A" "a"; answer_of 1 "B" "b"].

Definition tie_replies : nat -> fetched :=
  replies [answering (qq "{'winner_model_id':'B'}");
           answering (qq "{'winner_model_id':'A'}")].

(** Three candidates: A and B name B, the answer of C is no JSON. *)
Definition trio_choices : list jsval :=
  [choice_of "A" "a"; choice_of "B" "b"; choice_of "C" "c"].

Definition trio_answers : list ModelAnswer :=
  [answer_of 0 "A" "a"; answer_of 1 "B" "b"; answer_of 2 "C" "c"].

Definition trio_replies : nat -> fetched :=
  replies [answering (qq "{'winner_model_id':'B'}");
           answering (qq "{'winner_model_id':'B','reasoning':'same as mine'}");
           answering (lit "I cannot decide")].

Definition with_key : environment :=
  {| OPENROUTER_API_KEY := Some (lit "key");
     OPENROUTER_REFERER := None;
     OPENROUTER_SITE_TITLE := None |}.

Definition without_key : environment :=
  {| OPENROUTER_API_KEY := None;
     OPENROUTER_REFERER := None;
     OPENROUTER_SITE_TITLE := None |}.

(** A request that selects two known backends and one unknown id. *)
Definition two_selected : jsstring :=
  qq "{'messages':[{'role':'user','content':'hi'}],'activeModels':['mistralai/devstral-2512:free','no/such-model','allenai/molmo-2-8b:free']}".

Definition both_fail : jsstring -> fetched :=
  backend_replies [(MISTRAL_MODEL, failing 429 "rate limited");
                   (MOLMO_MODEL, failing 503 "unavailable")].

Definition plain_text (v : jsval) : jsstring := lit "null".

(** Four choices of which the second is missing and the third blank. *)
Definition gap_choices : list jsval :=
  [choice_of "A" "a"; JNull; choice_of "B" "  "; choice_of "C" "c"].

Definition gap_answers : list ModelAnswer := [answer_of 0 "A" "a"; answer_of 3 "C" "c"].

(** The value of the request [two_selected]. *)
Definition two_selected_body : jsval :=
  JObj [(lit "messages", JArr [JObj [(lit "role", JStr (lit "user"));
                                     (lit "content", JStr (lit "hi"))]]);
        (lit "activeModels", JArr [JStr MISTRAL_MODEL; JStr (lit "no/such-model");
                                   JStr MOLMO_MODEL])].

(** One of the two selected backends answers, the other fails. *)
Definition one_answers : jsstring -> fetched :=
  backend_replies [(MISTRAL_MODEL, answering (lit "four"));
                   (MOLMO_MODEL, failing 503 "unavailable")].

(** A fenced answer without an object. *)
Definition fenced_prose : jsstring := lit "```json nothing here```".

(** The request the page builds on the first turn. *)
Definition first_turn (question : jsstring) (ids : list jsstring) : jsval :=
  JObj [(lit "messages", JArr [Page.api_message (Page.newUserMessage question)]);
        (lit "reasoning", JObj [(lit "enabled", JBool true)]);
        (lit "activeModels", JArr (map JStr ids))].

(** The state of the page after the column of Nvidia is switched off. *)
Definition without_nvidia : Page.enabledModels :=
  Page.toggle Page.all_enabled (lit "nvidia") false.

(** A conversation of one question and the answers of two backends, one
    of them unknown to the page. *)
Definition short_talk : list Page.ChatMessage :=
  [ Page.newUserMessage (lit "hi");
    {| Page.msg_role := Page.Assistant; Page.content := JStr (lit "hello");
       Page.reasoning_details := JUndefined; Page.model := Some MISTRAL_MODEL |};
    {| Page.msg_role := Page.Assistant; Page.content := JStr (lit "hey");
       Page.reasoning_details := JUndefined; Page.model := Some (lit "no/such-model") |} ].

(** A question put to two backends, and the same request with a null
    element after the question. *)
Definition two_asked : jsstring :=
  qq "{'messages':[{'role':'user','content':'2+2?'}],'activeModels':['mistralai/devstral-2512:free','allenai/molmo-2-8b:free']}".

Definition asked_then_null : jsstring :=
  qq "{'messages':[{'role':'user','content':'2+2?'},null],'activeModels':['mistralai/devstral-2512:free','allenai/molmo-2-8b:free']}".

Definition both_answer : jsstring -> fetched :=
  backend_replies [(MISTRAL_MODEL, answering (lit "4"));
                   (MOLMO_MODEL, answering (lit "four"))].

(** The object of a vote inside an array, and after prose that holds a
    quoted word. *)
Definition wrapped_vote : jsstring := qq "[{'winner_model_id':'B'}]".

Definition quoted_prose : jsstring := qq "the 'best' one is {'winner_model_id':'B'}".

End Notions.

(** * Properties *)

(** ** The parser on sample texts *)

Module JsonTests.
Import Json.

Example parse_object :
  parse (qq "{'a': [1, -2.5e3, true, null], 'b': {'c': 'x\nyA'}}")
  = Some (JObj [(lit "a", JArr [JNum (lit "1"); JNum (lit "-2.5e3"); JBool true; JNull]);
                (lit "b", JObj [(lit "c", JStr (lit "x" ++ [10%N] ++ lit "yA"))])]).
Proof. reflexivity. Qed.

Example parse_unicode_escape :
  parse (qq "'\u4e2d\u0041'") = Some (JStr [20013%N; 65%N]).
Proof. reflexivity. Qed.

Example parse_sample_prose : parse (qq "Winner is {'winner_model_id':'X'}") = None.
Proof. reflexivity. Qed.

Example parse_rejects_leading_zero : parse (lit "01") = None.
Proof. reflexivity. Qed.

Example parse_rejects_trailing_comma : parse (lit "[1,]") = None.
Proof. reflexivity. Qed.

Example parse_rejects_two_values : parse (lit "1 2") = None.
Proof. reflexivity. Qed.

Example parse_scalar : parse (lit " 0 ") = Some (JNum (lit "0")).
Proof. reflexivity. Qed.

Example parse_duplicate_key :
  option_map (fun v => Js.opt_get v (lit "k")) (parse (qq "{'k':1,'k':'z'}"))
  = Some (JStr (lit "z")).
Proof. reflexivity. Qed.

End JsonTests.

(** ** Strings and schedules *)

Lemma eqb_eq (a b : jsstring) : eqb a b = true <-> a = b.
Proof.
  revert b; induction a as [|x a IH]; intros [|y b]; simpl; try easy.
  rewrite andb_true_iff, N.eqb_eq, IH.
  split; [intros [-> ->]; reflexivity | intros [= -> ->]; auto].
Qed.

Lemma eqb_refl (a : jsstring) : eqb a a = true.
Proof. apply eqb_eq; reflexivity. Qed.

Lemma eqb_neq (a b : jsstring) : eqb a b = false <-> a <> b.
Proof.
  rewrite <- eqb_eq. destruct (eqb a b); split; congruence.
Qed.

Lemma eqb_sym (a b : jsstring) : eqb a b = eqb b a.
Proof.
  destruct (eqb a b) eqn:E.
  - apply eqb_eq in E; subst; symmetry; apply eqb_refl.
  - apply eqb_neq in E. symmetry; apply eqb_neq; congruence.
Qed.

Module ScheduleFacts.
Import Schedule.

Lemma remove_nth_perm {A} (l : list A) : forall i x,
  nth_error l i = Some x -> Permutation (x :: remove_nth i l) l.
Proof.
  induction l as [|y l IH]; intros [|i] x H; simpl in *; try discriminate.
  - injection H as ->. reflexivity.
  - rewrite perm_swap. constructor. apply IH, H.
Qed.

Lemma remove_nth_length {A} (l : list A) : forall i x,
  nth_error l i = Some x -> S (List.length (remove_nth i l)) = List.length l.
Proof.
  induction l as [|y l IH]; intros [|i] x H; simpl in *; try discriminate.
  - reflexivity.
  - f_equal. eapply IH, H.
Qed.

Lemma drain_perm {A} : forall n sched (l : list A),
  List.length l = n -> Permutation (drain n sched l) l.
Proof.
  induction n as [|n IH]; intros sched l Hl; simpl.
  - destruct l; [constructor | discriminate].
  - destruct (nth_error l (Nat.modulo (hd 0%nat sched) (List.length l))) as [x|] eqn:E.
    + eapply perm_trans; [|apply (remove_nth_perm _ _ _ E)].
      constructor. apply IH.
      pose proof (remove_nth_length _ _ _ E). lia.
    + exfalso. apply nth_error_None in E.
      assert (Nat.modulo (hd 0%nat sched) (List.length l) < List.length l)%nat
        by (apply Nat.mod_upper_bound; lia).
      lia.
Qed.

(** Every task finishes exactly once, whatever the schedule. *)
Lemma completion_order_perm {A} (sched : list nat) (tasks : list A) :
  Permutation (completion_order sched tasks) tasks.
Proof. apply drain_perm; reflexivity. Qed.

End ScheduleFacts.

(** ** Searching and slicing *)

Module StringFacts.

Lemma indexOf_lower s c : (-1 <= indexOf s c)%Z.
Proof.
  induction s as [|x s IH]; simpl; [lia|].
  destruct (N.eqb x c); [lia|].
  destruct (Z.ltb_spec (indexOf s c) 0); lia.
Qed.

Lemma lastIndexOf_lower s c : (-1 <= lastIndexOf s c)%Z.
Proof.
  induction s as [|x s IH]; simpl; [lia|].
  destruct (Z.leb_spec 0 (lastIndexOf s c)); [lia|].
  destruct (N.eqb x c); lia.
Qed.

(** The first occurrence: nothing before it matches. *)
Lemma indexOf_first a c b :
  indexOf a c = (-1)%Z -> indexOf (a ++ c :: b) c = Z.of_nat (List.length a).
Proof.
  induction a as [|x a IH]; simpl.
  - intros _. now rewrite N.eqb_refl.
  - destruct (N.eqb x c); [discriminate|].
    pose proof (indexOf_lower a c).
    destruct (Z.ltb_spec (indexOf a c) 0) as [Hlt|Hge]; [|lia].
    intros _. rewrite IH by lia.
    destruct (Z.ltb_spec (Z.of_nat (List.length a)) 0); lia.
Qed.

(** The last occurrence: nothing after it matches. *)
Lemma lastIndexOf_last a c b :
  lastIndexOf b c = (-1)%Z -> lastIndexOf (a ++ c :: b) c = Z.of_nat (List.length a).
Proof.
  intros Hb. induction a as [|x a IH]; simpl.
  - rewrite Hb. simpl. now rewrite N.eqb_refl.
  - rewrite IH. destruct (Z.leb_spec 0 (Z.of_nat (List.length a))); lia.
Qed.

Lemma indexOf_app_none a b c :
  indexOf a c = (-1)%Z -> indexOf b c = (-1)%Z -> indexOf (a ++ b) c = (-1)%Z.
Proof.
  intros Ha Hb. induction a as [|x a IH]; simpl in *; [assumption|].
  destruct (N.eqb x c); [discriminate|].
  pose proof (indexOf_lower a c).
  destruct (Z.ltb_spec (indexOf a c) 0) as [Hlt|Hge]; [|lia].
  rewrite IH by lia. reflexivity.
Qed.

Lemma clamp_inside len i : (0 <= i <= len)%Z -> clamp len i = i.
Proof.
  intros H. unfold clamp. destruct (Z.ltb_spec i 0); lia.
Qed.

(** Slicing out the middle of three pieces. *)
Lemma slice_middle (a b d : jsstring) :
  slice (a ++ b ++ d) (Z.of_nat (List.length a))
        (Z.of_nat (List.length a + List.length b)) = b.
Proof.
  unfold slice. rewrite !length_app.
  rewrite !clamp_inside by lia.
  replace (Z.to_nat (Z.of_nat (List.length a + List.length b) - Z.of_nat (List.length a)))
    with (List.length b) by lia.
  rewrite Nat2Z.id, skipn_app, skipn_all, Nat.sub_diag. simpl.
  rewrite firstn_app, firstn_all, Nat.sub_diag. simpl. apply app_nil_r.
Qed.

End StringFacts.

(** ** Objects *)

Module JsObjectFacts.
Import JsObject.

Lemma own_notin (o : jsobject) k : own o k = None <-> ~ In k (keys o).
Proof.
  induction o as [|[k' v] o IH]; simpl; [tauto|].
  destruct (eqb k' k) eqn:E.
  - apply eqb_eq in E. split; [discriminate | tauto].
  - apply eqb_neq in E. rewrite IH. tauto.
Qed.

Lemma own_in (o : jsobject) k v : own o k = Some v -> In (k, v) o.
Proof.
  induction o as [|[k' w] o IH]; simpl; [discriminate|].
  destruct (eqb k' k) eqn:E.
  - apply eqb_eq in E. intros [= ->]. left; congruence.
  - auto.
Qed.

Lemma own_key (o : jsobject) k v : own o k = Some v -> In k (keys o).
Proof. intros H. apply own_in in H. now apply (in_map fst) in H. Qed.

Lemma in_own (o : jsobject) k v : NoDup (keys o) -> In (k, v) o -> own o k = Some v.
Proof.
  induction o as [|[k' w] o IH]; simpl; [tauto|].
  intros Hnd [H|H]; inversion Hnd; subst.
  - injection H as -> ->. now rewrite eqb_refl.
  - destruct (eqb k' k) eqn:E; [|auto].
    apply eqb_eq in E; subst. apply (in_map fst) in H. contradiction.
Qed.

Lemma own_put_same (o : jsobject) k v : own (put o k v) k = Some v.
Proof.
  induction o as [|[k' w] o IH]; simpl.
  - now rewrite eqb_refl.
  - destruct (eqb k' k) eqn:E; simpl; rewrite E; auto.
Qed.

Lemma own_put_other (o : jsobject) k v k' :
  k' <> k -> own (put o k v) k' = own o k'.
Proof.
  intros Hne. induction o as [|[k0 w] o IH]; simpl.
  - destruct (eqb k k') eqn:E; [apply eqb_eq in E; congruence | reflexivity].
  - destruct (eqb k0 k) eqn:E; simpl.
    + apply eqb_eq in E; subst.
      destruct (eqb k k') eqn:E'; [apply eqb_eq in E'; congruence | reflexivity].
    + now rewrite IH.
Qed.

Lemma keys_put_own (o : jsobject) k v w :
  own o k = Some w -> keys (put o k v) = keys o.
Proof.
  induction o as [|[k0 w0] o IH]; simpl; [discriminate|].
  destruct (eqb k0 k) eqn:E; simpl; [reflexivity|].
  intros H. f_equal. apply IH, H.
Qed.

Lemma put_fresh (o : jsobject) k v : own o k = None -> put o k v = o ++ [(k, v)].
Proof.
  induction o as [|[k0 w0] o IH]; simpl; [reflexivity|].
  destruct (eqb k0 k); [discriminate|]. intros H. now rewrite IH.
Qed.

Lemma keys_put_fresh (o : jsobject) k v :
  own o k = None -> keys (put o k v) = keys o ++ [k].
Proof.
  intros H. rewrite (put_fresh _ _ v H). unfold keys. now rewrite map_app.
Qed.

(** A method name of [Object.prototype] is never an array index, and is
    not the accessor [__proto__]. *)
Lemma method_not_index k : is_method k = true -> array_index k = None.
Proof.
  unfold is_method. rewrite existsb_exists. intros (m & Hin & E).
  apply eqb_eq in E; subst m.
  repeat (destruct Hin as [<-|Hin]; [reflexivity|]). destruct Hin.
Qed.

Lemma method_not_proto k : is_method k = true -> eqb k proto_key = false.
Proof.
  unfold is_method. rewrite existsb_exists. intros (m & Hin & E).
  apply eqb_eq in E; subst m.
  repeat (destruct Hin as [<-|Hin]; [reflexivity|]). destruct Hin.
Qed.

(** With no array index among the keys, [Object.entries] lists the
    properties in creation order. *)
Lemma entries_plain (o : jsobject) :
  Forall (fun k => array_index k = None) (keys o) -> entries o = o.
Proof.
  intros H. unfold entries.
  assert (indexed o = [] /\ named o = o) as [-> ->]; [|reflexivity].
  induction o as [|[k v] o IH]; simpl in *; [auto|].
  inversion H as [|? ? Hk Ho]; subst. destruct (IH Ho) as [I1 I2].
  unfold indexed, named in *. simpl. rewrite Hk. simpl. rewrite I1, I2. auto.
Qed.

End JsObjectFacts.

(** ** The tally *)

Module TallyFacts.
Import JsObject JsObjectFacts.

Lemma set_put g v p : eqb v proto_key = false -> set g v p = put g v p.
Proof. unfold set. now intros ->. Qed.

Lemma tally_none g : tally g None = g.
Proof. reflexivity. Qed.

Lemma tally_empty g : tally g (Some []) = g.
Proof. reflexivity. Qed.

(** A vote for an own numeric property adds one to it. *)
Lemma tally_num g v n :
  own g v = Some (PNum n) -> v <> [] -> v <> proto_key ->
  tally g (Some v) = put g v (PNum (n + 1)).
Proof.
  intros Ho Hne Hnp. unfold tally, get. rewrite Ho.
  destruct v as [|c v]; [congruence|]. simpl Js.truthy. simpl.
  apply set_put. now apply eqb_neq.
Qed.

(** A vote for an own property holding text changes neither the keys
    nor the kind of the value. *)
Lemma tally_native g v f j :
  own g v = Some (PNative f j) ->
  tally g (Some v) = g \/ tally g (Some v) = put g v (PNative f (S j)).
Proof.
  intros Ho. unfold tally, get. rewrite Ho.
  destruct (Js.truthy (JStr v) && not_nullish (ROwn (PNative f j))); [|now left].
  unfold set. destruct (eqb v proto_key); auto.
Qed.

(** A vote for a name that is no own property: nothing happens, unless
    the name is a method of [Object.prototype]; then a property holding
    text is created. *)
Lemma tally_absent g v :
  own g v = None ->
  tally g (Some v) = g \/
  (is_method v = true /\ tally g (Some v) = g ++ [(v, PNative v 1)]).
Proof.
  intros Ho. unfold tally, get. rewrite Ho.
  destruct (Js.truthy (JStr v)); [|now left]. simpl.
  destruct (eqb v proto_key) eqn:Ep; [now left|].
  destruct (is_method v) eqn:Em; [|now left].
  right. split; [reflexivity|]. simpl.
  rewrite set_put by assumption. now apply put_fresh.
Qed.

Lemma tally_plain_absent g v :
  own g v = None -> is_method v = false -> tally g (Some v) = g.
Proof.
  intros Ho Hm. destruct (tally_absent g v Ho) as [H|[H _]]; [assumption|congruence].
Qed.

Lemma own_app_l (a b : jsobject) k v : own a k = Some v -> own (a ++ b) k = Some v.
Proof.
  induction a as [|[k0 w] a IH]; simpl; [discriminate|].
  destruct (eqb k0 k); auto.
Qed.

Lemma own_app_r (a b : jsobject) k : own a k = None -> own (a ++ b) k = own b k.
Proof.
  induction a as [|[k0 w] a IH]; simpl; [reflexivity|].
  destruct (eqb k0 k); [discriminate | auto].
Qed.

(** Whatever the vote, the other properties keep their values. *)
Lemma tally_other g v k : k <> v -> own (tally g (Some v)) k = own g k.
Proof.
  intros Hne. destruct (own g v) as [[n|f j]|] eqn:Ho.
  - unfold tally, get. rewrite Ho.
    destruct (Js.truthy (JStr v) && not_nullish (ROwn (PNum n))); [|reflexivity].
    unfold set. destruct (eqb v proto_key); [reflexivity|].
    now apply own_put_other.
  - destruct (tally_native g v f j Ho) as [-> | ->]; [reflexivity|].
    now apply own_put_other.
  - destruct (tally_absent g v Ho) as [-> | [_ ->]]; [reflexivity|].
    destruct (own g k) as [p|] eqn:Hk.
    + now apply own_app_l.
    + rewrite own_app_r by assumption. simpl.
      destruct (eqb v k) eqn:E; [apply eqb_eq in E; congruence | reflexivity].
Qed.

Lemma tally_inv_step K g voted : tally_inv K g -> tally_inv K (tally g voted).
Proof.
  intros [(X & HK & HX) Hnd Hnum Hp He].
  destruct voted as [v|]; [|now constructor; eauto].
  destruct (own g v) as [[n|f j]|] eqn:Ho.
  - (* a numeric own property *)
    assert (Hin : In v (keys g)) by (eapply own_key; eauto).
    assert (HvK : In v K).
    { rewrite HK in Hin. apply in_app_or in Hin. destruct Hin as [|Hin]; [assumption|].
      rewrite Forall_forall in HX. destruct (HX _ Hin) as (_ & f & j & Hf). congruence. }
    assert (v <> []) by (intros ->; contradiction).
    assert (v <> proto_key) by (intros ->; contradiction).
    rewrite (tally_num g v n) by assumption.
    constructor; auto.
    + exists X. rewrite (keys_put_own g v _ _ Ho). split; [assumption|].
      rewrite Forall_forall in *. intros k Hk. destruct (HX _ Hk) as (Hm & f & j & Hf).
      split; [assumption|]. exists f, j.
      rewrite own_put_other; [assumption|]. intros ->. congruence.
    + now rewrite (keys_put_own g v _ _ Ho).
    + intros k Hk. destruct (jsstring_eq_dec k v) as [->|Hne].
      * exists (n + 1)%Z. rewrite own_put_same. split; [reflexivity|].
        destruct (Hnum _ HvK) as (n' & Hn' & Hpos). assert (n' = n) by congruence. lia.
      * rewrite own_put_other by assumption. auto.
  - (* an own property holding text *)
    destruct (tally_native g v f j Ho) as [-> | ->]; [now constructor; eauto|].
    constructor; auto.
    + exists X. rewrite (keys_put_own g v _ _ Ho). split; [assumption|].
      rewrite Forall_forall in *. intros k Hk. destruct (HX _ Hk) as (Hm & f' & j' & Hf).
      split; [assumption|].
      destruct (jsstring_eq_dec k v) as [->|Hne].
      * rewrite own_put_same. eauto.
      * rewrite own_put_other by assumption. eauto.
    + now rewrite (keys_put_own g v _ _ Ho).
    + intros k Hk. destruct (jsstring_eq_dec k v) as [->|Hne].
      * destruct (Hnum _ Hk) as (n' & Hn' & _). congruence.
      * rewrite own_put_other by assumption. auto.
  - (* no own property *)
    destruct (tally_absent g v Ho) as [-> | [Hm ->]]; [now constructor; eauto|].
    assert (Hv : ~ In v (keys g)) by now apply own_notin.
    assert (Hkeys : keys (g ++ [(v, PNative v 1)]) = keys g ++ [v])
      by (unfold keys; now rewrite map_app).
    constructor; auto.
    + exists (X ++ [v]). rewrite Hkeys, HK, app_assoc. split; [reflexivity|].
      apply Forall_app. split.
      * rewrite Forall_forall in *. intros k Hk. destruct (HX _ Hk) as (Hm' & f & j & Hf).
        split; [assumption|]. exists f, j. now apply own_app_l.
      * constructor; [|constructor]. split; [assumption|].
        exists v, 1%nat. rewrite own_app_r by assumption. simpl. now rewrite eqb_refl.
    + rewrite Hkeys. apply NoDup_app; [assumption | constructor; [tauto | constructor] |].
      intros k Hk [<-|[]]. contradiction.
    + intros k Hk. destruct (Hnum _ Hk) as (n & Hn & Hpos).
      exists n. split; [now apply own_app_l | assumption].
Qed.

End TallyFacts.

(** ** Initialisation of the tally *)

Module InitFacts.
Import JsObject JsObjectFacts TallyFacts.

Lemma zero_step_keys g a :
  keys (zero_step g a) = keys g \/
  (keys (zero_step g a) = keys g ++ [model a] /\ ~ In (model a) (keys g)
   /\ model a <> proto_key).
Proof.
  unfold zero_step, set. destruct (eqb (model a) proto_key) eqn:Ep; [now left|].
  destruct (own g (model a)) as [p|] eqn:Ho.
  - left. eapply keys_put_own; eauto.
  - right. split; [now apply keys_put_fresh|].
    split; [now apply own_notin | now apply eqb_neq].
Qed.

Lemma zero_step_in g a :
  model a <> proto_key -> In (model a) (keys (zero_step g a)).
Proof.
  intros Hp. unfold zero_step. rewrite set_put by now apply eqb_neq.
  eapply own_key. apply own_put_same.
Qed.

Lemma zero_step_numeric g a : numeric g -> numeric (zero_step g a).
Proof.
  intros (Hnd & Hnum & Hp). unfold zero_step, set.
  destruct (eqb (model a) proto_key) eqn:Ep; [now repeat split|].
  apply eqb_neq in Ep. unfold numeric.
  destruct (own g (model a)) as [p|] eqn:Ho.
  - rewrite (keys_put_own g _ (PNum 0) p Ho). repeat split; auto.
    intros k Hk. destruct (jsstring_eq_dec k (model a)) as [->|Hne].
    + exists 0%Z. rewrite own_put_same. split; [reflexivity | lia].
    + rewrite own_put_other by assumption. auto.
  - rewrite (keys_put_fresh g _ (PNum 0) Ho). repeat split.
    + apply NoDup_app; [assumption | constructor; [tauto | constructor] |].
      intros k Hk [<-|[]]. apply own_notin in Ho. contradiction.
    + intros k Hk. destruct (jsstring_eq_dec k (model a)) as [->|Hne].
      * exists 0%Z. rewrite own_put_same. split; [reflexivity | lia].
      * rewrite own_put_other by assumption. apply Hnum.
        apply in_app_or in Hk. destruct Hk as [|[<-|[]]]; [assumption | congruence].
    + intros Hin. apply in_app_or in Hin. destruct Hin as [|[E|[]]]; [tauto | congruence].
Qed.

Lemma fold_zero_numeric : forall l g, numeric g -> numeric (fold_left zero_step l g).
Proof.
  induction l as [|a l IH]; intros g Hg; simpl; [assumption|].
  apply IH, zero_step_numeric, Hg.
Qed.

(** Initialisation only appends keys. *)
Lemma fold_zero_prefix : forall l g, exists X, keys (fold_left zero_step l g) = keys g ++ X.
Proof.
  induction l as [|a l IH]; intros g; simpl.
  - exists []. now rewrite app_nil_r.
  - destruct (IH (zero_step g a)) as (X & HX). rewrite HX.
    destruct (zero_step_keys g a) as [-> | (-> & _)].
    + now exists X.
    + exists (model a :: X). now rewrite <- app_assoc.
Qed.

Lemma fold_zero_keys_sub : forall l g k,
  In k (keys (fold_left zero_step l g)) -> In k (keys g) \/ In k (map model l).
Proof.
  induction l as [|a l IH]; intros g k Hk; simpl in *; [now left|].
  destruct (IH _ _ Hk) as [H|H]; [|now right; right].
  destruct (zero_step_keys g a) as [E | (E & _)]; rewrite E in H.
  - now left.
  - apply in_app_or in H. destruct H as [|[<-|[]]]; [now left | now right; left].
Qed.

Lemma fold_zero_keys_sup : forall l g k,
  In k (map model l) -> k <> proto_key -> In k (keys (fold_left zero_step l g)).
Proof.
  induction l as [|a l IH]; intros g k Hk Hp; simpl in *; [contradiction|].
  destruct Hk as [<-|Hk]; [|now apply IH].
  destruct (fold_zero_prefix l (zero_step g a)) as (X & ->).
  apply in_or_app. left. now apply zero_step_in.
Qed.

Lemma init_scores_fold answers : init_scores answers = fold_left zero_step answers [].
Proof. reflexivity. Qed.

Lemma numeric_nil : numeric [].
Proof. repeat split; [constructor | intros k [] | intros []]. Qed.

Lemma init_numeric answers : numeric (init_scores answers).
Proof. rewrite init_scores_fold. apply fold_zero_numeric, numeric_nil. Qed.

Lemma init_keys_sub answers k :
  In k (keys (init_scores answers)) -> In k (map model answers).
Proof.
  intros H. destruct (fold_zero_keys_sub answers [] k H) as [[]|]; assumption.
Qed.

Lemma init_keys_sup answers k :
  In k (map model answers) -> k <> proto_key -> In k (keys (init_scores answers)).
Proof. intros. now apply fold_zero_keys_sup. Qed.

(** The tally starts in the shape that [tally_inv] maintains. *)
Lemma init_inv answers :
  Forall (fun a => model a <> []) answers ->
  tally_inv (keys (init_scores answers)) (init_scores answers).
Proof.
  intros Hne. destruct (init_numeric answers) as (Hnd & Hnum & Hp).
  constructor; auto.
  - exists []. rewrite app_nil_r. split; [reflexivity | constructor].
  - intros Hin. apply init_keys_sub in Hin. apply in_map_iff in Hin.
    destruct Hin as (a & Ha & Hin). rewrite Forall_forall in Hne.
    now apply (Hne a Hin).
Qed.

(** The key of a candidate comes after the keys of the candidates that
    precede its first occurrence. *)
Lemma init_keys_order pre w post :
  model w <> proto_key -> ~ In (model w) (map model pre) ->
  exists K1 K2,
    keys (init_scores (pre ++ w :: post)) = K1 ++ model w :: K2 /\
    (forall m, In m (map model pre) -> m <> proto_key -> In m K1).
Proof.
  intros Hp Hnotin. rewrite init_scores_fold, fold_left_app. simpl.
  set (g1 := fold_left zero_step pre []).
  destruct (fold_zero_prefix post (zero_step g1 w)) as (X & ->).
  destruct (zero_step_keys g1 w) as [E | (E & _)].
  - exfalso. pose proof (zero_step_in g1 w Hp) as Hin. rewrite E in Hin.
    destruct (fold_zero_keys_sub pre [] _ Hin) as [[]|]; contradiction.
  - rewrite E, <- app_assoc. exists (keys g1), X. split; [reflexivity|].
    intros m Hm Hmp. now apply fold_zero_keys_sup.
Qed.

End InitFacts.

(** ** Winner selection *)

Module WinnerFacts.
Import JsObject JsObjectFacts TallyFacts InitFacts.

Lemma pick_winner_fold g : pick_winner g = fold_left better (entries g) (None, (-1)%Z).
Proof. reflexivity. Qed.

Lemma better_gt acc b k s : (b < s)%Z -> better (acc, b) (k, PNum s) = (Some k, s).
Proof.
  intros H. unfold better; simpl.
  destruct (Z.gtb_spec s b); [reflexivity | lia].
Qed.

Lemma better_le acc b k s : (s <= b)%Z -> better (acc, b) (k, PNum s) = (acc, b).
Proof.
  intros H. unfold better; simpl.
  destruct (Z.gtb_spec s b); [lia | reflexivity].
Qed.

(** The running maximum under strict comparison: either nothing beats
    the starting value, or the result is the first entry that reaches the
    largest number. *)
Lemma fold_better : forall (l : jsobject) acc b,
  (fold_left better l (acc, b) = (acc, b) /\
   forall k n, In (k, PNum n) l -> (n <= b)%Z)
  \/
  (exists pre w n post,
      l = pre ++ (w, PNum n) :: post /\
      fold_left better l (acc, b) = (Some w, n) /\ (b < n)%Z /\
      (forall k m, In (k, PNum m) pre -> (m < n)%Z) /\
      (forall k m, In (k, PNum m) post -> (m <= n)%Z)).
Proof.
  induction l as [|[k p] l IH]; intros acc b; simpl.
  - left. split; [reflexivity | intros ? ? []].
  - destruct p as [s|f j].
    + destruct (Z_lt_le_dec b s) as [E|E].
      * rewrite (better_gt acc b k s E).
        destruct (IH (Some k) s)
          as [(Hr & Hle) | (pre & w & n & post & -> & Hr & Hlt & Hpre & Hpost)].
        -- right. exists [], k, s, l. simpl.
           split; [reflexivity|]. split; [exact Hr|]. split; [exact E|].
           split; [intros ? ? [] | exact Hle].
        -- right. exists ((k, PNum s) :: pre), w, n, post. simpl.
           split; [reflexivity|]. split; [exact Hr|]. split; [lia|].
           split; [|exact Hpost].
           intros k' m [H|H]; [injection H as <- <-; lia | eauto].
      * rewrite (better_le acc b k s E).
        destruct (IH acc b)
          as [(Hr & Hle) | (pre & w & n & post & -> & Hr & Hlt & Hpre & Hpost)].
        -- left. split; [assumption|].
           intros k' m [H'|H']; [injection H' as <- <-; lia | eauto].
        -- right. exists ((k, PNum s) :: pre), w, n, post. simpl.
           split; [reflexivity|]. split; [exact Hr|]. split; [exact Hlt|].
           split; [|exact Hpost].
           intros k' m [H'|H']; [injection H' as <- <-; lia | eauto].
    + change (better (acc, b) (k, PNative f j)) with (acc, b).
      destruct (IH acc b)
        as [(Hr & Hle) | (pre & w & n & post & -> & Hr & Hlt & Hpre & Hpost)].
      * left. split; [assumption|]. intros k' m [H'|H']; [discriminate | eauto].
      * right. exists ((k, PNative f j) :: pre), w, n, post. simpl.
        split; [reflexivity|]. split; [exact Hr|]. split; [exact Hlt|].
        split; [|exact Hpost].
        intros k' m [H'|H']; [discriminate | eauto].
Qed.

(** In a list without repetition an element splits the list in one way. *)
Lemma split_unique {A} (x : A) : forall p q p' q',
  NoDup (p ++ x :: q) -> p ++ x :: q = p' ++ x :: q' -> p = p'.
Proof.
  induction p as [|y p IH]; intros q p' q' Hnd E.
  - destruct p' as [|y' p']; [reflexivity|]. simpl in *.
    injection E as <- E. inversion Hnd; subst.
    exfalso. apply H1. apply in_or_app. right. now left.
  - destruct p' as [|y' p']; simpl in *.
    + injection E as -> E. inversion Hnd; subst.
      exfalso. apply H1. apply in_or_app. right. now left.
    + injection E as <- E. inversion Hnd; subst. f_equal. eapply IH; eauto.
Qed.

Lemma in_split_first (w : jsstring) : forall l,
  In w l -> exists pre post, l = pre ++ w :: post /\ ~ In w pre.
Proof.
  induction l as [|x l IH]; intros H; [destruct H|].
  destruct (jsstring_eq_dec x w) as [->|Hne].
  - exists [], l. split; [reflexivity | intros []].
  - destruct H as [H|H]; [congruence|].
    destruct (IH H) as (pre & post & -> & Hn).
    exists (x :: pre), post. split; [reflexivity|]. intros [E|E]; [congruence | tauto].
Qed.

(** The winner of a tally in the shape [tally_inv K g], when the keys
    [K] are no array indices and there is at least one. *)
Lemma pick_winner_inv K g :
  tally_inv K g -> K <> [] ->
  Forall (fun k => array_index k = None) K ->
  exists pre w n post,
    g = pre ++ (w, PNum n) :: post /\
    fst (pick_winner g) = Some w /\ In w K /\ own g w = Some (PNum n) /\
    (forall k m, In (k, PNum m) pre -> (m < n)%Z) /\
    (forall k m, In (k, PNum m) post -> (m <= n)%Z).
Proof.
  intros Hinv Hne Hplain. pose proof Hinv as [(X & HK & HX) Hnd Hnum Hp He].
  rewrite pick_winner_fold, entries_plain.
  2:{ rewrite HK. apply Forall_app. split; [assumption|].
      rewrite Forall_forall in *. intros k Hk. apply method_not_index. now apply HX. }
  destruct (fold_better g None (-1)%Z) as [(_ & Hle) | (pre & w & n & post & Hg & Hr & Hlt & Hpre & Hpost)].
  - exfalso. destruct K as [|k K]; [congruence|].
    destruct (Hnum k (or_introl eq_refl)) as (n & Hn & Hpos).
    apply own_in in Hn. apply Hle in Hn. lia.
  - exists pre, w, n, post. rewrite Hr. simpl.
    assert (Hown : own g w = Some (PNum n)).
    { apply in_own; [assumption|]. rewrite Hg. apply in_or_app. right. now left. }
    repeat split; auto.
    assert (Hin : In w (keys g)) by (eapply own_key; eauto).
    rewrite HK in Hin. apply in_app_or in Hin. destruct Hin as [|Hin]; [assumption|].
    rewrite Forall_forall in HX. destruct (HX _ Hin) as (_ & f & j & Hf). congruence.
Qed.

End WinnerFacts.

(** ** One round, judge by judge *)

Section RoundFacts.

Import JsObject.

Variable serialize : jsval -> jsstring.

Lemma vote_of_judge net judge : judgeModelId (vote_of net judge) = model judge.
Proof.
  unfold vote_of.
  destruct (judge_content _) as [[c|]|]; try reflexivity.
  destruct (read_vote c) as [[voted why]|]; reflexivity.
Qed.

Lemma judge_finish_vote net g js judge :
  judge_finish net (g, js) judge
  = (count_vote g (vote_of net judge), js ++ [vote_of net judge]).
Proof.
  unfold judge_finish, judge_try, vote_of, count_vote; simpl.
  destruct (judge_content _) as [[c|]|]; simpl; try reflexivity.
  destruct (read_vote c) as [[voted why]|]; reflexivity.
Qed.

Lemma fold_judge_finish net : forall order g js,
  fold_left (judge_finish net) order (g, js)
  = (fold_left count_vote (map (vote_of net) order) g,
     js ++ map (vote_of net) order).
Proof.
  induction order as [|j order IH]; intros g js; simpl.
  - now rewrite app_nil_r.
  - rewrite judge_finish_vote, IH, <- app_assoc. reflexivity.
Qed.

Lemma keep_valid_length : forall l answers,
  keep_valid l = Return answers -> (List.length answers <= List.length l)%nat.
Proof.
  induction l as [|[[[ix m] [c|]]|] l IH]; intros answers H; simpl in *.
  - injection H as <-. auto.
  - destruct (keep_valid l) as [rest|] eqn:E; simpl in H; [|discriminate].
    specialize (IH _ eq_refl).
    destruct (0 <? List.length (trim c))%nat; injection H as <-; simpl; lia.
  - discriminate.
  - specialize (IH _ H). lia.
Qed.

Lemma mapi_length {A B} (f : nat -> A -> B) : forall l i,
  List.length (mapi f i l) = List.length l.
Proof. induction l; intros; simpl; auto. Qed.

Lemma valid_answers_length choices answers :
  valid_answers serialize choices = Return answers ->
  (List.length answers <= List.length choices)%nat.
Proof.
  intros H. apply keep_valid_length in H. now rewrite mapi_length in H.
Qed.

Lemma run_proceeds choices headers q answers net sched :
  q <> [] ->
  valid_answers serialize choices = Return answers ->
  (2 <= List.length answers)%nat ->
  runCrossEvaluation serialize choices headers (Some q) net sched
  = (Return (Some (round net sched answers)), judge_requests headers q answers).
Proof.
  intros Hq Hv Hn. unfold runCrossEvaluation.
  pose proof (valid_answers_length _ _ Hv) as Hc.
  destruct q as [|c q]; [congruence|]. simpl Js.truthy. simpl negb.
  destruct (List.length choices <? 2)%nat eqn:E1; [apply Nat.ltb_lt in E1; lia|].
  simpl orb. cbv iota. rewrite Hv.
  destruct (List.length answers <? 2)%nat eqn:E2; [apply Nat.ltb_lt in E2; lia|].
  rewrite fold_judge_finish. reflexivity.
Qed.

Lemma run_inv choices headers uq net sched ev :
  fst (runCrossEvaluation serialize choices headers uq net sched) = Return (Some ev) ->
  exists q answers,
    uq = Some q /\ q <> [] /\
    valid_answers serialize choices = Return answers /\
    (2 <= List.length answers)%nat /\
    ev = round net sched answers.
Proof.
  unfold runCrossEvaluation. intros H.
  destruct uq as [q|]; [|discriminate].
  destruct (negb (Js.truthy (JStr q)) || (List.length choices <? 2)%nat) eqn:E;
    [discriminate|].
  apply orb_false_iff in E. destruct E as [Eq _].
  destruct (valid_answers serialize choices) as [answers|] eqn:Hv; [|discriminate].
  destruct (List.length answers <? 2)%nat eqn:E2; [discriminate|].
  apply Nat.ltb_ge in E2.
  rewrite fold_judge_finish in H. simpl in H. injection H as <-.
  exists q, answers. repeat split; auto.
  intros ->. discriminate.
Qed.

End RoundFacts.

(** ** The evaluation round *)

Section Round.

Import JsObject JsObjectFacts TallyFacts InitFacts WinnerFacts.

Variable serialize : jsval -> jsstring.

Lemma normalize_model ix choice i m c :
  normalize serialize ix choice = Some (i, m, c) -> m <> [].
Proof.
  unfold normalize. destruct (Js.opt_get choice (lit "model")) as [| | | |s| |]; try discriminate.
  destruct s as [|x s]; [discriminate|].
  destruct (negb _ || negb _); [discriminate|].
  intros [= _ <- _]. discriminate.
Qed.

Lemma keep_valid_models (P : jsstring -> Prop) : forall l answers,
  Forall (fun e => forall i m c, e = Some (i, m, c) -> P m) l ->
  keep_valid l = Return answers ->
  Forall (fun a => P (model a)) answers.
Proof.
  induction l as [|[[[ix m] [c|]]|] l IH]; intros answers Hl H; simpl in *;
    inversion Hl as [|? ? He Hl']; subst.
  - injection H as <-. constructor.
  - destruct (keep_valid l) as [rest|] eqn:E; simpl in H; [|discriminate].
    specialize (IH _ Hl' eq_refl).
    destruct (0 <? List.length (trim c))%nat; injection H as <-; [|assumption].
    constructor; [|assumption]. simpl. eapply He; reflexivity.
  - discriminate.
  - auto.
Qed.

Lemma mapi_normalize_models : forall choices i,
  Forall (fun e => forall ix m c, e = Some (ix, m, c) -> m <> [])
         (mapi (normalize serialize) i choices).
Proof.
  induction choices as [|ch choices IH]; intros i; simpl; constructor; [|apply IH].
  intros ix m c H. eapply normalize_model; eauto.
Qed.

Lemma valid_answers_models choices answers :
  valid_answers serialize choices = Return answers ->
  Forall (fun a => model a <> []) answers.
Proof. apply (keep_valid_models (fun m => m <> [])), mapi_normalize_models. Qed.

Lemma fold_count_vote_inv K : forall votes g,
  tally_inv K g -> tally_inv K (fold_left count_vote votes g).
Proof.
  induction votes as [|v votes IH]; intros g Hg; simpl; [assumption|].
  apply IH. unfold count_vote. now apply tally_inv_step.
Qed.

(** The tally at the end of a round has the keys of the candidates in
    front, each holding a non-negative number. *)
Lemma round_inv net sched answers :
  Forall (fun a => model a <> []) answers ->
  tally_inv (keys (init_scores answers)) (scores (round net sched answers)).
Proof.
  intros H. unfold round; simpl. apply fold_count_vote_inv, init_inv, H.
Qed.

Lemma plain_key_spec k :
  plain_key k = true <-> k <> proto_key /\ array_index k = None.
Proof.
  unfold plain_key. rewrite andb_true_iff, negb_true_iff, eqb_neq.
  destruct (array_index k); intuition congruence.
Qed.

(** C1. In every round that proceeds, the winner is the first backend,
    in candidate order, whose score is the largest: the candidates before
    it have strictly smaller scores and those after it have scores that
    are not larger.  The winner is never null and is a key of [scores];
    when every score is zero it is the first candidate.  The ids of the
    candidates are assumed to be plain keys, as the ids of the registry
    are. *)
Theorem winner_is_first_maximum choices headers uq net sched answers ev :
  valid_answers serialize choices = Return answers ->
  Forall (fun a => plain_key (model a) = true) answers ->
  fst (runCrossEvaluation serialize choices headers uq net sched) = Return (Some ev) ->
  exists w n pre post,
    winnerModelId ev = Some w /\
    own (scores ev) w = Some (PNum n) /\
    map model answers = pre ++ w :: post /\ ~ In w pre /\
    (forall m, In m pre -> exists k, own (scores ev) m = Some (PNum k) /\ (k < n)%Z) /\
    (forall m, In m post -> exists k, own (scores ev) m = Some (PNum k) /\ (k <= n)%Z) /\
    ((forall m, In m (map model answers) -> own (scores ev) m = Some (PNum 0)) ->
     option_map model (hd_error answers) = Some w).
Proof.
  intros Hv Hplain Hrun.
  destruct (run_inv _ _ _ _ _ _ _ Hrun) as (q & answers' & -> & Hq & Hv' & Hlen & ->).
  rewrite Hv in Hv'. injection Hv' as <-.
  pose proof (valid_answers_models _ _ Hv) as Hne.
  pose proof (round_inv net sched answers Hne) as Hinv.
  set (g := scores (round net sched answers)) in *.
  set (K := keys (init_scores answers)) in *.
  assert (HinK : forall m, In m (map model answers) -> In m K).
  { intros m Hm. apply init_keys_sup; [assumption|].
    apply in_map_iff in Hm. destruct Hm as (a & <- & Ha).
    rewrite Forall_forall in Hplain. now apply plain_key_spec, Hplain. }
  assert (HKplain : Forall (fun k => array_index k = None) K).
  { apply Forall_forall. intros k Hk. apply init_keys_sub in Hk.
    apply in_map_iff in Hk. destruct Hk as (a & <- & Ha).
    rewrite Forall_forall in Hplain. now apply plain_key_spec, Hplain. }
  assert (HK : K <> []).
  { destruct answers as [|a answers]; [simpl in Hlen; lia|].
    intros E. specialize (HinK (model a) (or_introl eq_refl)). rewrite E in HinK. destruct HinK. }
  destruct (pick_winner_inv K g Hinv HK HKplain)
    as (gpre & w & n & gpost & Hg & Hw & HwK & Hown & Hpre & Hpost).
  destruct (in_split_first w (map model answers) (init_keys_sub _ _ HwK))
    as (pre & post & Hsplit & Hfirst).
  (* the keys before the winner are those of the candidates before it *)
  destruct (map_eq_app _ _ _ _ Hsplit) as (apre & arest & Ea & Epre & Erest).
  destruct (map_eq_cons _ _ Erest) as (aw & apost & -> & Eaw & Epost).
  assert (Hwp : model aw <> proto_key).
  { rewrite Forall_forall in Hplain. apply plain_key_spec, Hplain.
    rewrite Ea. apply in_or_app. right. now left. }
  assert (Hnotin : ~ In (model aw) (map model apre)) by (rewrite Eaw, Epre; exact Hfirst).
  destruct (init_keys_order apre aw apost Hwp Hnotin) as (K1 & K2 & HK12 & HK1).
  rewrite <- Ea in HK12. fold K in HK12. rewrite Eaw in HK12.
  destruct Hinv as [(X & HKX & HX) Hnd Hnum Hproto _].
  assert (Hgkeys : keys g = map fst gpre ++ w :: map fst gpost).
  { rewrite Hg. unfold keys. rewrite map_app. reflexivity. }
  assert (HK1pre : map fst gpre = K1).
  { apply (split_unique w _ (map fst gpost) _ (K2 ++ X)).
    - rewrite <- Hgkeys. exact Hnd.
    - rewrite <- Hgkeys, HKX, HK12, <- app_assoc. reflexivity. }
  assert (Hbefore : forall m, In m pre ->
            exists k, own g m = Some (PNum k) /\ (k < n)%Z).
  { intros m Hm.
    assert (HmK : In m K) by (apply HinK; rewrite Hsplit; apply in_or_app; now left).
    destruct (Hnum m HmK) as (k & Hk & _). exists k. split; [assumption|].
    assert (HmK1 : In m K1).
    { apply HK1; [now rewrite Epre|]. intros ->. contradiction. }
    rewrite <- HK1pre in HmK1. apply in_map_iff in HmK1.
    destruct HmK1 as ([m' p] & Em & Hin). simpl in Em; subst m'.
    assert (own g m = Some p).
    { apply in_own; [assumption|]. rewrite Hg. apply in_or_app. now left. }
    assert (p = PNum k) by congruence. subst p. eapply Hpre; eauto. }
  assert (Hafter : forall m, In m post ->
            exists k, own g m = Some (PNum k) /\ (k <= n)%Z).
  { intros m Hm.
    assert (HmK : In m K)
      by (apply HinK; rewrite Hsplit; apply in_or_app; right; now right).
    destruct (Hnum m HmK) as (k & Hk & _). exists k. split; [assumption|].
    pose proof (own_in _ _ _ Hk) as Hin. rewrite Hg in Hin.
    apply in_app_or in Hin. destruct Hin as [Hin|[Hin|Hin]].
    - apply Z.lt_le_incl. eapply Hpre; eauto.
    - injection Hin as _ <-. lia.
    - eapply Hpost; eauto. }
  exists w, n, pre, post. repeat split; auto.
  intros Hzero.
  destruct pre as [|m pre].
  - destruct (map_eq_cons _ _ Hsplit) as (a & tl & Etl & Ea' & _).
    rewrite Etl. simpl. now rewrite Ea'.
  - exfalso. destruct (Hbefore m (or_introl eq_refl)) as (k & Hk & Hlt).
    assert (Hm0 : own g m = Some (PNum 0))
      by (apply Hzero; rewrite Hsplit; now left).
    assert (Hw0 : own g w = Some (PNum 0))
      by (apply Hzero; rewrite Hsplit; apply in_or_app; right; now left).
    assert (k = 0%Z) by congruence. assert (n = 0%Z) by congruence. lia.
Qed.

End Round.

Section Votes.

Import JsObject JsObjectFacts TallyFacts InitFacts.

Variable serialize : jsval -> jsstring.

(** C7. Whatever the judges answer and in whatever order they finish,
    a round with a question and at least two valid candidates returns a
    result, and its [judges] sequence holds exactly one record per valid
    candidate, under the id of that candidate. *)
Theorem one_vote_per_candidate choices headers q answers net sched :
  q <> [] ->
  valid_answers serialize choices = Return answers ->
  (2 <= List.length answers)%nat ->
  exists ev,
    fst (runCrossEvaluation serialize choices headers (Some q) net sched)
      = Return (Some ev) /\
    Permutation (map judgeModelId (judges ev)) (map model answers) /\
    List.length (judges ev) = List.length answers.
Proof.
  intros Hq Hv Hn. exists (round net sched answers).
  rewrite (run_proceeds serialize _ headers q _ net sched Hq Hv Hn). simpl.
  split; [reflexivity|].
  assert (P : Permutation (map judgeModelId
                (map (vote_of net) (Schedule.completion_order sched answers)))
              (map model answers)).
  { rewrite map_map.
    erewrite map_ext; [|intros a; apply vote_of_judge].
    apply Permutation_map, ScheduleFacts.completion_order_perm. }
  split; [exact P|].
  apply Permutation_length in P. rewrite !length_map in P.
  now rewrite length_map.
Qed.

End Votes.

(** ** Sum of the scores *)

Section Sums.

Import JsObject JsObjectFacts TallyFacts InitFacts.

Variable serialize : jsval -> jsstring.

Lemma sum_values_put : forall g k n s,
  own g k = Some (PNum n) -> sum_values g = Some s ->
  sum_values (put g k (PNum (n + 1))) = Some (s + 1)%Z.
Proof.
  induction g as [|[k0 p] g IH]; intros k n s Ho Hs; simpl in *; [discriminate|].
  destruct (eqb k0 k) eqn:E.
  - injection Ho as ->. simpl.
    destruct (sum_values g) as [t|]; simpl in *; [|discriminate].
    injection Hs as <-. f_equal. lia.
  - destruct p as [m|f j]; [|discriminate]. simpl.
    destruct (sum_values g) as [t|] eqn:Et; simpl in *; [|discriminate].
    injection Hs as <-. rewrite (IH k n t Ho eq_refl). simpl. f_equal. lia.
Qed.

Lemma in_put : forall (g : jsobject) k v k' p,
  In (k', p) (put g k v) -> In (k', p) g \/ p = v.
Proof.
  induction g as [|[k0 w] g IH]; intros k v k' p H; simpl in *.
  - destruct H as [H|[]]. injection H as _ <-. now right.
  - destruct (eqb k0 k).
    + destruct H as [H|H]; [injection H as _ <-; now right | now left; right].
    + destruct H as [H|H]; [now left; left|].
      destruct (IH _ _ _ _ H); [now left; right | now right].
Qed.

Lemma init_all_zero answers k p : In (k, p) (init_scores answers) -> p = PNum 0.
Proof.
  rewrite init_scores_fold.
  assert (G : forall l g, (forall k p, In (k, p) g -> p = PNum 0) ->
                forall k p, In (k, p) (fold_left zero_step l g) -> p = PNum 0).
  { induction l as [|a l IH]; intros g Hg; simpl; [assumption|].
    apply IH. intros k' p' H. unfold zero_step, set in H.
    destruct (eqb (model a) proto_key); [eauto|].
    destruct (in_put _ _ _ _ _ H); eauto. }
  apply G. intros ? ? [].
Qed.

Lemma sum_values_zero (g : jsobject) :
  (forall k p, In (k, p) g -> p = PNum 0) -> sum_values g = Some 0%Z.
Proof.
  induction g as [|[k p] g IH]; intros H; simpl; [reflexivity|].
  rewrite (H k p (or_introl eq_refl)). rewrite IH; [reflexivity|].
  intros k' p' Hin. eapply H. right. exact Hin.
Qed.

Lemma names_spec K m : names K (Some m) = true <-> In m K.
Proof.
  simpl. rewrite existsb_exists. split.
  - intros (x & Hx & E). apply eqb_eq in E. now subst.
  - intros H. exists m. split; [assumption | apply eqb_refl].
Qed.

Lemma count_cons {A} (p : A -> bool) x l :
  count p (x :: l) = ((if p x then 1 else 0) + count p l)%nat.
Proof. unfold count. simpl. destruct (p x); reflexivity. Qed.

(** While no judge names a method of [Object.prototype] that is not a
    candidate, the keys stay those of the candidates and every counted
    vote adds one to the sum. *)
Lemma fold_count_sum K : forall votes g s,
  tally_inv K g -> keys g = K -> sum_values g = Some s ->
  (forall v m, In v votes -> votedModelId v = Some m -> is_method m = true -> In m K) ->
  keys (fold_left count_vote votes g) = K /\
  sum_values (fold_left count_vote votes g)
  = Some (s + Z.of_nat (count (fun v => names K (votedModelId v)) votes))%Z.
Proof.
  induction votes as [|v votes IH]; intros g s Hinv Hk Hs Hm; simpl.
  - split; [assumption|]. unfold count; simpl. now rewrite Z.add_0_r.
  - rewrite count_cons.
    assert (Hm' : forall v0 m, In v0 votes -> votedModelId v0 = Some m ->
                               is_method m = true -> In m K)
      by (intros; eapply Hm; eauto; now right).
    unfold count_vote at 2 4. destruct (votedModelId v) as [m|] eqn:Ev.
    + destruct (names K (Some m)) eqn:En.
      * apply names_spec in En.
        destruct (inv_num _ _ Hinv m En) as (n & Hn & _).
        assert (m <> []) by (intros ->; now apply (inv_nonempty _ _ Hinv)).
        assert (m <> proto_key) by (intros ->; now apply (inv_proto _ _ Hinv)).
        pose proof (tally_inv_step K g (Some m) Hinv) as Hinv1.
        rewrite (tally_num g m n) in * by assumption.
        destruct (IH (put g m (PNum (n + 1))) (s + 1)%Z Hinv1) as (Hk2 & Hs2); auto.
        -- rewrite (keys_put_own g m _ _ Hn). exact Hk.
        -- now apply sum_values_put.
        -- split; [assumption|]. rewrite Hs2. f_equal. lia.
      * assert (Hnot : ~ In m K).
        { intros Hin. apply names_spec in Hin. congruence. }
        assert (Ho : own g m = None) by (apply own_notin; now rewrite Hk).
        assert (Hmeth : is_method m = false).
        { destruct (is_method m) eqn:E; [|reflexivity].
          exfalso. apply Hnot. eapply Hm; eauto. now left. }
        rewrite (tally_plain_absent g m Ho Hmeth).
        destruct (IH g s Hinv Hk Hs Hm') as (Hk2 & Hs2).
        split; [assumption|]. rewrite Hs2. f_equal.
    + simpl. destruct (IH g s Hinv Hk Hs Hm') as (Hk2 & Hs2).
      split; [assumption|]. rewrite Hs2. f_equal.
Qed.

Lemma count_le {A} (p q : A -> bool) (l : list A) :
  (forall x, p x = true -> q x = true) -> (count p l <= count q l)%nat.
Proof.
  intros H. induction l as [|x l IH]; [unfold count; simpl; lia|].
  rewrite !count_cons. destruct (p x) eqn:E.
  - rewrite (H x E). lia.
  - destruct (q x); lia.
Qed.

End Sums.

Section SumClaims.

Import JsObject JsObjectFacts TallyFacts InitFacts.

Variable serialize : jsval -> jsstring.

(** C2, amended. In a round where no judge names a built-in method of
    [Object.prototype], the sum of the values of [scores] is the number of
    vote records whose [votedModelId] is a key of [scores]; the records
    whose [votedModelId] is not null may be more, since a vote for an id
    that is no key is recorded and counted nowhere. *)
Theorem scores_sum_counts_known_votes choices headers uq net sched answers ev :
  valid_answers serialize choices = Return answers ->
  fst (runCrossEvaluation serialize choices headers uq net sched) = Return (Some ev) ->
  (forall v m, In v (judges ev) -> votedModelId v = Some m ->
               is_method m = true -> In m (map model answers)) ->
  sum_values (scores ev)
  = Some (Z.of_nat (count (fun v => names (keys (scores ev)) (votedModelId v))
                          (judges ev))) /\
  (count (fun v => names (keys (scores ev)) (votedModelId v)) (judges ev)
   <= count (fun v => not_null (votedModelId v)) (judges ev))%nat.
Proof.
  intros Hv Hrun Hm.
  destruct (run_inv _ _ _ _ _ _ _ Hrun) as (q & answers' & -> & Hq & Hv' & Hlen & ->).
  rewrite Hv in Hv'. injection Hv' as <-.
  pose proof (valid_answers_models _ _ _ Hv) as Hne.
  unfold round in *; simpl in *.
  set (votes := map (vote_of net) (Schedule.completion_order sched answers)) in *.
  set (K := keys (init_scores answers)).
  destruct (fold_count_sum K votes (init_scores answers) 0%Z) as (Hk & Hs).
  - now apply init_inv.
  - reflexivity.
  - apply sum_values_zero. intros k p. apply init_all_zero.
  - intros v m Hin Ev Hmeth. apply init_keys_sup; [eauto|].
    apply eqb_neq. now apply method_not_proto.
  - rewrite Hk. split; [exact Hs|].
    apply count_le. intros v. destruct (votedModelId v); [reflexivity | discriminate].
Qed.

End SumClaims.

(** C2 as stated fails: a judge that names an id outside the candidates
    leaves a record with that id, and no score moves.  Two candidates A
    and B; the judge A names Z, the request of the judge B fails. *)
Lemma sum_differs_from_non_null_votes :
  ~ (forall serialize choices headers uq net sched ev,
       fst (runCrossEvaluation serialize choices headers uq net sched)
         = Return (Some ev) ->
       sum_values (scores ev)
       = Some (Z.of_nat (count (fun v => not_null (votedModelId v)) (judges ev)))).
Proof.
  intros H.
  specialize (H plain_text [choice_of "A" "a"; choice_of "B" "b"] [] (Some (lit "q"))
                (replies [answering (qq "{'winner_model_id':'Z','reasoning':'r'}"); Rejected])
                [] _ eq_refl).
  vm_compute in H. discriminate H.
Qed.

(** The theorem at work on the same round, read the other way: one
    record is not null, none names a key, the sum is zero. *)
Lemma scores_sum_counts_known_votes_witness :
  exists ev,
    fst (runCrossEvaluation plain_text [choice_of "A" "a"; choice_of "B" "b"] []
           (Some (lit "q"))
           (replies [answering (qq "{'winner_model_id':'Z','reasoning':'r'}"); Rejected])
           []) = Return (Some ev) /\
    sum_values (scores ev) = Some 0%Z /\
    count (fun v => not_null (votedModelId v)) (judges ev) = 1%nat.
Proof.
  eexists. split; [reflexivity|].
  split; [|reflexivity].
  match goal with
  | |- sum_values (scores ?e) = _ =>
      destruct (scores_sum_counts_known_votes plain_text
                  [choice_of "A" "a"; choice_of "B" "b"] [] (Some (lit "q"))
                  (replies [answering (qq "{'winner_model_id':'Z','reasoning':'r'}"); Rejected])
                  [] _ e eq_refl eq_refl) as [Hs _]
  end.
  - intros v m Hin Ev Hmeth. vm_compute in Hin.
    destruct Hin as [<-|[<-|[]]]; vm_compute in Ev; [|discriminate].
    injection Ev as <-. vm_compute in Hmeth. discriminate.
  - rewrite Hs. reflexivity.
Defined.

(** ** Reading a judge's answer *)

Module JudgeFacts.
Import JsObject StringFacts.

Lemma judge_finish_parsed net g js judge c voted why :
  judge_content (net (index judge)) = Return (Some c) ->
  read_vote c = Some (voted, why) ->
  judge_finish net (g, js) judge
  = (tally g voted,
     js ++ [{| judgeModelId := model judge; votedModelId := voted; reasoning := why |}]).
Proof.
  intros Hc Hr. unfold judge_finish, judge_try. simpl. rewrite Hc. simpl. now rewrite Hr.
Qed.

Lemma judge_finish_unparsed net g js judge c :
  judge_content (net (index judge)) = Return (Some c) ->
  read_vote c = None ->
  judge_finish net (g, js) judge = (g, js ++ [null_vote judge]).
Proof.
  intros Hc Hr. unfold judge_finish, judge_try. simpl. rewrite Hc. simpl. now rewrite Hr.
Qed.

(** A request that fails, a response that cannot be read and a content
    that is no string all give the null vote. *)
Lemma judge_finish_failed net g js judge :
  (forall c, judge_content (net (index judge)) <> Return (Some c)) ->
  judge_finish net (g, js) judge = (g, js ++ [null_vote judge]).
Proof.
  intros H. unfold judge_finish, judge_try. simpl.
  destruct (judge_content _) as [[c|]|]; simpl; try reflexivity.
  now destruct (H c).
Qed.

Lemma string_field_obj fields k x :
  Js.lookup k fields = Some (JStr x) -> string_field (JObj fields) k = Some x.
Proof.
  intros H. unfold string_field, Js.opt_get, Js.get. simpl. now rewrite H.
Qed.

Lemma read_vote_unparsed c : Json.parse (judge_text c) = None -> read_vote c = None.
Proof. unfold read_vote. now intros ->. Qed.

Lemma trimStart_snoc x : forall l,
  is_ws x = false -> trimStart (l ++ [x]) = trimStart l ++ [x].
Proof.
  intros l Hx. induction l as [|y l IH]; simpl.
  - now rewrite Hx.
  - destruct (is_ws y); [assumption | reflexivity].
Qed.

Lemma trimStart_head s x rest : trimStart s = x :: rest -> is_ws x = false.
Proof.
  induction s as [|y s IH]; simpl; [discriminate|].
  destruct (is_ws y) eqn:E; [assumption|]. now intros [= <- _].
Qed.

(** The trimmed text does not begin with white space. *)
Lemma trim_head s x rest : trim s = x :: rest -> is_ws x = false.
Proof.
  unfold trim, trimEnd. destruct (trimStart s) as [|y t] eqn:E; [discriminate|].
  pose proof (trimStart_head _ _ _ E) as Hy.
  simpl. rewrite (trimStart_snoc y (rev t) Hy), rev_app_distr. simpl.
  now intros [= <- _].
Qed.

Lemma json_ws_is_ws c : Json.is_json_ws c = true -> is_ws c = true.
Proof.
  unfold Json.is_json_ws. rewrite !orb_true_iff, !N.eqb_eq.
  intros [[[->| ->]| ->]| ->]; reflexivity.
Qed.

End JudgeFacts.

Section JudgeClaims.

Import JsObject JsObjectFacts TallyFacts StringFacts JudgeFacts.

(** C6. When the trimmed answer of a judge opens with a fence and
    carries one JSON object between the fence lines, the text from the
    first [{] to the last [}] is what is parsed, and the string under
    [winner_model_id] becomes [votedModelId]; the sample answer of the
    specification gives [X].  When the text is no valid JSON after
    this step, the judge leaves the null vote and the tally is unchanged;
    the round goes on. *)
Theorem fenced_object_is_extracted :
  (forall net g js judge c lang mid trailer fields x,
     judge_content (net (index judge)) = Return (Some c) ->
     trim c = fence ++ lang ++ (Json.chr "{" :: mid ++ [Json.chr "}"]) ++ trailer ->
     indexOf lang (Json.chr "{") = (-1)%Z ->
     lastIndexOf trailer (Json.chr "}") = (-1)%Z ->
     Json.parse (Json.chr "{" :: mid ++ [Json.chr "}"]) = Some (JObj fields) ->
     Js.lookup (lit "winner_model_id") fields = Some (JStr x) ->
     judge_text c = Json.chr "{" :: mid ++ [Json.chr "}"] /\
     exists why,
       judge_finish net (g, js) judge
       = (tally g (Some x),
          js ++ [{| judgeModelId := model judge;
                    votedModelId := Some x;
                    reasoning := why |}])) /\
  read_vote fenced_sample = Some (Some (lit "X"), Some (lit "ok")) /\
  (forall net g js judge c,
     judge_content (net (index judge)) = Return (Some c) ->
     Json.parse (judge_text c) = None ->
     judge_finish net (g, js) judge = (g, js ++ [null_vote judge])).
Proof.
  split; [|split].
  - intros net g js judge c lang mid trailer fields x Hc Ht Hl Htr Hp Hw.
    assert (Htext : judge_text c = Json.chr "{" :: mid ++ [Json.chr "}"]).
    { unfold judge_text. rewrite Ht.
      assert (Hs : startsWith (fence ++ lang ++ (Json.chr "{" :: mid ++ [Json.chr "}"]) ++ trailer)
                     fence = true) by reflexivity.
      rewrite Hs.
      assert (Hfirst : indexOf (fence ++ lang ++ (Json.chr "{" :: mid ++ [Json.chr "}"]) ++ trailer)
                         (Json.chr "{") = Z.of_nat (List.length (fence ++ lang))).
      { rewrite app_assoc. simpl app at 2.
        apply indexOf_first. apply indexOf_app_none; [reflexivity | assumption]. }
      assert (Hlast : lastIndexOf (fence ++ lang ++ (Json.chr "{" :: mid ++ [Json.chr "}"]) ++ trailer)
                        (Json.chr "}")
                      = Z.of_nat (List.length (fence ++ lang ++ Json.chr "{" :: mid))).
      { replace (fence ++ lang ++ (Json.chr "{" :: mid ++ [Json.chr "}"]) ++ trailer)
          with ((fence ++ lang ++ Json.chr "{" :: mid) ++ Json.chr "}" :: trailer)
          by (rewrite <- ?app_assoc; simpl; rewrite <- ?app_assoc; reflexivity).
        now apply lastIndexOf_last. }
      rewrite Hfirst, Hlast.
      destruct (Z.eqb_spec (Z.of_nat (List.length (fence ++ lang))) (-1)); [lia|].
      destruct (Z.eqb_spec (Z.of_nat (List.length (fence ++ lang ++ Json.chr "{" :: mid))) (-1));
        [lia|].
      simpl negb. simpl andb. cbv iota.
      replace (Z.of_nat (List.length (fence ++ lang ++ Json.chr "{" :: mid)) + 1)%Z
        with (Z.of_nat (List.length (fence ++ lang)
                        + List.length (Json.chr "{" :: mid ++ [Json.chr "}"]))).
      2:{ rewrite !length_app. simpl. rewrite !length_app. simpl. lia. }
      rewrite (app_assoc fence lang).
      apply slice_middle. }
    split; [exact Htext|].
    exists (string_field (JObj fields) (lit "reasoning")).
    apply (judge_finish_parsed net g js judge c _ _ Hc).
    unfold read_vote. rewrite Htext, Hp. f_equal. f_equal.
    now apply string_field_obj.
  - reflexivity.
  - intros net g js judge c Hc Hp.
    apply (judge_finish_unparsed net g js judge c Hc), read_vote_unparsed, Hp.
Qed.

End JudgeClaims.

Section SelfVote.

Import JsObject JsObjectFacts TallyFacts JudgeFacts.

(** C3, amended. A judge whose parsed answer names the judge's own
    backend leaves a record whose [votedModelId] is that backend, not
    null, and the vote is counted like any other: the score of the
    judge's own backend goes up by one. *)
Theorem self_vote_is_recorded net g js judge c why :
  judge_content (net (index judge)) = Return (Some c) ->
  read_vote c = Some (Some (model judge), why) ->
  judge_finish net (g, js) judge
  = (tally g (Some (model judge)),
     js ++ [{| judgeModelId := model judge;
               votedModelId := Some (model judge);
               reasoning := why |}]) /\
  (forall n, own g (model judge) = Some (PNum n) ->
             model judge <> [] -> model judge <> proto_key ->
             own (tally g (Some (model judge))) (model judge) = Some (PNum (n + 1))).
Proof.
  intros Hc Hr. split.
  - now apply (judge_finish_parsed net g js judge c).
  - intros n Ho Hne Hp. rewrite (tally_num g _ n Ho Hne Hp). apply own_put_same.
Qed.

End SelfVote.

(** C3 as stated fails: the judge A answers with its own id. *)
Lemma self_vote_is_not_null :
  ~ (forall net g js judge c why,
       judge_content (net (index judge)) = Return (Some c) ->
       read_vote c = Some (Some (model judge), why) ->
       exists g', judge_finish net (g, js) judge = (g', js ++ [null_vote judge])).
Proof.
  intros H.
  destruct (H (replies [answering (qq "{'winner_model_id':'A'}")])
              (init_scores [answer_of 0 "A" "a"; answer_of 1 "B" "b"]) []
              (answer_of 0 "A" "a") (qq "{'winner_model_id':'A'}") None
              eq_refl eq_refl) as (g' & Hg).
  vm_compute in Hg. discriminate Hg.
Qed.

Lemma self_vote_is_recorded_witness :
  judge_finish (replies [answering (qq "{'winner_model_id':'A'}")])
               (init_scores [answer_of 0 "A" "a"; answer_of 1 "B" "b"], [])
               (answer_of 0 "A" "a")
  = ([(lit "A", JsObject.PNum 1); (lit "B", JsObject.PNum 0)],
     [{| judgeModelId := lit "A"; votedModelId := Some (lit "A"); reasoning := None |}]).
Proof.
  destruct (self_vote_is_recorded
              (replies [answering (qq "{'winner_model_id':'A'}")])
              (init_scores [answer_of 0 "A" "a"; answer_of 1 "B" "b"]) []
              (answer_of 0 "A" "a") (qq "{'winner_model_id':'A'}") None
              eq_refl eq_refl) as [H _].
  rewrite H. reflexivity.
Defined.

Section Prose.

Import JudgeFacts.

(** A text whose first character can neither begin a JSON value nor be
    skipped as white space is rejected by the parser. *)
Lemma parse_rejects_first x rest :
  opens_json_value x = false -> Json.is_json_ws x = false ->
  Json.parse (x :: rest) = None.
Proof.
  unfold opens_json_value. intros Ho Hw.
  apply orb_false_iff in Ho. destruct Ho as [Ho Hd].
  apply orb_false_iff in Ho. destruct Ho as [Ho Hq].
  simpl in Ho. rewrite !orb_false_iff in Ho.
  destruct Ho as (Hb & Hk & Hm & Ht & Hf & Hn & _).
  unfold Json.parse. simpl. unfold Json.idle_char. rewrite Hw.
  change (Json.chr "{") with 123%N. rewrite Hb.
  destruct (N.eqb x (Json.chr "}")); [destruct (Json.lex _ rest); reflexivity|].
  change (Json.chr "[") with 91%N. rewrite Hk.
  destruct (N.eqb x (Json.chr "]")); [destruct (Json.lex _ rest); reflexivity|].
  destruct (N.eqb x (Json.chr ":")); [destruct (Json.lex _ rest); reflexivity|].
  destruct (N.eqb x (Json.chr ",")); [destruct (Json.lex _ rest); reflexivity|].
  rewrite Hq. change (Json.chr "-") with 45%N. rewrite Hm.
  assert (N.eqb x (Json.chr "0") = false) as ->.
  { destruct (N.eqb_spec x (Json.chr "0")) as [->|]; [discriminate Hd | reflexivity]. }
  rewrite Hd.
  change (Json.chr "t") with 116%N. rewrite Ht.
  change (Json.chr "f") with 102%N. rewrite Hf.
  change (Json.chr "n") with 110%N. rewrite Hn.
  reflexivity.
Qed.

End Prose.

(** ** Text before the first brace *)

Module ProseFacts.
Import Json.

Lemma idle_char_quiet c st ts :
  opener c = false -> idle_char c = Some (st, ts) ->
  quiet st /\ Forall flat ts /\ (is_json_ws c = false -> st <> LIdle \/ ts <> []).
Proof.
  unfold opener. rewrite !orb_false_iff. intros [[Hb Hk] Hq].
  unfold idle_char. rewrite Hb, Hk, Hq.
  repeat match goal with
         | |- context [if ?b then _ else _] => destruct b eqn:?
         end;
    intros [= <- <-];
    (split;
     [ first [exact I | split; [exact I | simpl; intuition discriminate]]
     | split;
       [ repeat constructor
       | intros Hw; first [congruence | left; discriminate | right; discriminate] ] ]).
Qed.

(** A flat token followed by anything is no JSON text. *)
Lemma prun_flat_first t1 t2 ts : flat t1 -> prun (PValue []) (t1 :: t2 :: ts) = None.
Proof. destruct t1; simpl; try contradiction; reflexivity. Qed.

Lemma num_next_brace ph : num_next ph (chr "{") = None.
Proof. destruct ph; reflexivity. Qed.

Lemma lex_cons st c s :
  lex st (c :: s)
  = match lex_char st c with
    | None => None
    | Some (st', ts) =>
        match lex st' s with
        | None => None
        | Some ts' => Some (ts ++ ts')
        end
    end.
Proof. reflexivity. Qed.

Lemma lex_char_word_brace rest t :
  ~ In (chr "{") rest -> lex_char (LWord rest t) (chr "{") = None.
Proof.
  intros Hr. unfold lex_char.
  destruct rest as [|x [|y rest]]; [reflexivity| |];
    (destruct (N.eqb (chr "{") x) eqn:E; [|reflexivity];
     apply N.eqb_eq in E; exfalso; apply Hr; left; congruence).
Qed.

(** *** What the automaton can return *)

Lemma last_cons_cons {A} (a b : A) l d : last (a :: b :: l) d = last (b :: l) d.
Proof. reflexivity. Qed.

Lemma last_default {A} (l : list A) d d' : l <> [] -> last l d = last l d'.
Proof.
  induction l as [|a [|b l] IH]; intros H; [congruence|reflexivity|].
  rewrite !last_cons_cons. apply IH. discriminate.
Qed.

Lemma under_nonempty st : arr_frame (last st (FObj [] [])) = true -> st <> [].
Proof. destruct st; [discriminate|discriminate]. Qed.

Lemma under_within st :
  arr_frame (last st (FObj [] [])) = true -> arr_frame (last st (FArr [])) = true.
Proof.
  intros H. rewrite (last_default st _ (FObj [] [])); [exact H|].
  now apply under_nonempty.
Qed.

Lemma under_push f st :
  arr_frame (last st (FObj [] [])) = true ->
  arr_frame (last (f :: st) (FObj [] [])) = true.
Proof. destruct st; [discriminate|]. now rewrite last_cons_cons. Qed.

Lemma within_push acc st :
  arr_frame (last st (FArr [])) = true ->
  arr_frame (last (FArr acc :: st) (FObj [] [])) = true.
Proof.
  destruct st as [|f st]; [reflexivity|]. rewrite last_cons_cons. intros H.
  rewrite (last_default (f :: st) _ (FArr [])); [exact H | discriminate].
Qed.

Lemma reduce_under v st :
  arr_frame (last st (FObj [] [])) = true -> rooted (reduce v st) = true.
Proof.
  destruct st as [|f [|f' st]]; [discriminate| |].
  - destruct f; [reflexivity | discriminate].
  - rewrite last_cons_cons. intros H. destruct f; simpl reduce; unfold rooted.
    + rewrite (last_default (f' :: st) _ (FObj [] [])); [exact H | discriminate].
    + exact H.
Qed.

Lemma reduce_within l st :
  arr_frame (last st (FArr [])) = true -> rooted (reduce (JArr l) st) = true.
Proof.
  destruct st as [|f st]; [reflexivity|]. intros H. apply reduce_under.
  rewrite (last_default (f :: st) _ (FArr [])); [exact H | discriminate].
Qed.

Lemma value_token_under t st ps :
  arr_frame (last st (FObj [] [])) = true ->
  value_token t st = Some ps -> rooted ps = true.
Proof.
  intros H. destruct t; simpl; try discriminate; intros [= <-];
    try (now apply reduce_under); [exact H | now apply under_within].
Qed.

Lemma pstep_rooted ps t ps' :
  rooted ps = true -> pstep ps t = Some ps' -> rooted ps' = true.
Proof.
  destruct ps as [st|st|acc st|st|acc st|acc k st|acc st|v]; simpl; intros H.
  - now apply value_token_under.
  - destruct t; try (apply value_token_under; now apply within_push).
    intros [= <-]. now apply reduce_within.
  - destruct t; try discriminate; intros [= <-].
    + now apply reduce_within.
    + now apply within_push.
  - destruct t; try discriminate; intros [= <-]; [now apply reduce_under | exact H].
  - destruct t; try discriminate; intros [= <-]. exact H.
  - destruct t; try discriminate; intros [= <-]. now apply under_push.
  - destruct t; try discriminate; intros [= <-]; [now apply reduce_under | exact H].
  - discriminate.
Qed.

Lemma prun_rooted : forall ts ps v,
  rooted ps = true -> prun ps ts = Some v -> forall fs, v <> JObj fs.
Proof.
  induction ts as [|t ts IH]; intros ps v H; simpl.
  - destruct ps as [| | | | | | |w]; try discriminate. intros [= <-] fs.
    destruct w; simpl in H; congruence.
  - destruct (pstep ps t) as [ps'|] eqn:E; [|discriminate].
    apply IH. eapply pstep_rooted; eauto.
Qed.

(** A text that is an object begins with the token of the brace. *)
Lemma prun_object ts fs :
  prun (PValue []) ts = Some (JObj fs) -> exists ts', ts = TLBrace :: ts'.
Proof.
  destruct ts as [|t ts]; [discriminate|]. simpl.
  destruct (value_token t []) as [ps|] eqn:E; [|discriminate].
  intros H. destruct t; try discriminate E; try (now eexists);
    injection E as <-;
    exfalso; refine (prun_rooted ts _ _ _ H fs eq_refl); reflexivity.
Qed.

Lemma lex_string_first : forall s st ts,
  stringy st -> lex st s = Some ts -> exists str ts', ts = TString str :: ts'.
Proof.
  induction s as [|c s IH]; intros st ts Hs.
  - destruct st; try contradiction; discriminate.
  - rewrite lex_cons.
    destruct (lex_char st c) as [[st1 ts1]|] eqn:E; [|discriminate].
    destruct (lex st1 s) as [ts2|] eqn:E2; [|discriminate]. intros [= <-].
    destruct st as [|acc|acc|acc todo code| |]; try contradiction; cbn [lex_char] in E.
    + destruct (N.eqb c 34); [injection E as <- <-; simpl; eauto|].
      destruct (N.eqb c 92); [injection E as <- <-; (simpl; refine (IH _ _ _ E2); exact I)|].
      destruct (N.ltb c 32); [discriminate|].
      injection E as <- <-. (simpl; refine (IH _ _ _ E2); exact I).
    + destruct (N.eqb c (chr "u")); [injection E as <- <-; (simpl; refine (IH _ _ _ E2); exact I)|].
      destruct (escape_char c); [|discriminate].
      injection E as <- <-. (simpl; refine (IH _ _ _ E2); exact I).
    + destruct (hex_value c); [|discriminate].
      destruct todo as [|[|k]]; injection E as <- <-; (simpl; refine (IH _ _ _ E2); exact I).
Qed.

Lemma idle_char_quiet_state c st ts :
  idle_char c = Some (st, ts) -> stringy st \/ quiet st.
Proof.
  unfold idle_char.
  repeat match goal with
         | |- context [if ?b then _ else _] => destruct b
         end; intros [= <- <-]; try (left; exact I); right; simpl; auto;
    (split; [exact I | vm_compute; intuition discriminate]).
Qed.

Lemma lex_char_quiet_state st c st' ts :
  quiet st -> lex_char st c = Some (st', ts) -> stringy st' \/ quiet st'.
Proof.
  intros Hq. destruct st as [| | | |ph acc|rest t]; simpl in Hq; try contradiction; simpl.
  - apply idle_char_quiet_state.
  - destruct (num_next ph c); [intros [= <- <-]; right; exact I|].
    destruct (num_complete ph); [|discriminate].
    destruct (idle_char c) as [[st1 ts1]|] eqn:E; [|discriminate].
    intros [= <- <-]. eapply idle_char_quiet_state; eauto.
  - destruct Hq as [Ht Hr].
    destruct rest as [|x [|y rest]]; [discriminate| |];
      destruct (N.eqb c x); try discriminate; intros [= <- <-]; right; [exact I|].
    split; [exact Ht | intros Hin; apply Hr; now right].
Qed.

Lemma lex_char_brace st st' ts :
  quiet st -> lex_char st (chr "{") = Some (st', ts) -> In TLBrace ts.
Proof.
  intros Hq. destruct st as [| | | |ph acc|rest t]; simpl in Hq; try contradiction.
  - change (lex_char LIdle (chr "{")) with (Some (LIdle, [TLBrace])).
    intros [= <- <-]. now left.
  - cbn [lex_char]. rewrite num_next_brace. destruct (num_complete ph); [|discriminate].
    change (idle_char (chr "{")) with (Some (LIdle, [TLBrace])).
    intros [= <- <-]. right. now left.
  - destruct Hq as [_ Hr]. now rewrite (lex_char_word_brace rest t Hr).
Qed.

(** A brace in the text is a token of its own or lies inside a string. *)
Lemma lex_brace_seen : forall s st ts,
  quiet st -> lex st s = Some ts -> In (chr "{") s ->
  In TLBrace ts \/ exists str, In (TString str) ts.
Proof.
  induction s as [|c s IH]; intros st ts Hq H Hin; [destruct Hin|].
  rewrite lex_cons in H.
  destruct (lex_char st c) as [[st1 ts1]|] eqn:E; [|discriminate].
  destruct (lex st1 s) as [ts2|] eqn:E2; [|discriminate]. injection H as <-.
  destruct (lex_char_quiet_state st c st1 ts1 Hq E) as [Hs|Hq1].
  - destruct (lex_string_first s st1 ts2 Hs E2) as (str & more & ->).
    right. exists str. apply in_or_app. right. now left.
  - destruct Hin as [->|Hin].
    + left. apply in_or_app. left. exact (lex_char_brace st st1 ts1 Hq E).
    + destruct (IH st1 ts2 Hq1 E2 Hin) as [H|(str & H)].
      * left. apply in_or_app. now right.
      * right. exists str. apply in_or_app. now right.
Qed.

(** Inside a number or a word the next token is that number or word. *)
Lemma lex_scalar_first : forall s st ts,
  match st with LNum _ _ => True | LWord _ t => flat t | _ => False end ->
  lex st s = Some ts -> exists t1 more, ts = t1 :: more /\ flat t1.
Proof.
  induction s as [|c s IH]; intros st ts Hs.
  - destruct st as [| | | |ph acc|rest t]; try contradiction; simpl; [|discriminate].
    destruct (num_complete ph); [|discriminate]. intros [= <-]. do 2 eexists. now split.
  - rewrite lex_cons.
    destruct (lex_char st c) as [[st1 ts1]|] eqn:E; [|discriminate].
    destruct (lex st1 s) as [ts2|] eqn:E2; [|discriminate]. intros [= <-].
    destruct st as [| | | |ph acc|rest t]; try contradiction; cbn [lex_char] in E.
    + destruct (num_next ph c).
      * injection E as <- <-. simpl. refine (IH _ _ _ E2). exact I.
      * destruct (num_complete ph); [|discriminate].
        destruct (idle_char c) as [[st2 ts3]|]; [|discriminate].
        injection E as <- <-. simpl. do 2 eexists. now split.
    + destruct rest as [|x [|y rest]]; [discriminate| |];
        destruct (N.eqb c x); try discriminate; injection E as <- <-; simpl.
      * do 2 eexists. split; [reflexivity | exact Hs].
      * refine (IH _ _ _ E2). exact Hs.
Qed.

(** The first token of a text that begins with anything but white space
    and an opening brace is not the opening brace. *)
Lemma lex_first_token x rest ts :
  is_json_ws x = false -> x <> chr "{" -> lex LIdle (x :: rest) = Some ts ->
  exists t1 more, ts = t1 :: more /\ t1 <> TLBrace.
Proof.
  intros Hw Hb. rewrite lex_cons. simpl lex_char. unfold idle_char. rewrite Hw.
  destruct (N.eqb_spec x (chr "{")) as [|_]; [contradiction|].
  repeat match goal with
         | |- context [if ?b then _ else _] => destruct b
         end;
    try discriminate;
    destruct (lex _ rest) as [ts2|] eqn:E2; try discriminate; intros [= <-];
    try (simpl; do 2 eexists; split; [reflexivity | discriminate]).
  1: { destruct (lex_string_first rest (LStr []) ts2 I E2) as (str & more & ->).
       simpl. do 2 eexists. split; [reflexivity | discriminate]. }
  all: match goal with
       | E2 : lex ?st ?r = Some ?t2 |- _ =>
           destruct (lex_scalar_first r st t2 I E2) as (t1 & more & -> & F)
       end;
    simpl; do 2 eexists; (split; [reflexivity | intros ->; exact F]).
Qed.

(** A text that parses to an object begins, after white space, with the
    opening brace. *)
Lemma parse_object_opens x rest fs :
  is_json_ws x = false -> parse (x :: rest) = Some (JObj fs) -> x = chr "{".
Proof.
  intros Hw. unfold parse.
  destruct (lex LIdle (x :: rest)) as [ts|] eqn:E; [|discriminate].
  intros H. destruct (prun_object ts fs H) as (more & ->).
  destruct (N.eq_dec x (chr "{")) as [|Hne]; [assumption|].
  destruct (lex_first_token x rest _ Hw Hne E) as (t1 & more' & [= <- <-] & Ht).
  congruence.
Qed.

Lemma lex_first_flat x rest ts :
  is_json_ws x = false -> opener x = false -> lex LIdle (x :: rest) = Some ts ->
  exists t1 more, ts = t1 :: more /\ flat t1.
Proof.
  intros Hw Ho. rewrite lex_cons. cbn [lex_char].
  destruct (idle_char x) as [[st1 ts1]|] eqn:E; [|discriminate].
  destruct (lex st1 rest) as [ts2|] eqn:E2; [|discriminate]. intros [= <-].
  destruct (idle_char_quiet x st1 ts1 Ho E) as (Q & F & S).
  destruct ts1 as [|t1 ts1].
  - destruct (S Hw) as [Hst|Hts]; [|now destruct Hts].
    destruct st1 as [| | | |ph acc|w t]; simpl in Q; try contradiction.
    + exact (lex_scalar_first rest (LNum ph acc) ts2 I E2).
    + exact (lex_scalar_first rest (LWord w t) ts2 (proj1 Q) E2).
  - inversion F; subst. simpl. do 2 eexists. split; [reflexivity | assumption].
Qed.

(** Text that begins with anything but white space, a brace, a bracket
    and a quote, and holds an opening brace further on, is no JSON
    text. *)
Lemma parse_rejects_brace_later x rest :
  is_json_ws x = false -> opener x = false -> In (chr "{") rest ->
  parse (x :: rest) = None.
Proof.
  intros Hw Ho Hin. unfold parse.
  destruct (lex LIdle (x :: rest)) as [ts|] eqn:E; [|reflexivity].
  destruct (lex_first_flat x rest ts Hw Ho E) as (t1 & more & -> & F).
  destruct more as [|t2 more]; [|now apply prun_flat_first].
  exfalso.
  destruct (lex_brace_seen (x :: rest) LIdle [t1] I E (or_intror Hin))
    as [[Ht|[]] | (str & [Ht|[]])]; subst t1; exact F.
Qed.

End ProseFacts.

Section ProseClaims.

Import JudgeFacts ProseFacts.

Lemma string_field_other v k :
  (forall fs, v <> JObj fs) -> string_field v k = None.
Proof.
  intros H. unfold string_field.
  destruct (Js.truthy v); [|reflexivity].
  destruct v; try reflexivity. now destruct (H fields).
Qed.

(** C10, amended. The fence is looked for at the very start of the
    trimmed answer and nowhere else; without it the trimmed answer is
    parsed as it stands.  When that text begins with anything but an
    opening brace - prose, or an array or a string around the object -
    the parser never returns an object and the judge leaves the null
    vote.  The parser rejects the text whenever it begins with something
    else than a brace, a bracket or a quote and holds an opening brace
    further on.  A vote for [id] is recorded exactly when the whole
    trimmed text is an object whose [winner_model_id] is the string
    [id]. *)
Theorem prose_before_object_is_null :
  (forall c, startsWith (trim c) fence = false -> judge_text c = trim c) /\
  (forall net g js judge c,
     judge_content (net (index judge)) = Return (Some c) ->
     startsWith (trim c) fence = false ->
     hd_error (trim c) <> Some (Json.chr "{") ->
     (forall fs, Json.parse (judge_text c) <> Some (JObj fs)) /\
     judge_finish net (g, js) judge = (g, js ++ [null_vote judge])) /\
  (forall c x rest,
     startsWith (trim c) fence = false ->
     trim c = x :: rest ->
     opener x = false -> In (Json.chr "{") rest ->
     Json.parse (judge_text c) = None) /\
  (forall net g js judge c id,
     judge_content (net (index judge)) = Return (Some c) ->
     startsWith (trim c) fence = false ->
     (exists g' why,
        judge_finish net (g, js) judge
        = (g', js ++ [{| judgeModelId := model judge;
                         votedModelId := Some id;
                         reasoning := why |}]))
     <-> (exists fs, Json.parse (trim c) = Some (JObj fs) /\
                     Js.lookup (lit "winner_model_id") fs = Some (JStr id))).
Proof.
  assert (H1 : forall c, startsWith (trim c) fence = false -> judge_text c = trim c).
  { intros c H. unfold judge_text. now rewrite H. }
  assert (Hws : forall c x rest, trim c = x :: rest -> Json.is_json_ws x = false).
  { intros c x rest Ht. destruct (Json.is_json_ws x) eqn:E; [|reflexivity].
    apply json_ws_is_ws in E. rewrite (trim_head c x rest Ht) in E. discriminate. }
  split; [exact H1 | split; [|split]].
  - intros net g js judge c Hc Hs Hhd.
    assert (Hobj : forall fs, Json.parse (judge_text c) <> Some (JObj fs)).
    { intros fs Hp. rewrite (H1 c Hs) in Hp.
      destruct (trim c) as [|x rest] eqn:Ht; [discriminate Hp|].
      apply Hhd. simpl. f_equal.
      exact (parse_object_opens x rest fs (Hws c x rest Ht) Hp). }
    split; [exact Hobj|].
    destruct (Json.parse (judge_text c)) as [v|] eqn:Ep.
    + rewrite (judge_finish_parsed net g js judge c None None Hc); [reflexivity|].
      unfold read_vote. rewrite Ep.
      now rewrite !string_field_other by (intros fs ->; exact (Hobj fs eq_refl)).
    + apply (judge_finish_unparsed net g js judge c Hc), read_vote_unparsed, Ep.
  - intros c x rest Hs Ht Ho Hin. rewrite (H1 c Hs), Ht.
    apply parse_rejects_brace_later; [now apply (Hws c x rest) | assumption | assumption].
  - intros net g js judge c id Hc Hs. unfold judge_finish, judge_try. simpl.
    rewrite Hc. simpl. unfold read_vote. rewrite (H1 c Hs).
    destruct (Json.parse (trim c)) as [v|]; simpl.
    + split.
      * intros (g' & why & H). apply pair_equal_spec in H. destruct H as [_ H].
        apply app_inj_tail in H. destruct H as [_ H]. injection H as Hv _.
        destruct v as [| | | | | |fs];
          try (rewrite string_field_other in Hv by (intros ?; discriminate);
               discriminate Hv).
        exists fs. split; [reflexivity|].
        unfold string_field, Js.opt_get, Js.get in Hv. simpl in Hv.
        destruct (Js.lookup (lit "winner_model_id") fs) as [[]|];
          try discriminate Hv. now injection Hv as ->.
      * intros (fs & [= ->] & Hl). rewrite (string_field_obj fs _ id Hl).
        do 2 eexists. reflexivity.
    + split.
      * intros (g' & why & H). apply pair_equal_spec in H. destruct H as [_ H].
        apply app_inj_tail in H. destruct H as [_ H]. discriminate H.
      * intros (fs & Hp & _). discriminate Hp.
Qed.

End ProseClaims.

(** C10 as stated fails: the object of the vote inside an array is JSON
    text, so the parse of the full text succeeds; the vote is null all
    the same, because an array has no [winner_model_id]. *)
Lemma wrapped_object_is_parsed :
  ~ (forall net g js judge c before object after fs,
       judge_content (net (index judge)) = Return (Some c) ->
       startsWith (trim c) fence = false ->
       trim c = before ++ object ++ after ->
       before <> [] ->
       Json.parse object = Some (JObj fs) ->
       judge_text c = trim c /\
       Json.parse (judge_text c) = None /\
       judge_finish net (g, js) judge = (g, js ++ [null_vote judge])).
Proof.
  intros H.
  destruct (H (replies [answering wrapped_vote]) [] [] (answer_of 0 "A" "a")
              wrapped_vote (lit "[") (qq "{'winner_model_id':'B'}") (lit "]")
              [(lit "winner_model_id", JStr (lit "B"))]
              eq_refl eq_refl eq_refl) as (_ & Hp & _).
  - discriminate.
  - reflexivity.
  - vm_compute in Hp. discriminate Hp.
Qed.

(** ** Skipped rounds *)

Section Skipped.

Variable serialize : jsval -> jsstring.

(** Without a question the function returns null at once. *)
Lemma skips_without_question choices headers uq net sched :
  uq = None \/ uq = Some [] ->
  runCrossEvaluation serialize choices headers uq net sched = (Return None, []).
Proof. intros [-> | ->]; reflexivity. Qed.

(** With fewer than two valid answers it returns null before any judge
    is asked, provided the filtering step itself completes. *)
Lemma skips_with_fewer_than_two choices headers uq net sched answers :
  valid_answers serialize choices = Return answers ->
  (List.length answers < 2)%nat ->
  runCrossEvaluation serialize choices headers uq net sched = (Return None, []).
Proof.
  intros Hv Hn. unfold runCrossEvaluation.
  destruct uq as [q|]; [|reflexivity].
  destruct (negb (Js.truthy (JStr q)) || (List.length choices <? 2)%nat); [reflexivity|].
  rewrite Hv. apply Nat.ltb_lt in Hn. now rewrite Hn.
Qed.

(** C5 at the input where it fails.  The first choice has a message
    without a [content] field: [JSON.stringify(undefined)] is
    [undefined], and [a.content.trim()] raises instead of the function
    returning null. *)
Theorem missing_content_raises net sched :
  runCrossEvaluation serialize
    [JObj [(lit "model", JStr (lit "A"));
           (lit "message", JObj [(lit "role", JStr (lit "assistant"))])];
     choice_of "B" "b"]
    [] (Some (lit "q")) net sched
  = (Throw TypeError, []).
Proof. reflexivity. Qed.

End Skipped.

(** ** The question *)

Section Question.

Variable serialize : jsval -> jsstring.

Lemma find_user_app : forall l1 l2,
  find_user (l1 ++ l2)
  = match find_user l1 with
    | Return None => find_user l2
    | r => r
    end.
Proof.
  induction l1 as [|m l1 IH]; intros l2; simpl; [reflexivity|].
  destruct (Js.get m (lit "role")) as [role|]; simpl; [|reflexivity].
  destruct role; try apply IH.
  destruct (eqb s (lit "user")); [reflexivity | apply IH].
Qed.

Lemma find_user_one m :
  nullish m = false ->
  find_user [m] = Return (if is_user m then Some m else None).
Proof.
  destruct m; try discriminate; intros _; try reflexivity.
  unfold find_user, is_user, Js.get. simpl.
  destruct (Js.lookup (lit "role") fields) as [[]|]; try reflexivity.
  simpl. destruct (eqb s (lit "user")); reflexivity.
Qed.

Lemma find_user_one_throws m : nullish m = true -> find_user [m] = Throw TypeError.
Proof. destruct m; try discriminate; reflexivity. Qed.

Lemma find_user_last : forall messages r,
  find_user (rev messages) = Return r -> r = spec_last_user messages.
Proof.
  induction messages as [|m rest IH]; intros r H; simpl in *.
  - now injection H.
  - rewrite find_user_app in H.
    destruct (find_user (rev rest)) as [[u|]|]; [| |discriminate].
    + rewrite <- (IH _ eq_refl). now injection H.
    + rewrite <- (IH _ eq_refl).
      destruct (nullish m) eqn:E.
      * rewrite (find_user_one_throws m E) in H. discriminate.
      * rewrite (find_user_one m E) in H. now injection H.
Qed.

Lemma find_user_total : forall messages,
  Forall (fun m => nullish m = false) messages ->
  exists r, find_user (rev messages) = Return r.
Proof.
  induction messages as [|m rest IH]; intros H; simpl.
  - now exists None.
  - inversion H as [|? ? Hm Hrest]; subst.
    destruct (IH Hrest) as (r & Hr). rewrite find_user_app, Hr.
    destruct r as [u|]; [now exists (Some u)|].
    rewrite (find_user_one m Hm). eauto.
Qed.

Lemma spec_last_user_is_user : forall messages u,
  spec_last_user messages = Some u -> is_user u = true.
Proof.
  induction messages as [|m rest IH]; intros u H; simpl in *; [discriminate|].
  destruct (spec_last_user rest) as [u'|].
  - injection H as <-. now apply IH.
  - destruct (is_user m) eqn:E; [|discriminate]. now injection H as <-.
Qed.

Lemma userQuestion_spec messages q :
  userQuestion messages = Return q -> q = spec_question messages.
Proof.
  unfold userQuestion, spec_question. intros H.
  destruct (find_user (rev messages)) as [r|] eqn:E; [|discriminate].
  simpl in H. injection H as <-.
  rewrite <- (find_user_last _ _ E).
  destruct r as [m|]; [|reflexivity].
  pose proof (find_user_last _ _ E) as Hl. symmetry in Hl.
  apply spec_last_user_is_user in Hl.
  destruct m; try discriminate.
  unfold Js.opt_get, Js.get.
  destruct (Js.lookup (lit "content") fields) as [[]|]; reflexivity.
Qed.

Lemma find_user_search : forall messages,
  find_user (rev messages)
  = if null_after_last_user messages then Throw TypeError
    else Return (spec_last_user messages).
Proof.
  induction messages as [|m rest IH]; [reflexivity|].
  simpl rev. rewrite find_user_app, IH. simpl.
  destruct (null_after_last_user rest); [reflexivity|]. simpl.
  destruct (spec_last_user rest) as [u|]; [reflexivity|].
  destruct (nullish m) eqn:E.
  - now apply find_user_one_throws.
  - now apply find_user_one.
Qed.

Lemma userQuestion_search messages :
  userQuestion messages
  = if null_after_last_user messages then Throw TypeError
    else Return (spec_question messages).
Proof.
  destruct (null_after_last_user messages) eqn:E.
  - unfold userQuestion. now rewrite find_user_search, E.
  - destruct (userQuestion messages) as [q|err] eqn:Eq.
    + now rewrite (userQuestion_spec messages q Eq).
    + unfold userQuestion in Eq. rewrite find_user_search, E in Eq. discriminate.
Qed.

Lemma post_reaches_question e req bnet jnet s1 s2 key body messages responses rawByLabel choices :
  present (OPENROUTER_API_KEY e) = Some key ->
  Json.parse req = Some body ->
  Js.get body (lit "messages") = Return (JArr messages) ->
  modelsToCall body <> [] ->
  all_fetched bnet (modelsToCall body) = Return responses ->
  filter (fun mr => ok (snd mr)) responses <> [] ->
  collect (filter (fun mr => ok (snd mr)) responses) = Return (rawByLabel, choices) ->
  POST serialize e req bnet jnet s1 s2
  = let calls := map (fun m => BackendCall (makePayload (baseHeaders key e) body
                                                        (JArr messages) m))
                     (modelsToCall body) in
    match userQuestion messages with
    | Throw _ => (Return (json_error 500 "Failed to call OpenRouter API"), calls)
    | Return question =>
        let run := runCrossEvaluation serialize choices (baseHeaders key e) question
                                      jnet s2 in
        (match fst run with
         | Return evaluation =>
             Return {| http_status := 200;
                       http_body :=
                         Answers choices
                                 (map (fun m => (label m, raw_of rawByLabel (label m)))
                                      allModels)
                                 evaluation (model_statuses s1 responses) |}
         | Throw _ => Return (json_error 500 "Failed to call OpenRouter API")
         end,
         calls ++ map JudgeCall (snd run))
    end.
Proof.
  intros Hk Hp Hm Hsel Hf Hok Hc. unfold POST. rewrite Hk, Hp, Hm. unfold attempt.
  assert (Hl : (List.length (modelsToCall body) =? 0)%nat = false)
    by (destruct (modelsToCall body); [congruence | reflexivity]).
  assert (Hs : (List.length (filter (fun mr => ok (snd mr)) responses) =? 0)%nat = false)
    by (destruct (filter _ responses); [congruence | reflexivity]).
  rewrite Hl, Hf, Hs.
  rewrite Hc. cbv zeta.
  destruct (userQuestion messages) as [question|]; [|reflexivity].
  destruct (runCrossEvaluation serialize choices (baseHeaders key e) question jnet s2)
    as [ev reqs].
  destruct ev; reflexivity.
Qed.

End Question.

Section QuestionClaims.

Variable serialize : jsval -> jsstring.

(** C9, amended. The search for the last message of the user raises
    when a null element stands after that message (anywhere, when there
    is none), and then the handler answers 500 without any evaluation.
    Otherwise the question handed to the evaluation is the content of
    the last message whose role is ["user"], taken only when it is a
    string: with at least two valid answers every judge is sent that
    text; when the content is no string, or there is no such message,
    the question is null, no judge is called and the evaluation in the
    response is null, whatever the candidates are. *)
Theorem question_is_last_user_text :
  (forall messages,
     userQuestion messages
     = if null_after_last_user messages then Throw TypeError
       else Return (spec_question messages)) /\
  (forall e req bnet jnet s1 s2 key body messages responses rawByLabel choices,
     present (OPENROUTER_API_KEY e) = Some key ->
     Json.parse req = Some body ->
     Js.get body (lit "messages") = Return (JArr messages) ->
     modelsToCall body <> [] ->
     all_fetched bnet (modelsToCall body) = Return responses ->
     filter (fun mr => ok (snd mr)) responses <> [] ->
     collect (filter (fun mr => ok (snd mr)) responses) = Return (rawByLabel, choices) ->
     let headers := baseHeaders key e in
     let calls :=
       map (fun m => BackendCall (makePayload headers body (JArr messages) m))
           (modelsToCall body) in
     let answer evaluation :=
       {| http_status := 200;
          http_body :=
            Answers choices
                    (map (fun m => (label m, raw_of rawByLabel (label m))) allModels)
                    evaluation (model_statuses s1 responses) |} in
     let run := runCrossEvaluation serialize choices headers (spec_question messages)
                                   jnet s2 in
     (null_after_last_user messages = true ->
      POST serialize e req bnet jnet s1 s2
      = (Return (json_error 500 "Failed to call OpenRouter API"), calls)) /\
     (null_after_last_user messages = false ->
      POST serialize e req bnet jnet s1 s2
      = (match fst run with
         | Return evaluation => Return (answer evaluation)
         | Throw _ => Return (json_error 500 "Failed to call OpenRouter API")
         end,
         calls ++ map JudgeCall (snd run)) /\
      (forall q answers,
         spec_question messages = Some q -> q <> [] ->
         valid_answers serialize choices = Return answers ->
         (2 <= List.length answers)%nat ->
         exists ev,
           POST serialize e req bnet jnet s1 s2
           = (Return (answer (Some ev)),
              calls ++ map JudgeCall (judge_requests headers q answers)) /\
           Forall (fun r => req_question r = q) (judge_requests headers q answers) /\
           List.length (judge_requests headers q answers) = List.length answers) /\
      (spec_question messages = None ->
       POST serialize e req bnet jnet s1 s2 = (Return (answer None), calls)))).
Proof.
  split; [apply userQuestion_search|].
  intros e req bnet jnet s1 s2 key body messages responses rawByLabel choices
         Hk Hp Hm Hsel Hf Hok Hc headers calls answer run.
  subst headers calls answer run. cbv beta.
  pose proof (post_reaches_question serialize e req bnet jnet s1 s2 key body messages
                responses rawByLabel choices Hk Hp Hm Hsel Hf Hok Hc) as H.
  rewrite userQuestion_search in H. cbv zeta in H.
  split; [intros E; now rewrite E in H|].
  intros E. rewrite E in H. split; [exact H|]. split.
  - intros q answers Hq Hne Hv Hn. exists (round jnet s2 answers).
    rewrite H, Hq.
    pose proof (run_proceeds serialize choices (baseHeaders key e) q answers jnet s2
                  Hne Hv Hn) as R.
    change (@Some (list N) q) with (@Some jsstring q) in R. rewrite R.
    split; [reflexivity|]. split.
    + unfold judge_requests. apply Forall_forall. intros r Hr.
      apply in_map_iff in Hr. now destruct Hr as (a & <- & _).
    + unfold judge_requests. apply length_map.
  - intros Hq. rewrite H, Hq. simpl. now rewrite app_nil_r.
Qed.

End QuestionClaims.

(** C9 as stated fails where a null element follows the question: the
    search reads [role] of the null element first and raises, and the
    handler answers 500 although both backends answered and the last
    message of the user carries a string. *)
Lemma null_message_stops_the_search :
  ~ (forall serialize e req bnet jnet s1 s2 key body messages responses rawByLabel choices,
       present (OPENROUTER_API_KEY e) = Some key ->
       Json.parse req = Some body ->
       Js.get body (lit "messages") = Return (JArr messages) ->
       modelsToCall body <> [] ->
       all_fetched bnet (modelsToCall body) = Return responses ->
       filter (fun mr => ok (snd mr)) responses <> [] ->
       collect (filter (fun mr => ok (snd mr)) responses) = Return (rawByLabel, choices) ->
       let run := runCrossEvaluation serialize choices (baseHeaders key e)
                                     (spec_question messages) jnet s2 in
       POST serialize e req bnet jnet s1 s2
       = (match fst run with
          | Return evaluation =>
              Return {| http_status := 200;
                        http_body :=
                          Answers choices
                                  (map (fun m => (label m, raw_of rawByLabel (label m)))
                                       allModels)
                                  evaluation (model_statuses s1 responses) |}
          | Throw _ => Return (json_error 500 "Failed to call OpenRouter API")
          end,
          map (fun m => BackendCall (makePayload (baseHeaders key e) body
                                                 (JArr messages) m))
              (modelsToCall body)
          ++ map JudgeCall (snd run))).
Proof.
  intros H.
  pose proof (H plain_text with_key asked_then_null both_answer tie_replies [] []
                _ _ _ _ _ _ eq_refl eq_refl eq_refl
                ltac:(vm_compute; discriminate) eq_refl
                ltac:(vm_compute; discriminate) eq_refl) as H'.
  vm_compute in H'. discriminate H'.
Qed.

(** ** The handler *)

Section Handler.

Variable serialize : jsval -> jsstring.

Lemma all_fetched_responded net : forall ms,
  (forall m, In m ms -> exists r, net (modelId m) = Responded r) ->
  exists responses,
    all_fetched net ms = Return responses /\
    map fst responses = ms /\
    (forall m r, In (m, r) responses -> net (modelId m) = Responded r).
Proof.
  induction ms as [|m ms IH]; intros H; simpl.
  - exists []. repeat split; auto. intros ? ? [].
  - destruct (H m (or_introl eq_refl)) as (r & Hr).
    destruct IH as (rest & Hrest & Hfst & Hin); [intros; apply H; now right|].
    exists ((m, r) :: rest). rewrite Hr, Hrest. simpl. repeat split.
    + now rewrite Hfst.
    + intros m' r' [E|E]; [injection E as <- <-; assumption | now apply Hin].
Qed.

Lemma all_fetched_rejected net : forall ms m,
  In m ms -> net (modelId m) = Rejected ->
  exists e, all_fetched net ms = Throw e.
Proof.
  induction ms as [|m0 ms IH]; intros m Hin Hr; [destruct Hin|]. simpl.
  destruct (net (modelId m0)) as [|r] eqn:E; simpl; [eauto|].
  destruct Hin as [->|Hin]; [congruence|].
  destruct (IH m Hin Hr) as (e & ->). simpl. eauto.
Qed.

Lemma filter_all {A} (p : A -> bool) (l : list A) :
  (forall x, In x l -> p x = true) -> filter p l = l.
Proof.
  induction l as [|x l IH]; intros H; simpl; [reflexivity|].
  rewrite (H x (or_introl eq_refl)). f_equal. apply IH. intros; apply H; now right.
Qed.

Lemma filter_none {A} (p : A -> bool) (l : list A) :
  (forall x, In x l -> p x = false) -> filter p l = [].
Proof.
  induction l as [|x l IH]; intros H; simpl; [reflexivity|].
  rewrite (H x (or_introl eq_refl)). apply IH. intros; apply H; now right.
Qed.

(** When no call succeeded, [modelStatuses] has one entry per response,
    each marked as failed and carrying the status received. *)
Lemma model_statuses_all_failed sched responses :
  (forall mr, In mr responses -> ok (snd mr) = false) ->
  Permutation (map fst (model_statuses sched responses))
              (map (fun mr => modelId (fst mr)) responses) /\
  Forall (fun d => st_ok (snd d) = false /\
                   exists mr, In mr responses /\ fst d = modelId (fst mr) /\
                              st_status (snd d) = status (snd mr))
         (model_statuses sched responses).
Proof.
  intros H. unfold model_statuses.
  rewrite (filter_none (fun mr => ok (snd mr)) responses H).
  rewrite (filter_all (fun mr => negb (ok (snd mr))) responses)
    by (intros mr Hin; now rewrite (H mr Hin)).
  simpl.
  pose proof (ScheduleFacts.completion_order_perm sched responses) as P.
  split.
  - rewrite map_map. simpl.
    apply (Permutation_map (fun mr => modelId (fst mr))) in P. exact P.
  - apply Forall_forall. intros d Hd. apply in_map_iff in Hd.
    destruct Hd as (mr & <- & Hin).
    assert (Hin' : In mr responses) by (eapply Permutation_in; eauto).
    unfold status_of. simpl. rewrite (H mr Hin'). simpl.
    split; [reflexivity|]. exists mr. auto.
Qed.

End Handler.

Section HandlerClaims.

Variable serialize : jsval -> jsstring.

(** C8, amended. Without the credential the handler answers 500 before
    any request is sent.  With it: a body that is no JSON, or a JSON
    value other than null without a [messages] array, is answered 400; a
    selection that leaves no known backend is answered 400; in these
    cases no request is sent.  When every selected backend answers with
    a status outside 200-299, the handler answers 502 and [details] has
    one entry per selected backend, marked as failed, with the status
    received.  When the call to a selected backend is rejected below
    HTTP, the handler answers 500. *)
Theorem handler_error_responses e req bnet jnet s1 s2 :
  (present (OPENROUTER_API_KEY e) = None ->
   POST serialize e req bnet jnet s1 s2
   = (Return (json_error 500 "Missing OPENROUTER_API_KEY in environment"), [])) /\
  (forall key, present (OPENROUTER_API_KEY e) = Some key ->
     (Json.parse req = None ->
      POST serialize e req bnet jnet s1 s2
      = (Return (json_error 400 "Invalid JSON body"), [])) /\
     (forall body v,
        Json.parse req = Some body ->
        Js.get body (lit "messages") = Return v -> Js.isArray v = false ->
        POST serialize e req bnet jnet s1 s2
        = (Return (json_error 400 "'messages' array is required"), [])) /\
     (forall body messages,
        Json.parse req = Some body ->
        Js.get body (lit "messages") = Return (JArr messages) ->
        (forall m, In m (modelsToCall body) -> In m allModels) /\
        (modelsToCall body = [] ->
         POST serialize e req bnet jnet s1 s2
         = (Return (json_error 400 "No models selected to call"), [])) /\
        (modelsToCall body <> [] ->
         (forall m, In m (modelsToCall body) ->
                    exists r, bnet (modelId m) = Responded r /\ ok r = false) ->
         exists details,
           POST serialize e req bnet jnet s1 s2
           = (Return {| http_status := 502;
                        http_body := ErrorDetails (lit "OpenRouter API error") details |},
              map (fun m => BackendCall (makePayload (baseHeaders key e) body
                                                     (JArr messages) m))
                  (modelsToCall body)) /\
           Permutation (map fst details) (map modelId (modelsToCall body)) /\
           Forall (fun d => st_ok (snd d) = false /\
                            exists r, bnet (fst d) = Responded r /\
                                      st_status (snd d) = status r)
                  details) /\
        (forall m, In m (modelsToCall body) -> bnet (modelId m) = Rejected ->
         fst (POST serialize e req bnet jnet s1 s2)
         = Return (json_error 500 "Failed to call OpenRouter API")))).
Proof.
  split.
  - intros Hk. unfold POST. now rewrite Hk.
  - intros key Hk. split; [|split].
    + intros Hp. unfold POST. now rewrite Hk, Hp.
    + intros body v Hp Hg Hv. unfold POST. rewrite Hk, Hp, Hg.
      destruct v; try reflexivity. discriminate.
    + intros body messages Hp Hg. split; [|split; [|split]].
      * intros m Hm. unfold modelsToCall in Hm.
        destruct (activeModelIds body); [|assumption].
        now apply filter_In in Hm.
      * intros Hm. unfold POST. rewrite Hk, Hp, Hg. unfold attempt. now rewrite Hm.
      * intros Hne Hfail. unfold POST. rewrite Hk, Hp, Hg. unfold attempt.
        destruct (modelsToCall body) as [|m0 ms] eqn:Em; [congruence|].
        rewrite <- Em in *.
        assert (Hlen : (List.length (modelsToCall body) =? 0)%nat = false)
          by (rewrite Em; reflexivity).
        rewrite Hlen.
        destruct (all_fetched_responded bnet (modelsToCall body))
          as (responses & Hr & Hfst & Hin).
        { intros m Hm. destruct (Hfail m Hm) as (r & Hr & _). eauto. }
        rewrite Hr.
        assert (Hbad : forall mr, In mr responses -> ok (snd mr) = false).
        { intros [m r] Hmr. simpl. pose proof (Hin m r Hmr) as Hb.
          assert (Hm : In m (modelsToCall body))
            by (rewrite <- Hfst; now apply (in_map fst) in Hmr).
          destruct (Hfail m Hm) as (r' & Hr' & Hok). congruence. }
        rewrite (filter_none (fun mr => ok (snd mr)) responses Hbad). simpl.
        destruct (model_statuses_all_failed s1 responses Hbad) as (P & F).
        exists (model_statuses s1 responses). split; [reflexivity|]. split.
        -- rewrite <- Hfst, map_map. exact P.
        -- eapply Forall_impl; [|exact F]. intros d (Hok & [m r] & Hmr & Hd & Hs).
           split; [assumption|]. exists r. simpl in *. rewrite Hd.
           split; [now apply Hin | assumption].
      * intros m Hm Hrej. unfold POST. rewrite Hk, Hp, Hg. unfold attempt.
        destruct (modelsToCall body) as [|m0 ms] eqn:Em; [destruct Hm|].
        rewrite <- Em in *.
        assert (Hlen : (List.length (modelsToCall body) =? 0)%nat = false)
          by (rewrite Em; reflexivity).
        rewrite Hlen.
        destruct (all_fetched_rejected bnet (modelsToCall body) m Hm Hrej) as (err & ->).
        reflexivity.
Qed.

End HandlerClaims.

(** C8 as stated fails where a call fails below HTTP: the promise of
    [fetch] is rejected, [Promise.all] rejects, and the outer handler
    answers 500.  One backend is selected and its call is rejected. *)
Lemma transport_failure_is_500 :
  ~ (forall serialize e req bnet jnet s1 s2 key body messages,
       present (OPENROUTER_API_KEY e) = Some key ->
       Json.parse req = Some body ->
       Js.get body (lit "messages") = Return (JArr messages) ->
       modelsToCall body <> [] ->
       (forall m r, In m (modelsToCall body) ->
                    bnet (modelId m) = Responded r -> ok r = false) ->
       exists r, fst (POST serialize e req bnet jnet s1 s2) = Return r /\
                 http_status r = 502%Z).
Proof.
  intros H.
  destruct (H plain_text
              {| OPENROUTER_API_KEY := Some (lit "key");
                 OPENROUTER_REFERER := None;
                 OPENROUTER_SITE_TITLE := None |}
              (qq "{'messages':[{'role':'user','content':'hi'}],'activeModels':['mistralai/devstral-2512:free']}")
              (fun _ => Rejected) (fun _ => Rejected) [] []
              _ _ _ eq_refl eq_refl eq_refl) as (r & Hr & Hs).
  - vm_compute. discriminate.
  - intros m r _ Hm. discriminate Hm.
  - vm_compute in Hr. injection Hr as <-. discriminate Hs.
Qed.

(** ** The candidates the handler passes on *)

Section Candidates.

Variable serialize : jsval -> jsstring.

(** Every id of the registry is a plain key. *)
Lemma registry_plain : Forall (fun m => plain_key (modelId m) = true) allModels.
Proof. repeat constructor. Qed.

Lemma all_fetched_models net : forall ms responses,
  all_fetched net ms = Return responses -> map fst responses = ms.
Proof.
  induction ms as [|m ms IH]; intros responses H; simpl in H.
  - now injection H as <-.
  - destruct (fetch (net (modelId m))) as [r|]; [|discriminate]. simpl in H.
    destruct (all_fetched net ms) as [rest|]; [|discriminate]. simpl in H.
    injection H as <-. simpl. f_equal. now apply IH.
Qed.

(** The choices built by the handler carry the ids of the backends
    that answered. *)
Lemma collect_choices : forall successful raws choices,
  collect successful = Return (raws, choices) ->
  Forall (fun ch => exists m msg,
              In m (map fst successful) /\
              ch = JObj [(lit "model", JStr (modelId m)); (lit "message", msg)])
         choices.
Proof.
  induction successful as [|[m res] rest IH]; intros raws choices H; simpl in H.
  - injection H as _ <-. constructor.
  - destruct (res_json res) as [data|]; [|discriminate]. simpl in H.
    destruct (collect rest) as [[raws' choices']|]; [|discriminate]. simpl in H.
    specialize (IH _ _ eq_refl).
    assert (IH' : Forall (fun ch => exists m0 msg,
                      In m0 (map fst ((m, res) :: rest)) /\
                      ch = JObj [(lit "model", JStr (modelId m0)); (lit "message", msg)])
                    choices').
    { eapply Forall_impl; [|exact IH]. intros ch (m0 & msg & Hin & ->).
      exists m0, msg. split; [now right | reflexivity]. }
    destruct (Js.truthy _); injection H as _ <-; [|assumption].
    constructor; [|assumption]. eexists m, _. split; [now left | reflexivity].
Qed.

Lemma normalize_built ix id msg i m c :
  normalize serialize ix (JObj [(lit "model", JStr id); (lit "message", msg)])
  = Some (i, m, c) -> m = id.
Proof.
  unfold normalize.
  change (Js.opt_get (JObj [(lit "model", JStr id); (lit "message", msg)]) (lit "model"))
    with (JStr id).
  cbv beta iota.
  match goal with
  | |- context [if ?b then _ else _] => destruct b
  end; [discriminate|]. now intros [= _ <- _].
Qed.

Lemma mapi_normalize_built (P : jsstring -> Prop) : forall choices i,
  Forall (fun ch => exists id msg,
              P id /\ ch = JObj [(lit "model", JStr id); (lit "message", msg)]) choices ->
  Forall (fun e => forall ix m c, e = Some (ix, m, c) -> P m)
         (mapi (normalize serialize) i choices).
Proof.
  induction choices as [|ch choices IH]; intros i H; simpl; [constructor|].
  inversion H as [|? ? (id & msg & Hid & ->) H']; subst.
  constructor; [|now apply IH].
  intros ix m c E. apply normalize_built in E. now subst.
Qed.

(** Whatever the backends answer, the candidates of the round the
    handler starts have ids of the registry, hence plain keys. *)
Lemma handler_candidates_plain bnet body responses raws choices answers :
  all_fetched bnet (modelsToCall body) = Return responses ->
  collect (filter (fun mr => ok (snd mr)) responses) = Return (raws, choices) ->
  valid_answers serialize choices = Return answers ->
  Forall (fun a => plain_key (model a) = true) answers.
Proof.
  intros Hf Hc Hv.
  unfold valid_answers in Hv.
  refine (keep_valid_models (fun m => plain_key m = true) _ _ _ Hv).
  apply mapi_normalize_built.
  eapply Forall_impl; [|apply (collect_choices _ _ _ Hc)].
  intros ch (m & msg & Hin & ->). exists (modelId m), msg. split; [|reflexivity].
  assert (Hm : In m (modelsToCall body)).
  { rewrite <- (all_fetched_models _ _ _ Hf).
    apply in_map_iff in Hin. destruct Hin as (mr & <- & Hmr).
    apply filter_In in Hmr. apply in_map. tauto. }
  assert (Hall : In m allModels).
  { unfold modelsToCall in Hm. destruct (activeModelIds body); [|assumption].
    now apply filter_In in Hm. }
  pose proof registry_plain as R. rewrite Forall_forall in R. now apply R.
Qed.

End Candidates.

(** ** The two defects at work *)

(** C4 at the input where it fails.  The judge A names [constructor],
    which is no candidate; [globalScores["constructor"]] reads the
    inherited method, the guard lets the vote through, and [+= 1] creates
    a third key holding text. *)
Theorem inherited_name_adds_key :
  exists ev,
    fst (runCrossEvaluation plain_text [choice_of "A" "a"; choice_of "B" "b"] []
           (Some (lit "q"))
           (replies [answering (qq "{'winner_model_id':'constructor'}"); Rejected])
           []) = Return (Some ev) /\
    JsObject.keys (scores ev) = [lit "A"; lit "B"; lit "constructor"] /\
    JsObject.own (scores ev) (lit "constructor")
    = Some (JsObject.PNative (lit "constructor") 1) /\
    sum_values (scores ev) = None.
Proof. eexists. repeat split. Qed.

(** A body that is the JSON value [null] makes [body.messages] raise
    outside the [try] block: the exception leaves the handler. *)
Lemma null_body_raises e key bnet jnet s1 s2 :
  present (OPENROUTER_API_KEY e) = Some key ->
  POST plain_text e (lit "null") bnet jnet s1 s2 = (Throw TypeError, []).
Proof. intros H. unfold POST. now rewrite H. Qed.

(** ** The theorems at work on sample rounds *)

Lemma winner_is_first_maximum_witness :
  let ev := round tie_replies [] tie_answers in
  exists w n pre post,
    winnerModelId ev = Some w /\
    JsObject.own (scores ev) w = Some (JsObject.PNum n) /\
    map model tie_answers = pre ++ w :: post /\ ~ In w pre /\
    (forall m, In m pre ->
       exists k, JsObject.own (scores ev) m = Some (JsObject.PNum k) /\ (k < n)%Z) /\
    (forall m, In m post ->
       exists k, JsObject.own (scores ev) m = Some (JsObject.PNum k) /\ (k <= n)%Z) /\
    ((forall m, In m (map model tie_answers) ->
        JsObject.own (scores ev) m = Some (JsObject.PNum 0)) ->
     option_map model (hd_error tie_answers) = Some w).
Proof.
  apply (winner_is_first_maximum plain_text tie_choices [] (Some (lit "q"))
           tie_replies [] tie_answers).
  - reflexivity.
  - repeat constructor.
  - reflexivity.
Defined.

(** The tie [{A:1, B:1}] with candidate order [[A, B]] goes to [A]. *)
Example tie_goes_to_first :
  let ev := round tie_replies [] tie_answers in
  scores ev = [(lit "A", JsObject.PNum 1); (lit "B", JsObject.PNum 1)] /\
  winnerModelId ev = Some (lit "A") /\ winnerIndex ev = Some 0%nat.
Proof. repeat split. Qed.

(** Why the ids are asked to be plain keys: ids that read as array
    indices are listed by [Object.entries] in numeric order, whatever the
    order of the candidates. *)
Example index_keys_are_listed_first :
  let ev := round (fun _ => Rejected) [] [answer_of 0 "2" "a"; answer_of 1 "1" "b"] in
  scores ev = [(lit "2", JsObject.PNum 0); (lit "1", JsObject.PNum 0)] /\
  JsObject.entries (scores ev) = [(lit "1", JsObject.PNum 0); (lit "2", JsObject.PNum 0)] /\
  winnerModelId ev = Some (lit "1").
Proof. repeat split. Qed.

(** The round of the specification: [scores = {A:0, B:2, C:0}], winner B. *)
Example trio_round :
  let ev := round trio_replies [2; 0; 0]%nat trio_answers in
  scores ev = [(lit "A", JsObject.PNum 0); (lit "B", JsObject.PNum 2);
               (lit "C", JsObject.PNum 0)] /\
  winnerModelId ev = Some (lit "B") /\
  map judgeModelId (judges ev) = [lit "C"; lit "A"; lit "B"] /\
  map votedModelId (judges ev) = [None; Some (lit "B"); Some (lit "B")].
Proof. repeat split. Qed.

Lemma one_vote_per_candidate_witness :
  exists ev,
    fst (runCrossEvaluation plain_text trio_choices [] (Some (lit "q"))
                            trio_replies [2; 0; 0]%nat) = Return (Some ev) /\
    Permutation (map judgeModelId (judges ev)) (map model trio_answers) /\
    List.length (judges ev) = List.length trio_answers.
Proof.
  apply (one_vote_per_candidate plain_text trio_choices [] (lit "q") trio_answers).
  - discriminate.
  - reflexivity.
  - simpl. lia.
Defined.

Lemma fenced_object_is_extracted_witness :
  (judge_text fenced_sample = qq "{'winner_model_id':'X','reasoning':'ok'}" /\
   exists why,
     judge_finish (replies [answering fenced_sample]) ([], []) (answer_of 0 "A" "a")
     = (tally [] (Some (lit "X")),
        [] ++ [{| judgeModelId := lit "A"; votedModelId := Some (lit "X");
                  reasoning := why |}])) /\
  judge_finish (replies [answering (lit "I cannot decide")]) ([], []) (answer_of 0 "A" "a")
  = ([], [] ++ [null_vote (answer_of 0 "A" "a")]).
Proof.
  destruct fenced_object_is_extracted as (Hfence & _ & Hbad). split.
  - apply (Hfence (replies [answering fenced_sample]) [] [] (answer_of 0 "A" "a")
             fenced_sample (lit "json" ++ [10%N])
             (qq "'winner_model_id':'X','reasoning':'ok'") ([10%N] ++ lit "```")
             [(lit "winner_model_id", JStr (lit "X")); (lit "reasoning", JStr (lit "ok"))]
             (lit "X")); reflexivity.
  - apply (Hbad (replies [answering (lit "I cannot decide")]) [] []
             (answer_of 0 "A" "a") (lit "I cannot decide")); reflexivity.
Defined.

Lemma question_is_last_user_text_witness :
  let user := JObj [(lit "role", JStr (lit "user")); (lit "content", JStr (lit "2+2?"))] in
  userQuestion [user; JNull] = Throw TypeError /\
  userQuestion [JNull; user] = Return (Some (lit "2+2?")) /\
  (exists calls,
     POST plain_text with_key asked_then_null both_answer tie_replies [] []
     = (Return (json_error 500 "Failed to call OpenRouter API"), calls) /\
     List.length calls = 2%nat) /\
  (exists choices raws ev sts calls answers,
     POST plain_text with_key two_asked both_answer tie_replies [] []
     = (Return {| http_status := 200;
                  http_body := Answers choices raws (Some ev) sts |},
        calls ++ map JudgeCall
                     (judge_requests (baseHeaders (lit "key") with_key)
                                     (lit "2+2?") answers)) /\
     Forall (fun r => req_question r = lit "2+2?")
            (judge_requests (baseHeaders (lit "key") with_key) (lit "2+2?") answers) /\
     List.length calls = 2%nat /\ List.length answers = 2%nat).
Proof.
  destruct (question_is_last_user_text plain_text) as (Hsearch & Hpost).
  split; [apply Hsearch | split; [apply Hsearch | split]].
  - destruct (Hpost with_key asked_then_null both_answer tie_replies [] []
                    _ _ _ _ _ _ eq_refl eq_refl eq_refl
                    ltac:(vm_compute; discriminate) eq_refl
                    ltac:(vm_compute; discriminate) eq_refl)
      as (Hnull & _).
    eexists. split; [apply Hnull; reflexivity | reflexivity].
  - destruct (Hpost with_key two_asked both_answer tie_replies [] []
                    _ _ _ _ _ _ eq_refl eq_refl eq_refl
                    ltac:(vm_compute; discriminate) eq_refl
                    ltac:(vm_compute; discriminate) eq_refl)
      as (_ & Hruns).
    destruct (Hruns eq_refl) as (_ & Hq & _).
    destruct (Hq (lit "2+2?")
                 [answer_of 0 "mistralai/devstral-2512:free" "4";
                  answer_of 1 "allenai/molmo-2-8b:free" "four"]
                 eq_refl ltac:(discriminate) eq_refl (le_n 2))
      as (ev & Hp & Hall & _).
    do 6 eexists. split; [exact Hp | split; [exact Hall | split; reflexivity]].
Defined.

Lemma handler_error_responses_witness :
  POST plain_text without_key two_selected both_fail (fun _ => Rejected) [] []
  = (Return (json_error 500 "Missing OPENROUTER_API_KEY in environment"), []) /\
  POST plain_text with_key (lit "{") both_fail (fun _ => Rejected) [] []
  = (Return (json_error 400 "Invalid JSON body"), []) /\
  POST plain_text with_key (qq "{'messages':'hi'}") both_fail (fun _ => Rejected) [] []
  = (Return (json_error 400 "'messages' array is required"), []) /\
  POST plain_text with_key (qq "{'messages':[],'activeModels':['no/such-model']}")
       both_fail (fun _ => Rejected) [] []
  = (Return (json_error 400 "No models selected to call"), []) /\
  exists details,
    fst (POST plain_text with_key two_selected both_fail (fun _ => Rejected) [1%nat] [])
    = Return {| http_status := 502;
                http_body := ErrorDetails (lit "OpenRouter API error") details |} /\
    Permutation (map fst details) [MISTRAL_MODEL; MOLMO_MODEL].
Proof.
  split; [|split; [|split; [|split]]].
  - apply (proj1 (handler_error_responses plain_text without_key two_selected
                    both_fail (fun _ => Rejected) [] [])). reflexivity.
  - destruct (proj2 (handler_error_responses plain_text with_key (lit "{")
                       both_fail (fun _ => Rejected) [] []) (lit "key") eq_refl)
      as (H & _). apply H. reflexivity.
  - destruct (proj2 (handler_error_responses plain_text with_key (qq "{'messages':'hi'}")
                       both_fail (fun _ => Rejected) [] []) (lit "key") eq_refl)
      as (_ & H & _).
    apply (H (JObj [(lit "messages", JStr (lit "hi"))]) (JStr (lit "hi"))); reflexivity.
  - destruct (proj2 (handler_error_responses plain_text with_key
                       (qq "{'messages':[],'activeModels':['no/such-model']}")
                       both_fail (fun _ => Rejected) [] []) (lit "key") eq_refl)
      as (_ & _ & H).
    destruct (H (JObj [(lit "messages", JArr []);
                       (lit "activeModels", JArr [JStr (lit "no/such-model")])])
                [] eq_refl eq_refl) as (_ & H0 & _).
    apply H0. reflexivity.
  - destruct (proj2 (handler_error_responses plain_text with_key two_selected
                       both_fail (fun _ => Rejected) [1%nat] []) (lit "key") eq_refl)
      as (_ & _ & H).
    destruct (H _ _ eq_refl eq_refl) as (_ & _ & H502 & _).
    destruct H502 as (details & Hpost & Hperm & _).
    + vm_compute. discriminate.
    + intros m Hm. vm_compute in Hm.
      destruct Hm as [<-|[<-|[]]]; eexists; split; reflexivity.
    + exists details. rewrite Hpost. split; [reflexivity | exact Hperm].
Defined.

(** One backend answers 429 and the other succeeds: one candidate,
    no evaluation, both statuses reported, no judge asked. *)
Example one_backend_fails :
  exists choices raws trace,
    POST plain_text with_key two_selected
         (backend_replies [(MISTRAL_MODEL, failing 429 "rate limited");
                           (MOLMO_MODEL, answering (lit "four"))])
         (fun _ => Rejected) [] []
    = (Return {| http_status := 200;
                 http_body :=
                   Answers choices raws None
                     [(MOLMO_MODEL, {| st_ok := true; st_status := 200; st_body := None |});
                      (MISTRAL_MODEL, {| st_ok := false; st_status := 429;
                                         st_body := Some (lit "rate limited") |})] |},
       trace) /\
    List.length choices = 1%nat /\ List.length trace = 2%nat.
Proof. do 3 eexists. split; [vm_compute; reflexivity | split; reflexivity]. Qed.

(** Two backends answer, but the last user message carries an array:
    the question is null and so is the evaluation. *)
Example multimodal_question_skips_evaluation :
  exists choices raws sts trace,
    POST plain_text with_key
         (qq "{'messages':[{'role':'user','content':[{'type':'text','text':'2+2?'}]}],'activeModels':['mistralai/devstral-2512:free','allenai/molmo-2-8b:free']}")
         (backend_replies [(MISTRAL_MODEL, answering (lit "4"));
                           (MOLMO_MODEL, answering (lit "four"))])
         (fun _ => Rejected) [] []
    = (Return {| http_status := 200;
                 http_body := Answers choices raws None sts |}, trace) /\
    List.length choices = 2%nat /\ List.length trace = 2%nat.
Proof. do 4 eexists. split; [vm_compute; reflexivity | split; reflexivity]. Qed.

(** A backend whose message has no [content] field: the evaluation
    raises and the whole request is answered 500, although both
    backends answered. *)
Example missing_content_fails_request :
  fst (POST plain_text with_key two_selected
         (backend_replies
            [(MISTRAL_MODEL,
              Responded {| status := 200;
                           body := Some (qq "{'choices':[{'message':{'role':'assistant'}}]}") |});
             (MOLMO_MODEL, answering (lit "four"))])
         (fun _ => Rejected) [] [])
  = Return (json_error 500 "Failed to call OpenRouter API").
Proof. vm_compute. reflexivity. Qed.

Lemma prose_before_object_is_null_witness :
  let judge := answer_of 0 "A" "a" in
  judge_text wrapped_vote = trim wrapped_vote /\
  ((forall fs, Json.parse (judge_text wrapped_vote) <> Some (JObj fs)) /\
   judge_finish (replies [answering wrapped_vote]) ([], []) judge
   = ([], [] ++ [null_vote judge])) /\
  ((forall fs, Json.parse (judge_text quoted_prose) <> Some (JObj fs)) /\
   judge_finish (replies [answering quoted_prose]) ([], []) judge
   = ([], [] ++ [null_vote judge])) /\
  Json.parse (judge_text quoted_prose) = None /\
  ((exists g' why,
      judge_finish (replies [answering wrapped_vote]) ([], []) judge
      = (g', [] ++ [{| judgeModelId := model judge;
                       votedModelId := Some (lit "B");
                       reasoning := why |}]))
   <-> (exists fs, Json.parse (trim wrapped_vote) = Some (JObj fs) /\
                   Js.lookup (lit "winner_model_id") fs = Some (JStr (lit "B")))).
Proof.
  destruct prose_before_object_is_null as (Hno & Hfirst & Hlater & Hvote).
  split; [|split; [|split; [|split]]].
  - apply Hno. reflexivity.
  - apply (Hfirst (replies [answering wrapped_vote]) [] [] (answer_of 0 "A" "a")
             wrapped_vote).
    + reflexivity.
    + reflexivity.
    + discriminate.
  - apply (Hfirst (replies [answering quoted_prose]) [] [] (answer_of 0 "A" "a")
             quoted_prose).
    + reflexivity.
    + reflexivity.
    + discriminate.
  - apply (Hlater quoted_prose 116%N (qq "he 'best' one is {'winner_model_id':'B'}")).
    + reflexivity.
    + reflexivity.
    + reflexivity.
    + vm_compute. tauto.
  - apply (Hvote (replies [answering wrapped_vote]) [] [] (answer_of 0 "A" "a")
             wrapped_vote (lit "B")).
    + reflexivity.
    + reflexivity.
Defined.

(** * Further properties of the route and the page *)

(** ** The valid answers *)

Section Answers.

Variable serialize : jsval -> jsstring.

Lemma normalize_inv ix ch i m c :
  normalize serialize ix ch = Some (i, m, c) ->
  i = ix /\ m <> [] /\
  Js.opt_get ch (lit "model") = JStr m /\
  Js.truthy (Js.opt_get ch (lit "message")) = true /\
  c = content_text serialize (Js.opt_get (Js.opt_get ch (lit "message")) (lit "content")).
Proof.
  unfold normalize, content_text.
  destruct (Js.opt_get ch (lit "model")) as [| | | |s| |]; try discriminate.
  destruct (Js.truthy (JStr s)) eqn:Es; [|discriminate].
  destruct (Js.truthy (Js.opt_get ch (lit "message"))) eqn:Em; [|discriminate].
  simpl. intros [= <- <- <-].
  repeat split; auto. intros ->. discriminate.
Qed.

Lemma keep_valid_positions : forall choices i answers,
  keep_valid (mapi (normalize serialize) i choices) = Return answers ->
  StronglySorted lt (map index answers) /\
  Forall (fun a => (i <= index a)%nat /\ model a <> [] /\ trim (content a) <> [] /\
                   exists ch, nth_error choices (index a - i) = Some ch /\
                              made_from serialize ch a) answers.
Proof.
  induction choices as [|ch choices IH]; intros i answers H; simpl in H.
  - injection H as <-. split; constructor.
  - assert (Hshift : forall rest,
               keep_valid (mapi (normalize serialize) (S i) choices) = Return rest ->
               StronglySorted lt (map index rest) /\
               Forall (fun a => (S i <= index a)%nat /\ model a <> [] /\
                                trim (content a) <> [] /\
                                exists ch0, nth_error (ch :: choices) (index a - i) = Some ch0 /\
                                            made_from serialize ch0 a) rest).
    { intros rest Hr. destruct (IH (S i) rest Hr) as (Hs & Hf). split; [exact Hs|].
      eapply Forall_impl; [|exact Hf]. intros a (Hle & Hm & Ht & ch0 & Hn & Hd).
      repeat split; auto. exists ch0. split; [|exact Hd].
      replace (index a - i)%nat with (S (index a - S i)) by lia. exact Hn. }
    assert (Hweak : forall rest,
               keep_valid (mapi (normalize serialize) (S i) choices) = Return rest ->
               StronglySorted lt (map index rest) /\
               Forall (fun a => (i <= index a)%nat /\ model a <> [] /\
                                trim (content a) <> [] /\
                                exists ch0, nth_error (ch :: choices) (index a - i) = Some ch0 /\
                                            made_from serialize ch0 a) rest).
    { intros rest Hr. destruct (Hshift rest Hr) as (Hs & Hf). split; [exact Hs|].
      eapply Forall_impl; [|exact Hf]. intros a (Hle & Hrest). split; [lia | exact Hrest]. }
    destruct (normalize serialize i ch) as [[[ix m] c]|] eqn:En; [|now apply Hweak].
    destruct (normalize_inv _ _ _ _ _ En) as (-> & Hm & Hmodel & Hmsg & Hc).
    destruct c as [c|]; [|discriminate].
    destruct (keep_valid (mapi (normalize serialize) (S i) choices)) as [rest|] eqn:Er;
      [|discriminate].
    simpl in H. destruct (Hshift rest eq_refl) as (Hs & Hf).
    destruct (0 <? List.length (trim c))%nat eqn:Eb; injection H as <-;
      [|now apply Hweak].
    split.
    + simpl. constructor; [exact Hs|].
      apply Forall_forall. intros j Hj. apply in_map_iff in Hj.
      destruct Hj as (a & <- & Ha). rewrite Forall_forall in Hf.
      destruct (Hf a Ha) as (Hle & _). lia.
    + constructor.
      * simpl. split; [lia|]. split; [exact Hm|]. split.
        -- apply Nat.ltb_lt in Eb. intros E. rewrite E in Eb. simpl in Eb. lia.
        -- exists ch. rewrite Nat.sub_diag. split; [reflexivity|].
           unfold made_from. simpl. auto.
      * eapply Forall_impl; [|exact Hf]. intros a (Hle & Hrest). split; [lia | exact Hrest].
Qed.

(** X1. The valid answers keep the order of the choices: their indices
    increase strictly, and the choice at the index of an answer is the one
    the answer was made from - it carries the model id of the answer as
    a string, a usable message, and the content that gave the text.  The
    id of an answer is never empty and its text never blank. *)
Theorem valid_answers_keep_positions choices answers :
  valid_answers serialize choices = Return answers ->
  StronglySorted lt (map index answers) /\
  Forall (fun a => model a <> [] /\ trim (content a) <> [] /\
                   exists ch, nth_error choices (index a) = Some ch /\
                              made_from serialize ch a) answers.
Proof.
  intros H. destruct (keep_valid_positions choices 0 answers H) as (Hs & Hf).
  split; [exact Hs|].
  eapply Forall_impl; [|exact Hf]. intros a (_ & Hm & Ht & ch & Hn & Hd).
  rewrite Nat.sub_0_r in Hn. eauto.
Qed.

End Answers.

(** ** The requests to the judges *)

Section Requests.

Variable serialize : jsval -> jsstring.

Lemma sorted_indices_nodup (l : list nat) : StronglySorted lt l -> NoDup l.
Proof.
  induction 1 as [|x l Hs IH Hx]; constructor; [|assumption].
  intros Hin. rewrite Forall_forall in Hx. specialize (Hx x Hin). lia.
Qed.

Lemma nodup_map_injective {A B} (f : A -> B) : forall l x y,
  NoDup (map f l) -> In x l -> In y l -> f x = f y -> x = y.
Proof.
  induction l as [|z l IH]; intros x y Hnd Hx Hy E; [destruct Hx|].
  simpl in Hnd. inversion Hnd as [|? ? Hz Hl]; subst.
  destruct Hx as [->|Hx], Hy as [->|Hy]; auto.
  - exfalso. apply Hz. rewrite E. now apply in_map.
  - exfalso. apply Hz. rewrite <- E. now apply in_map.
Qed.

Lemma length_without_one : forall (l : list ModelAnswer) a,
  NoDup (map index l) -> In a l ->
  List.length (filter (fun b => negb (Nat.eqb (index b) (index a))) l)
  = (List.length l - 1)%nat.
Proof.
  induction l as [|x l IH]; intros a Hnd Ha; [destruct Ha|].
  simpl in Hnd. inversion Hnd as [|? ? Hx Hl]; subst. simpl.
  destruct Ha as [->|Ha].
  - rewrite Nat.eqb_refl. simpl. rewrite Nat.sub_0_r. f_equal.
    apply filter_all. intros b Hb.
    destruct (Nat.eqb_spec (index b) (index a)) as [E|]; [|reflexivity].
    exfalso. apply Hx. rewrite <- E. now apply in_map.
  - destruct (Nat.eqb_spec (index x) (index a)) as [E|_].
    + exfalso. apply Hx. rewrite E. now apply in_map.
    + simpl. rewrite (IH a Hl Ha). destruct l; [destruct Ha | simpl; lia].
Qed.

Lemma Forall2_map_r {A B} (P : A -> B -> Prop) (f : A -> B) : forall l,
  Forall (fun a => P a (f a)) l -> Forall2 P l (map f l).
Proof. induction 1; simpl; constructor; auto. Qed.

(** X2. The requests to the judges are sent in the order of the valid
    answers, one per answer, under the model of that answer and with the
    question.  The candidates shown to a judge are all the valid answers
    but its own. *)
Theorem judges_are_shown_the_others choices headers q answers net sched :
  q <> [] ->
  valid_answers serialize choices = Return answers ->
  (2 <= List.length answers)%nat ->
  Forall2 (fun a r =>
             req_model r = model a /\ req_question r = q /\ req_headers r = headers /\
             ~ In a (req_candidates r) /\
             (forall b, In b answers -> b <> a -> In b (req_candidates r)) /\
             List.length (req_candidates r) = (List.length answers - 1)%nat)
          answers
          (snd (runCrossEvaluation serialize choices headers (Some q) net sched)).
Proof.
  intros Hq Hv Hn.
  rewrite (run_proceeds serialize _ headers q _ net sched Hq Hv Hn). simpl.
  destruct (keep_valid_positions serialize choices 0 answers Hv) as (Hs & _).
  pose proof (sorted_indices_nodup _ Hs) as Hnd.
  unfold judge_requests. apply Forall2_map_r. apply Forall_forall.
  intros a Ha. simpl. repeat split.
  - intros Hin. apply filter_In in Hin. destruct Hin as [_ Hin].
    rewrite Nat.eqb_refl in Hin. discriminate.
  - intros b Hb Hne. apply filter_In. split; [exact Hb|].
    destruct (Nat.eqb_spec (index b) (index a)) as [E|]; [|reflexivity].
    exfalso. apply Hne. eapply nodup_map_injective; eauto.
  - now apply length_without_one.
Qed.

End Requests.

(** ** Scores, completion order and the index of the winner *)

Section Scores.

Import JsObject JsObjectFacts TallyFacts InitFacts WinnerFacts.

Variable serialize : jsval -> jsstring.

Lemma count_le_length {A} (p : A -> bool) (l : list A) : (count p l <= List.length l)%nat.
Proof. unfold count. apply filter_length_le. Qed.

Lemma count_perm {A} (p : A -> bool) (l l' : list A) :
  Permutation l l' -> count p l = count p l'.
Proof.
  intros P. unfold count. induction P; simpl.
  - reflexivity.
  - destruct (p x); simpl; congruence.
  - destruct (p x), (p y); reflexivity.
  - congruence.
Qed.

(** Each vote for a candidate key adds one to that key and to no other. *)
Lemma fold_count_vote_score K k : forall votes g n,
  tally_inv K g -> In k K -> own g k = Some (PNum n) ->
  own (fold_left count_vote votes g) k
  = Some (PNum (n + Z.of_nat (count (votes_for k) votes))).
Proof.
  induction votes as [|v votes IH]; intros g n Hinv Hk Ho; simpl.
  - unfold count. simpl. now rewrite Z.add_0_r.
  - rewrite count_cons.
    pose proof (tally_inv_step K g (votedModelId v) Hinv) as Hinv'.
    unfold count_vote at 2. unfold votes_for at 1.
    destruct (votedModelId v) as [m|] eqn:Ev.
    + destruct (eqb m k) eqn:E.
      * apply eqb_eq in E. subst m.
        assert (k <> []) by (intros ->; now apply (inv_nonempty _ _ Hinv)).
        assert (k <> proto_key) by (intros ->; now apply (inv_proto _ _ Hinv)).
        rewrite (IH _ (n + 1)%Z Hinv' Hk).
        -- f_equal. f_equal. lia.
        -- rewrite (tally_num g k n) by assumption. apply own_put_same.
      * apply eqb_neq in E.
        rewrite (IH _ n Hinv' Hk); [f_equal|].
        rewrite tally_other by congruence. exact Ho.
    + rewrite (IH _ n Hinv' Hk Ho). f_equal.
Qed.

Lemma init_own_zero answers k :
  In k (keys (init_scores answers)) -> own (init_scores answers) k = Some (PNum 0).
Proof.
  intros Hk. destruct (own (init_scores answers) k) as [p|] eqn:Ho.
  - pose proof (own_in _ _ _ Ho) as Hin. now rewrite (init_all_zero _ _ _ Hin).
  - apply own_notin in Ho. contradiction.
Qed.

Lemma round_score net sched answers k :
  Forall (fun a => model a <> []) answers ->
  In k (keys (init_scores answers)) ->
  own (scores (round net sched answers)) k
  = Some (PNum (Z.of_nat (count (votes_for k) (judges (round net sched answers))))).
Proof.
  intros Hne Hk. unfold round. simpl.
  rewrite (fold_count_vote_score (keys (init_scores answers)) k _ _ 0%Z);
    [reflexivity | now apply init_inv | assumption | now apply init_own_zero].
Qed.

Lemma round_judges_perm net sched answers :
  Permutation (judges (round net sched answers)) (map (vote_of net) answers).
Proof.
  unfold round. simpl. apply Permutation_map, ScheduleFacts.completion_order_perm.
Qed.

(** X3. In a round that proceeds, the score of a candidate whose id is
    not [__proto__] is the number of vote records that name it - whatever
    else the judges name - and so never exceeds the number of judges. *)
Theorem score_is_number_of_votes choices headers uq net sched answers ev k :
  valid_answers serialize choices = Return answers ->
  fst (runCrossEvaluation serialize choices headers uq net sched) = Return (Some ev) ->
  In k (map model answers) -> k <> proto_key ->
  own (scores ev) k
  = Some (PNum (Z.of_nat (count (votes_for k) (judges ev)))) /\
  (count (votes_for k) (judges ev) <= List.length answers)%nat.
Proof.
  intros Hv Hrun Hk Hp.
  destruct (run_inv _ _ _ _ _ _ _ Hrun) as (q & answers' & -> & Hq & Hv' & Hlen & ->).
  rewrite Hv in Hv'. injection Hv' as <-.
  split.
  - apply round_score; [now apply (valid_answers_models serialize choices)|].
    now apply init_keys_sup.
  - etransitivity; [apply count_le_length|].
    rewrite (Permutation_length (round_judges_perm net sched answers)).
    now rewrite length_map.
Qed.

Lemma entries_by_own (g : jsobject) : forall g1,
  (forall k p, In (k, p) g1 -> own g k = Some p) ->
  g1 = map (fun k => (k, value g k)) (keys g1).
Proof.
  induction g1 as [|[k p] g1 IH]; intros H; simpl; [reflexivity|].
  unfold value at 1. rewrite (H k p (or_introl eq_refl)). f_equal.
  apply IH. intros k' p' Hin. apply H. now right.
Qed.

Lemma tally_inv_entries K g :
  tally_inv K g ->
  exists extra,
    g = map (fun k => (k, value g k)) K ++ extra /\
    Forall (fun e => exists f j, snd e = PNative f j) extra.
Proof.
  intros [(X & HK & HX) Hnd Hnum _ _].
  destruct (map_eq_app _ _ _ _ HK) as (g1 & g2 & -> & H1 & H2).
  assert (Hown : forall k p, In (k, p) (g1 ++ g2) -> own (g1 ++ g2) k = Some p)
    by (intros; now apply in_own).
  exists g2. split.
  - f_equal. rewrite <- H1. apply entries_by_own.
    intros k p Hin. apply Hown. apply in_or_app. now left.
  - apply Forall_forall. intros [k p] Hin. simpl.
    assert (Hk : In k X) by (rewrite <- H2; now apply (in_map fst) in Hin).
    rewrite Forall_forall in HX. destruct (HX k Hk) as (_ & f & j & Hf).
    exists f, j. rewrite (Hown k p) in Hf by (apply in_or_app; now right). congruence.
Qed.

Lemma fold_better_text : forall extra acc,
  Forall (fun e => exists f j, snd e = PNative f j) extra ->
  fold_left better extra acc = acc.
Proof.
  induction extra as [|[k p] extra IH]; intros acc H; simpl; [reflexivity|].
  inversion H as [|? ? (f & j & Hp) H']; subst. simpl in Hp. subst p.
  now apply IH.
Qed.

(** The winner depends on the values of the candidate keys only. *)
Lemma pick_winner_by_values K g :
  tally_inv K g -> Forall (fun k => array_index k = None) K ->
  pick_winner g
  = fold_left better (map (fun k => (k, value g k)) K) (None, (-1)%Z).
Proof.
  intros Hinv Hplain. pose proof Hinv as [(X & HK & HX) _ _ _ _].
  rewrite pick_winner_fold, entries_plain.
  2:{ rewrite HK. apply Forall_app. split; [assumption|].
      rewrite Forall_forall in *. intros k Hk. apply method_not_index. now apply HX. }
  destruct (tally_inv_entries K g Hinv) as (extra & Hg & Hextra).
  rewrite Hg at 1. rewrite fold_left_app. now apply fold_better_text.
Qed.

Lemma plain_candidate_keys answers :
  Forall (fun a => plain_key (model a) = true) answers ->
  Forall (fun k => array_index k = None) (keys (init_scores answers)) /\
  (forall m, In m (map model answers) -> In m (keys (init_scores answers))).
Proof.
  intros Hplain. split.
  - apply Forall_forall. intros k Hk. apply init_keys_sub in Hk.
    apply in_map_iff in Hk. destruct Hk as (a & <- & Ha).
    rewrite Forall_forall in Hplain. now apply plain_key_spec, Hplain.
  - intros m Hm. apply init_keys_sup; [assumption|].
    apply in_map_iff in Hm. destruct Hm as (a & <- & Ha).
    rewrite Forall_forall in Hplain. now apply plain_key_spec, Hplain.
Qed.

(** X4. When the ids of the candidates are plain keys, as those of the
    handler are, the order in which the judges finish changes the order
    of the vote records and nothing else: the records are the same up to
    order, every candidate has the same score, and the winner and its
    index are the same. *)
Theorem result_ignores_completion_order choices headers uq net s1 s2 answers ev1 ev2 :
  valid_answers serialize choices = Return answers ->
  Forall (fun a => plain_key (model a) = true) answers ->
  fst (runCrossEvaluation serialize choices headers uq net s1) = Return (Some ev1) ->
  fst (runCrossEvaluation serialize choices headers uq net s2) = Return (Some ev2) ->
  Permutation (judges ev1) (judges ev2) /\
  (forall k, In k (map model answers) -> own (scores ev1) k = own (scores ev2) k) /\
  winnerModelId ev1 = winnerModelId ev2 /\
  winnerIndex ev1 = winnerIndex ev2.
Proof.
  intros Hv Hplain H1 H2.
  destruct (run_inv _ _ _ _ _ _ _ H1) as (q & a1 & -> & Hq & Hv1 & Hlen & ->).
  destruct (run_inv _ _ _ _ _ _ _ H2) as (q' & a2 & _ & _ & Hv2 & _ & ->).
  rewrite Hv in Hv1, Hv2. injection Hv1 as <-. injection Hv2 as <-.
  pose proof (valid_answers_models serialize _ _ Hv) as Hne.
  destruct (plain_candidate_keys answers Hplain) as (HKplain & HinK).
  assert (P : Permutation (judges (round net s1 answers)) (judges (round net s2 answers))).
  { eapply perm_trans; [apply round_judges_perm|].
    apply Permutation_sym, round_judges_perm. }
  assert (S : forall k, In k (keys (init_scores answers)) ->
                own (scores (round net s1 answers)) k
                = own (scores (round net s2 answers)) k).
  { intros k Hk. rewrite !round_score by assumption.
    now rewrite (count_perm _ _ _ P). }
  assert (W : fst (pick_winner (scores (round net s1 answers)))
              = fst (pick_winner (scores (round net s2 answers)))).
  { rewrite !(pick_winner_by_values (keys (init_scores answers)))
      by (try apply round_inv; assumption).
    f_equal. f_equal. apply map_ext_in. intros k Hk. unfold value. now rewrite (S k Hk). }
  split; [exact P|]. split; [intros k Hk; apply S, HinK, Hk|].
  unfold round in *. simpl in *. split; [exact W | now rewrite W].
Qed.

End Scores.

Section WinnerIndex.

Import JsObject JsObjectFacts TallyFacts InitFacts WinnerFacts.

Variable serialize : jsval -> jsstring.

Lemma find_first {A} (f : A -> bool) : forall l x,
  In x l -> f x = true ->
  exists a l1 l2, find f l = Some a /\ l = l1 ++ a :: l2 /\ f a = true /\
                  forall b, In b l1 -> f b = false.
Proof.
  induction l as [|y l IH]; intros x Hx Hf; [destruct Hx|]. simpl.
  destruct (f y) eqn:Ey.
  - exists y, [], l. repeat split; auto. intros b [].
  - destruct Hx as [->|Hx]; [congruence|].
    destruct (IH x Hx Hf) as (a & l1 & l2 & Hfind & -> & Ha & Hl1).
    exists a, (y :: l1), l2. repeat split; auto.
    intros b [<-|Hb]; auto.
Qed.

Lemma sorted_after (l1 : list ModelAnswer) a l2 :
  StronglySorted lt (map index (l1 ++ a :: l2)) ->
  Forall (fun b => (index a < index b)%nat) l2.
Proof.
  induction l1 as [|x l1 IH]; simpl; intros H; inversion H as [|? ? Hs Hx]; subst.
  - apply Forall_forall. intros b Hb. rewrite Forall_forall in Hx.
    apply Hx. now apply in_map.
  - now apply IH.
Qed.

(** X5. In a round that proceeds over candidates whose ids are plain
    keys, [winnerIndex] is never null: it is the index of the first valid
    answer of the winning model, and the choice at that position of the
    input carries the id of the winner. *)
Theorem winner_index_points_at_winner choices headers uq net sched answers ev :
  valid_answers serialize choices = Return answers ->
  Forall (fun a => plain_key (model a) = true) answers ->
  fst (runCrossEvaluation serialize choices headers uq net sched) = Return (Some ev) ->
  exists a ch,
    In a answers /\
    winnerModelId ev = Some (model a) /\
    winnerIndex ev = Some (index a) /\
    nth_error choices (index a) = Some ch /\
    Js.opt_get ch (lit "model") = JStr (model a) /\
    (forall b, In b answers -> model b = model a -> (index a <= index b)%nat).
Proof.
  intros Hv Hplain Hrun.
  destruct (run_inv _ _ _ _ _ _ _ Hrun) as (q & answers' & -> & Hq & Hv' & Hlen & ->).
  rewrite Hv in Hv'. injection Hv' as <-.
  pose proof (valid_answers_models serialize _ _ Hv) as Hne.
  destruct (plain_candidate_keys answers Hplain) as (HKplain & HinK).
  destruct (keep_valid_positions serialize choices 0 answers Hv) as (Hsorted & Hpos).
  assert (HK : keys (init_scores answers) <> []).
  { destruct answers as [|a0 rest]; [simpl in Hlen; lia|].
    intros E. specialize (HinK (model a0) (or_introl eq_refl)).
    rewrite E in HinK. destruct HinK. }
  destruct (pick_winner_inv _ _ (round_inv net sched answers Hne) HK HKplain)
    as (_ & w & _ & _ & _ & Hw & HwK & _).
  apply init_keys_sub in HwK. apply in_map_iff in HwK. destruct HwK as (x & Hx & Hxin).
  destruct (find_first (fun a => eqb (model a) w) answers x Hxin)
    as (a & l1 & l2 & Hfind & Hsplit & Ha & Hl1).
  { rewrite Hx. apply eqb_refl. }
  apply eqb_eq in Ha.
  assert (Hain : In a answers) by (rewrite Hsplit; apply in_or_app; right; now left).
  rewrite Forall_forall in Hpos.
  destruct (Hpos a Hain) as (_ & _ & _ & ch & Hnth & Hmade & _).
  rewrite Nat.sub_0_r in Hnth.
  exists a, ch. unfold round; simpl. fold (round net sched answers).
  unfold round in Hw; simpl in Hw. rewrite Hw. simpl. rewrite Hfind. simpl.
  repeat split; auto; try congruence.
  intros b Hb Hmb. rewrite Hsplit in Hb, Hsorted.
  apply in_app_or in Hb. destruct Hb as [Hb|[<-|Hb]].
  - exfalso. specialize (Hl1 b Hb). simpl in Hl1.
    apply eqb_neq in Hl1. congruence.
  - lia.
  - pose proof (sorted_after _ _ _ Hsorted) as Hafter.
    rewrite Forall_forall in Hafter. specialize (Hafter b Hb). lia.
Qed.

End WinnerIndex.

(** ** Judges that fail and fences without an object *)

Section JudgeEdges.

Import JsObject StringFacts JudgeFacts.

Lemma slice_empty (s : jsstring) from to :
  (0 <= from)%Z -> (0 <= to <= from)%Z -> slice s from to = [].
Proof.
  intros Hf Ht. unfold slice, clamp.
  destruct (Z.ltb_spec from 0); [lia|]. destruct (Z.ltb_spec to 0); [lia|].
  replace (Z.to_nat (Z.min to (Z.of_nat (List.length s))
                     - Z.min from (Z.of_nat (List.length s)))) with 0%nat by lia.
  reflexivity.
Qed.

Lemma startsWith_fence t :
  startsWith t fence = true -> exists rest, t = 96%N :: rest.
Proof.
  destruct t as [|x t]; [discriminate|]. intros H. exists t.
  change fence with [96%N; 96%N; 96%N] in H. cbn [startsWith] in H.
  apply andb_true_iff in H. destruct H as [H _]. apply N.eqb_eq in H. now subst.
Qed.

(** X6. An answer that opens with a fence but has no opening brace, or
    whose last closing brace comes before the first opening brace, is
    never read as a vote: what is handed to the parser is rejected and
    the judge leaves the null vote. *)
Theorem fence_without_object_is_null net g js judge c :
  judge_content (net (index judge)) = Return (Some c) ->
  startsWith (trim c) fence = true ->
  indexOf (trim c) (Json.chr "{") = (-1)%Z \/
  (lastIndexOf (trim c) (Json.chr "}") < indexOf (trim c) (Json.chr "{"))%Z ->
  Json.parse (judge_text c) = None /\
  judge_finish net (g, js) judge = (g, js ++ [null_vote judge]).
Proof.
  intros Hc Hs Hb.
  assert (Hp : Json.parse (judge_text c) = None).
  { destruct (startsWith_fence _ Hs) as (rest & Ht).
    pose proof (indexOf_lower (trim c) (Json.chr "{")) as Hlo.
    pose proof (lastIndexOf_lower (trim c) (Json.chr "}")) as Hlo'.
    unfold judge_text. rewrite Hs. cbv zeta.
    match goal with
    | |- context [if ?b then _ else _] => destruct b eqn:Eb
    end.
    - apply andb_true_iff in Eb. destruct Eb as [E E'].
      apply negb_true_iff, Z.eqb_neq in E. apply negb_true_iff, Z.eqb_neq in E'.
      rewrite slice_empty; [reflexivity | lia | lia].
    - rewrite Ht. now apply parse_rejects_first. }
  split; [exact Hp|].
  apply (judge_finish_unparsed net g js judge c Hc), read_vote_unparsed, Hp.
Qed.

(** X7. A judge whose request is rejected, or answered with a status
    outside 200-299, or whose response body cannot be read or is no JSON,
    or whose first choice has no string content, leaves the null vote
    and does not touch the tally. *)
Theorem failed_judge_leaves_null_vote net g js judge :
  net (index judge) = Rejected \/
  (exists r, net (index judge) = Responded r /\
     (ok r = false \/ body r = None \/
      (exists t, body r = Some t /\ Json.parse t = None) \/
      (exists t data, body r = Some t /\ Json.parse t = Some data /\
         forall c, Js.opt_get (Js.opt_get (Js.opt_first (Js.opt_get data (lit "choices")))
                                          (lit "message")) (lit "content") <> JStr c))) ->
  judge_finish net (g, js) judge = (g, js ++ [null_vote judge]).
Proof.
  intros H. apply judge_finish_failed. intros c.
  unfold judge_content, res_json.
  destruct H as [-> | (r & -> & [Hok | [Hb | [(t & Hb & Hp) | (t & data & Hb & Hp & Hn)]]])];
    simpl.
  - discriminate.
  - rewrite Hok. discriminate.
  - destruct (ok r); simpl; [rewrite Hb|]; discriminate.
  - destruct (ok r); simpl; [rewrite Hb, Hp|]; discriminate.
  - destruct (ok r); simpl; [rewrite Hb, Hp; simpl | discriminate].
    destruct (Js.opt_get _ (lit "content")) eqn:E; try discriminate.
    now destruct (Hn s).
Qed.

End JudgeEdges.

(** ** The response of the handler *)

Section Response.

Variable serialize : jsval -> jsstring.

Lemma filter_split_perm {A} (p : A -> bool) (l : list A) :
  Permutation (filter p l ++ filter (fun x => negb (p x)) l) l.
Proof.
  induction l as [|x l IH]; simpl; [constructor|].
  destruct (p x); simpl.
  - now constructor.
  - eapply perm_trans; [apply Permutation_sym, Permutation_middle|]. now constructor.
Qed.

Lemma status_of_facts mr :
  fst (status_of mr) = modelId (fst mr) /\
  st_status (snd (status_of mr)) = status (snd mr) /\
  st_ok (snd (status_of mr)) = ok (snd mr) /\
  (ok (snd mr) = true -> st_body (snd (status_of mr)) = None) /\
  st_body (snd (status_of mr)) <> Some [].
Proof.
  unfold status_of. simpl. destruct (ok (snd mr)); simpl.
  - repeat split; auto. discriminate.
  - repeat split; auto; [discriminate|].
    destruct (res_text (snd mr)) as [[|c t]|]; discriminate.
Qed.

Lemma model_statuses_keys sched responses :
  Permutation (map fst (model_statuses sched responses))
              (map (fun mr => modelId (fst mr)) responses).
Proof.
  unfold model_statuses. rewrite <- map_app, map_map.
  erewrite (map_ext (fun x => fst (status_of x)));
    [|intros mr; apply (proj1 (status_of_facts mr))].
  apply Permutation_map.
  eapply perm_trans;
    [apply Permutation_app_head, ScheduleFacts.completion_order_perm|].
  apply filter_split_perm.
Qed.

(** X8. The status map has exactly one entry per response, whatever
    the order in which the failed bodies are read.  An entry carries the
    status received, is marked ok exactly when the status is in 200-299,
    has no body when it is ok and never an empty body; the entries of the
    successful calls come first. *)
Theorem statuses_reflect_responses sched responses :
  Permutation (map fst (model_statuses sched responses))
              (map (fun mr => modelId (fst mr)) responses) /\
  Forall (fun d => exists mr,
              In mr responses /\ fst d = modelId (fst mr) /\
              st_status (snd d) = status (snd mr) /\
              (st_ok (snd d) = true <->
               (200 <= st_status (snd d) <= 299)%Z) /\
              (st_ok (snd d) = true -> st_body (snd d) = None) /\
              st_body (snd d) <> Some [])
         (model_statuses sched responses) /\
  exists done failed,
    model_statuses sched responses = done ++ failed /\
    Forall (fun d => st_ok (snd d) = true) done /\
    Forall (fun d => st_ok (snd d) = false) failed.
Proof.
  unfold model_statuses.
  set (good := filter (fun mr => ok (snd mr)) responses).
  set (bad := filter (fun mr => negb (ok (snd mr))) responses).
  pose proof (ScheduleFacts.completion_order_perm sched bad) as Pbad.
  assert (Pall : Permutation (good ++ Schedule.completion_order sched bad) responses).
  { eapply perm_trans; [apply Permutation_app_head, Pbad|]. apply filter_split_perm. }
  split; [|split].
  - rewrite map_app, !map_map.
    erewrite (map_ext (fun x => fst (status_of x)));
      [|intros mr; apply (proj1 (status_of_facts mr))].
    rewrite <- map_app. now apply Permutation_map.
  - rewrite <- map_app. apply Forall_forall. intros d Hd. apply in_map_iff in Hd.
    destruct Hd as (mr & <- & Hin).
    destruct (status_of_facts mr) as (H1 & H2 & H3 & H4 & H5).
    exists mr. split; [eapply Permutation_in; eauto|].
    split; [exact H1|]. split; [exact H2|]. split; [|split; [|exact H5]].
    + rewrite H3, H2. unfold ok. rewrite andb_true_iff, !Z.leb_le. tauto.
    + rewrite H3. exact H4.
  - exists (map status_of good), (map status_of (Schedule.completion_order sched bad)).
    split; [reflexivity|]. split; apply Forall_forall; intros d Hd;
      apply in_map_iff in Hd; destruct Hd as (mr & <- & Hin);
      rewrite (proj1 (proj2 (proj2 (status_of_facts mr)))).
    + apply filter_In in Hin. tauto.
    + apply (Permutation_in _ Pbad), filter_In in Hin.
      destruct Hin as [_ Hin]. now apply negb_true_iff in Hin.
Qed.

End Response.

(** ** What the handler sends and answers *)

Section Traffic.

Variable serialize : jsval -> jsstring.

Lemma pstep_done ps t v : Json.pstep ps t = Some (Json.PDone v) -> v <> JUndefined.
Proof.
  assert (R : forall w st, w <> JUndefined ->
                Json.reduce w st = Json.PDone v -> v <> JUndefined).
  { intros w [|[acc|acc k] st] Hw; simpl; try discriminate. now intros [= <-]. }
  assert (V : forall st, Json.value_token t st = Some (Json.PDone v) -> v <> JUndefined).
  { intros st. destruct t; simpl; try discriminate;
      intros [= H]; revert H; apply R; discriminate. }
  destruct ps; simpl; try discriminate.
  - apply V.
  - destruct t; try apply V; try discriminate.
    intros [= H]; revert H; apply R; discriminate.
  - destruct t; try discriminate. intros [= H]; revert H; apply R; discriminate.
  - destruct t; try discriminate. intros [= H]; revert H; apply R; discriminate.
  - destruct t; discriminate.
  - destruct t; discriminate.
  - destruct t; try discriminate. intros [= H]; revert H; apply R; discriminate.
Qed.

Lemma prun_defined : forall ts ps v,
  (forall w, ps = Json.PDone w -> w <> JUndefined) ->
  Json.prun ps ts = Some v -> v <> JUndefined.
Proof.
  induction ts as [|t ts IH]; intros ps v Hps; simpl.
  - destruct ps; try discriminate. intros [= <-]. now apply Hps.
  - destruct (Json.pstep ps t) as [ps'|] eqn:E; [|discriminate].
    apply IH. intros w ->. eapply pstep_done; eauto.
Qed.

(** [JSON.parse] never yields [undefined]. *)
Lemma parse_defined text v : Json.parse text = Some v -> v <> JUndefined.
Proof.
  unfold Json.parse. destruct (Json.lex Json.LIdle text) as [ts|]; [|discriminate].
  apply prun_defined. discriminate.
Qed.

Lemma attempt_status headers body messages bnet jnet s1 s2 r :
  fst (attempt serialize headers body messages bnet jnet s1 s2) = Return r ->
  In (http_status r) [200; 400; 502]%Z.
Proof.
  unfold attempt.
  destruct (List.length (modelsToCall body) =? 0)%nat;
    [intros [= <-]; simpl; tauto|].
  destruct (all_fetched bnet (modelsToCall body)) as [responses|]; [|discriminate].
  destruct (List.length (filter _ responses) =? 0)%nat;
    [intros [= <-]; simpl; tauto|].
  destruct (collect _) as [[rawByLabel choices]|]; [|discriminate].
  destruct (userQuestion messages) as [question|]; [|discriminate].
  destruct (runCrossEvaluation serialize choices headers question jnet s2) as [ev reqs].
  destruct ev as [evaluation|]; [|discriminate].
  intros [= <-]; simpl; tauto.
Qed.

(** X9. Whatever the request, the environment and the network do, the
    handler answers with one of the statuses 200, 400, 500 and 502 and no
    exception leaves it - unless the body is the JSON value [null]. *)
Theorem handler_always_answers e req bnet jnet s1 s2 :
  Json.parse req <> Some JNull ->
  exists r, fst (POST serialize e req bnet jnet s1 s2) = Return r /\
            In (http_status r) [200; 400; 500; 502]%Z.
Proof.
  intros Hnull. unfold POST.
  destruct (present (OPENROUTER_API_KEY e)) as [key|];
    [|eexists; split; [reflexivity | simpl; tauto]].
  destruct (Json.parse req) as [body|] eqn:Ep;
    [|eexists; split; [reflexivity | simpl; tauto]].
  pose proof (parse_defined _ _ Ep) as Hdef.
  destruct (Js.get body (lit "messages")) as [v|err] eqn:Eg.
  - destruct v; try (eexists; split; [reflexivity | simpl; tauto]).
    destruct (attempt serialize (baseHeaders key e) body items bnet jnet s1 s2)
      as [res trace] eqn:Ea.
    destruct res as [r|err].
    + exists r. split; [reflexivity|].
      pose proof (attempt_status (baseHeaders key e) body items bnet jnet s1 s2 r) as Hs.
      rewrite Ea in Hs. specialize (Hs eq_refl). simpl in *. tauto.
    + eexists; split; [reflexivity | simpl; tauto].
  - exfalso. destruct body; try discriminate; congruence.
Qed.

End Traffic.

Section Success.

Variable serialize : jsval -> jsstring.

Lemma all_fetched_paired net : forall ms responses,
  all_fetched net ms = Return responses ->
  map fst responses = ms /\
  Forall (fun mr => net (modelId (fst mr)) = Responded (snd mr)) responses.
Proof.
  induction ms as [|m ms IH]; intros responses H; simpl in H.
  - injection H as <-. split; constructor.
  - destruct (net (modelId m)) as [|r] eqn:E; [discriminate|]. simpl in H.
    destruct (all_fetched net ms) as [rest|]; [|discriminate]. simpl in H.
    injection H as <-. destruct (IH rest eq_refl) as (H1 & H2).
    split; [simpl; now rewrite H1 | constructor; assumption].
Qed.

Lemma collect_spec : forall successful raws choices,
  collect successful = Return (raws, choices) ->
  map (fun ch => Js.opt_get ch (lit "model")) choices
  = map (fun mr => JStr (modelId (fst mr)))
        (filter (fun mr => has_message (snd mr)) successful) /\
  Forall (fun ch => Js.truthy (Js.opt_get ch (lit "message")) = true) choices /\
  map fst raws = map (fun mr => label (fst mr)) successful.
Proof.
  induction successful as [|[m res] rest IH]; intros raws choices H; simpl in H.
  - injection H as <- <-. repeat split; constructor.
  - unfold has_message at 1. simpl.
    destruct (res_json res) as [data|]; [|discriminate]. simpl in H.
    destruct (collect rest) as [[raws' choices']|]; [|discriminate]. simpl in H.
    destruct (IH _ _ eq_refl) as (H1 & H2 & H3).
    destruct (Js.truthy _) eqn:Et; injection H as <- <-; simpl.
    + split; [|split].
      * f_equal. exact H1.
      * constructor; [exact Et | exact H2].
      * f_equal. exact H3.
    + split; [exact H1 | split; [exact H2 | f_equal; exact H3]].
Qed.

Lemma filter_filter {A} (p q : A -> bool) (l : list A) :
  filter p (filter q l) = filter (fun x => q x && p x) l.
Proof.
  induction l as [|x l IH]; simpl; [reflexivity|].
  destruct (q x); simpl; [destruct (p x)|]; now rewrite ?IH.
Qed.

Lemma filter_answered net : forall responses,
  Forall (fun mr => net (modelId (fst mr)) = Responded (snd mr)) responses ->
  map fst (filter (fun mr => ok (snd mr) && has_message (snd mr)) responses)
  = filter (answered net) (map fst responses).
Proof.
  induction 1 as [|mr responses Hmr _ IH]; simpl; [reflexivity|].
  unfold answered at 1. rewrite Hmr.
  destruct (ok (snd mr) && has_message (snd mr)); simpl; now rewrite IH.
Qed.

Lemma modelsToCall_registry body m : In m (modelsToCall body) -> In m allModels.
Proof.
  unfold modelsToCall. destruct (activeModelIds body); [|tauto].
  intros H. now apply filter_In in H.
Qed.

(** What is behind a response of status 200. *)
Lemma post_success_inv e req bnet jnet s1 s2 key body choices raws evaluation sts :
  present (OPENROUTER_API_KEY e) = Some key ->
  Json.parse req = Some body ->
  fst (POST serialize e req bnet jnet s1 s2)
  = Return {| http_status := 200; http_body := Answers choices raws evaluation sts |} ->
  exists messages responses rawByLabel,
    Js.get body (lit "messages") = Return (JArr messages) /\
    all_fetched bnet (modelsToCall body) = Return responses /\
    collect (filter (fun mr => ok (snd mr)) responses) = Return (rawByLabel, choices) /\
    sts = model_statuses s1 responses /\
    raws = map (fun m => (label m, raw_of rawByLabel (label m))) allModels /\
    fst (runCrossEvaluation serialize choices (baseHeaders key e)
                            (spec_question messages) jnet s2) = Return evaluation.
Proof.
  intros Hk Hp. unfold POST. rewrite Hk, Hp.
  destruct (Js.get body (lit "messages")) as [v|]; [|discriminate].
  destruct v; try discriminate.
  unfold attempt.
  destruct (List.length (modelsToCall body) =? 0)%nat; [discriminate|].
  destruct (all_fetched bnet (modelsToCall body)) as [responses|]; [|discriminate].
  destruct (List.length (filter _ responses) =? 0)%nat; [discriminate|].
  destruct (collect _) as [[rawByLabel choices']|] eqn:Ec; [|discriminate].
  destruct (userQuestion items) as [question|] eqn:Eq; [|discriminate].
  apply userQuestion_spec in Eq. subst question.
  destruct (runCrossEvaluation serialize choices' (baseHeaders key e)
                               (spec_question items) jnet s2) as [ev reqs] eqn:Er.
  destruct ev as [evaluation'|]; [|discriminate].
  simpl. intros [= <- <- <- <-].
  exists items, responses, rawByLabel. rewrite Er. repeat split; auto.
Qed.

(** X10. In a response of status 200 the status map has one entry per
    selected backend, the raw payloads are listed under the six labels of
    the registry, and the choices are, in the order of the registry, those
    of the selected backends that answered with a success status and a
    usable message: one choice each, under the id of the backend. *)
Theorem success_response_shape e req bnet jnet s1 s2 key body choices raws evaluation sts :
  present (OPENROUTER_API_KEY e) = Some key ->
  Json.parse req = Some body ->
  fst (POST serialize e req bnet jnet s1 s2)
  = Return {| http_status := 200; http_body := Answers choices raws evaluation sts |} ->
  Permutation (map fst sts) (map modelId (modelsToCall body)) /\
  map fst raws = map label allModels /\
  map (fun ch => Js.opt_get ch (lit "model")) choices
  = map (fun m => JStr (modelId m)) (filter (answered bnet) (modelsToCall body)) /\
  Forall (fun ch => Js.truthy (Js.opt_get ch (lit "message")) = true) choices.
Proof.
  intros Hk Hp H.
  destruct (post_success_inv _ _ _ _ _ _ _ _ _ _ _ _ Hk Hp H)
    as (messages & responses & rawByLabel & _ & Hf & Hc & -> & -> & _).
  destruct (all_fetched_paired _ _ _ Hf) as (Hfst & Hpair).
  destruct (collect_spec _ _ _ Hc) as (Hm & Ht & _).
  split; [|split; [|split]].
  - rewrite <- Hfst, map_map. apply model_statuses_keys.
  - rewrite map_map. reflexivity.
  - rewrite Hm, filter_filter, <- Hfst, <- (filter_answered bnet responses Hpair).
    now rewrite map_map.
  - exact Ht.
Qed.

End Success.

Section Trace.

Variable serialize : jsval -> jsstring.

Lemma run_trace choices headers uq net sched :
  snd (runCrossEvaluation serialize choices headers uq net sched) = [] \/
  exists q answers,
    valid_answers serialize choices = Return answers /\
    snd (runCrossEvaluation serialize choices headers uq net sched)
    = judge_requests headers q answers.
Proof.
  unfold runCrossEvaluation.
  destruct uq as [q|]; [|now left].
  destruct (negb (Js.truthy (JStr q)) || (List.length choices <? 2)%nat); [now left|].
  destruct (valid_answers serialize choices) as [answers|]; [|now left].
  destruct (List.length answers <? 2)%nat; [now left|].
  right. exists q, answers. split; [reflexivity|].
  now destruct (fold_left _ _ _).
Qed.

Lemma nodup_map_filter {A B} (f : A -> B) (p : A -> bool) : forall l,
  NoDup (map f l) -> NoDup (map f (filter p l)).
Proof.
  induction l as [|x l IH]; simpl; intros H; [constructor|].
  inversion H as [|? ? Hx Hl]; subst.
  destruct (p x); simpl; [|auto]. constructor; [|auto].
  intros Hin. apply Hx. apply in_map_iff in Hin. destruct Hin as (y & Hy & Hin).
  apply filter_In in Hin. rewrite <- Hy. apply in_map. tauto.
Qed.

Lemma registry_ids_distinct : NoDup (map modelId allModels).
Proof.
  repeat (constructor; [simpl; intuition discriminate|]). constructor.
Qed.

Lemma modelsToCall_distinct body : NoDup (map modelId (modelsToCall body)).
Proof.
  unfold modelsToCall. destruct (activeModelIds body).
  - apply nodup_map_filter, registry_ids_distinct.
  - apply registry_ids_distinct.
Qed.

(** The judges of a round the handler starts are backends that
    answered. *)
Lemma judges_answered bnet body responses rawByLabel choices answers :
  all_fetched bnet (modelsToCall body) = Return responses ->
  collect (filter (fun mr => ok (snd mr)) responses) = Return (rawByLabel, choices) ->
  valid_answers serialize choices = Return answers ->
  Forall (fun a => exists m, In m (modelsToCall body) /\ answered bnet m = true /\
                             model a = modelId m) answers.
Proof.
  intros Hf Hc Hv.
  destruct (all_fetched_paired _ _ _ Hf) as (Hfst & Hpair).
  destruct (collect_spec _ _ _ Hc) as (Hm & _ & _).
  rewrite filter_filter in Hm.
  destruct (keep_valid_positions serialize choices 0 answers Hv) as (_ & Hpos).
  eapply Forall_impl; [|exact Hpos].
  intros a (_ & _ & _ & ch & Hn & Hmade & _).
  apply nth_error_In in Hn.
  apply (in_map (fun ch => Js.opt_get ch (lit "model"))) in Hn.
  rewrite Hmade, Hm in Hn. apply in_map_iff in Hn.
  destruct Hn as (mr & E & Hin). injection E as E.
  apply (in_map fst) in Hin. rewrite (filter_answered bnet responses Hpair), Hfst in Hin.
  apply filter_In in Hin. destruct Hin as [Hin Hans].
  exists (fst mr). split; [exact Hin | split; [exact Hans | now symmetry]].
Qed.

Lemma attempt_trace headers body messages bnet jnet s1 s2 :
  exists reqs,
    snd (attempt serialize headers body messages bnet jnet s1 s2)
    = map (fun m => BackendCall (makePayload headers body (JArr messages) m))
          (modelsToCall body)
      ++ map JudgeCall reqs /\
    Forall (fun r => req_headers r = headers /\
                     exists m, In m (modelsToCall body) /\ answered bnet m = true /\
                               req_model r = modelId m) reqs.
Proof.
  unfold attempt.
  destruct (modelsToCall body) as [|m0 ms] eqn:Em;
    [exists []; split; [reflexivity | constructor]|].
  rewrite <- Em. replace (List.length (modelsToCall body) =? 0)%nat with false
    by (rewrite Em; reflexivity).
  destruct (all_fetched bnet (modelsToCall body)) as [responses|] eqn:Ef;
    [|exists []; split; [simpl; now rewrite app_nil_r | constructor]].
  destruct (List.length (filter _ responses) =? 0)%nat;
    [exists []; split; [simpl; now rewrite app_nil_r | constructor]|].
  destruct (collect _) as [[rawByLabel choices]|] eqn:Ec;
    [|exists []; split; [simpl; now rewrite app_nil_r | constructor]].
  destruct (userQuestion messages) as [question|];
    [|exists []; split; [simpl; now rewrite app_nil_r | constructor]].
  destruct (runCrossEvaluation serialize choices headers question jnet s2)
    as [ev reqs] eqn:Er.
  exists reqs. split; [reflexivity|].
  destruct (run_trace choices headers question jnet s2) as [H | (q & answers & Hv & H)];
    rewrite Er in H; simpl in H; subst reqs; [constructor|].
  unfold judge_requests. apply Forall_forall. intros r Hr.
  apply in_map_iff in Hr. destruct Hr as (a & <- & Ha). simpl.
  split; [reflexivity|].
  pose proof (judges_answered bnet body responses rawByLabel choices answers Ef Ec Hv) as J.
  rewrite Forall_forall in J. exact (J a Ha).
Qed.

(** X11. Once the request is accepted, the handler sends one request to
    every selected backend, in the order of the registry and never two
    to the same backend, and only then the requests to the judges.  Every
    judge is a selected backend that answered, and all requests carry the
    same headers, which begin with the credential. *)
Theorem requests_of_the_handler e req bnet jnet s1 s2 key body messages :
  present (OPENROUTER_API_KEY e) = Some key ->
  Json.parse req = Some body ->
  Js.get body (lit "messages") = Return (JArr messages) ->
  exists reqs,
    snd (POST serialize e req bnet jnet s1 s2)
    = map (fun m => BackendCall (makePayload (baseHeaders key e) body (JArr messages) m))
          (modelsToCall body)
      ++ map JudgeCall reqs /\
    NoDup (map modelId (modelsToCall body)) /\
    Forall (fun r => req_headers r = baseHeaders key e /\
                     exists m, In m (modelsToCall body) /\ answered bnet m = true /\
                               req_model r = modelId m) reqs /\
    hd_error (baseHeaders key e) = Some (lit "Authorization", lit "Bearer " ++ key).
Proof.
  intros Hk Hp Hg.
  destruct (attempt_trace (baseHeaders key e) body messages bnet jnet s1 s2)
    as (reqs & Ht & Hr).
  exists reqs. unfold POST. rewrite Hk, Hp, Hg.
  destruct (attempt serialize (baseHeaders key e) body messages bnet jnet s1 s2)
    as [res trace]. simpl in *.
  repeat split; auto. apply modelsToCall_distinct.
Qed.

End Trace.

(** ** The page and the handler together *)

Section PageAndHandler.

(** The server-side selection for the ids the page sends, for any way
    of enabling columns. *)
Lemma selection_round_trip (en : jsstring -> bool) :
  filter (fun m => existsb (eqb (modelId m))
                     (map Page.modelId
                          (filter (fun c => en (Page.key c)) Page.MODEL_COLUMNS)))
         allModels
  = filter (fun m => en (label m)) allModels.
Proof.
  unfold Page.MODEL_COLUMNS, allModels. cbn [filter Page.key label].
  repeat match goal with
         | |- context [en ?k] => destruct (en k)
         end; reflexivity.
Qed.

Lemma page_ids_nonempty (en : jsstring -> bool) :
  flat_map (fun m => match m with
                     | JStr (c :: s) => [c :: s]
                     | _ => []
                     end)
           (map JStr (map Page.modelId
                          (filter (fun c => en (Page.key c)) Page.MODEL_COLUMNS)))
  = map Page.modelId (filter (fun c => en (Page.key c)) Page.MODEL_COLUMNS).
Proof.
  unfold Page.MODEL_COLUMNS. cbn [filter Page.key].
  repeat match goal with
         | |- context [en ?k] => destruct (en k)
         end; reflexivity.
Qed.

Lemma handleSubmit_sent input loading e q ids :
  Page.handleSubmit input loading e = Page.Sent q ids ->
  q = trim input /\ q <> [] /\ loading = false /\
  ids = Page.activeModelIds e /\ ids <> [].
Proof.
  unfold Page.handleSubmit.
  destruct (trim input) as [|c t] eqn:Et; [discriminate|]. simpl.
  destruct loading; [discriminate|].
  destruct (Page.activeModelIds e) as [|i rest]; [discriminate|].
  intros [= <- <-]. repeat split; discriminate.
Qed.

(** X12. When the page sends a request, the handler calls exactly the
    backends of the columns that are enabled on the page, in the same
    order, and at least one: the selection is never answered with "No
    models selected to call". *)
Theorem page_selection_is_honoured input loading e q ids body :
  Page.handleSubmit input loading e = Page.Sent q ids ->
  carries body q ids ->
  modelsToCall body = filter (fun m => Page.enabled e (label m)) allModels /\
  map modelId (modelsToCall body) = ids /\
  modelsToCall body <> [].
Proof.
  intros Hs (_ & Hact).
  destruct (handleSubmit_sent _ _ _ _ _ Hs) as (_ & _ & _ & -> & Hne).
  assert (Hm : modelsToCall body
               = filter (fun m => Page.enabled e (label m)) allModels).
  { unfold modelsToCall, activeModelIds. rewrite Hact.
    unfold Page.activeModelIds.
    rewrite (page_ids_nonempty (Page.enabled e)).
    apply (selection_round_trip (Page.enabled e)). }
  assert (Hids : map modelId (filter (fun m => Page.enabled e (label m)) allModels)
                 = Page.activeModelIds e).
  { unfold Page.activeModelIds, Page.MODEL_COLUMNS, allModels.
    cbn [filter Page.key label].
    repeat match goal with
           | |- context [Page.enabled e ?k] => destruct (Page.enabled e k)
           end; reflexivity. }
  rewrite Hm. split; [reflexivity|]. split; [exact Hids|].
  intros E. rewrite E in Hids. simpl in Hids. congruence.
Qed.

(** X13. When the page sends a request, the question the handler
    extracts for the judges is the text the user typed, trimmed, and it
    is not empty: the evaluation is never skipped for want of a
    question. *)
Theorem page_question_reaches_the_judges input loading e q ids body :
  Page.handleSubmit input loading e = Page.Sent q ids ->
  carries body q ids ->
  exists messages,
    Js.get body (lit "messages") = Return (JArr messages) /\
    userQuestion messages = Return (Some q) /\
    q = trim input /\ q <> [].
Proof.
  intros Hs ((history & Hmsg) & _).
  destruct (handleSubmit_sent _ _ _ _ _ Hs) as (Hq & Hne & _).
  exists (history ++ [Page.api_message (Page.newUserMessage q)]).
  split; [|split; [|split; assumption]].
  - destruct body; try discriminate Hmsg.
    unfold Js.opt_get in Hmsg. simpl in *. now rewrite Hmsg.
  - unfold userQuestion. rewrite rev_app_distr. reflexivity.
Qed.

End PageAndHandler.

(** ** The columns of the page *)

Section Columns.

Import Page.

Lemma push_keys cols k m : map fst (push cols k m) = map fst cols.
Proof.
  unfold push. rewrite map_map. apply map_ext. intros [k' l]. simpl.
  now destruct (eqb k' k).
Qed.

Lemma push_column : forall cols k m k',
  In k' (map fst cols) ->
  column_of (push cols k m) k'
  = if eqb k' k then column_of cols k' ++ [m] else column_of cols k'.
Proof.
  unfold column_of.
  induction cols as [|[k0 l] cols IH]; intros k m k' Hin; [destruct Hin|]. simpl.
  destruct (eqb k0 k) eqn:E0; simpl; destruct (eqb k0 k') eqn:E1; simpl.
  - apply eqb_eq in E0, E1. subst. now rewrite eqb_refl.
  - destruct Hin as [Hin|Hin]; [apply eqb_neq in E1; simpl in Hin; congruence|].
    now apply IH.
  - apply eqb_eq in E1. subst k0. now rewrite E0.
  - destruct Hin as [Hin|Hin]; [apply eqb_neq in E1; simpl in Hin; congruence|].
    now apply IH.
Qed.

Lemma place_keys cols m : map fst (place cols m) = map fst cols.
Proof.
  unfold place. destruct (msg_role m).
  - unfold MODEL_COLUMNS. simpl. now rewrite !push_keys.
  - destruct (model m) as [[|x id]|]; try reflexivity.
    destruct (find _ MODEL_COLUMNS); [apply push_keys | reflexivity].
Qed.

Lemma shown_in_assistant c m x id :
  msg_role m = Assistant -> model m = Some (x :: id) ->
  shown_in c m = eqb (modelId c) (x :: id).
Proof. intros Hr Hm. unfold shown_in. now rewrite Hr, Hm. Qed.

Lemma shown_in_nowhere c m :
  msg_role m = Assistant -> model m = None \/ model m = Some [] ->
  shown_in c m = false.
Proof. intros Hr [Hm|Hm]; unfold shown_in; now rewrite Hr, Hm. Qed.

(** One message more: it is appended to the column when it belongs
    there, and the column is left alone otherwise. *)
Lemma place_column cols m c :
  In c MODEL_COLUMNS -> map fst cols = map key MODEL_COLUMNS ->
  column_of (place cols m) (key c)
  = column_of cols (key c) ++ (if shown_in c m then [m] else []).
Proof.
  intros Hc Hk.
  assert (Hin : forall cols' : list (jsstring * list ChatMessage),
             map fst cols' = map fst cols -> In (key c) (map fst cols')).
  { intros cols' ->. rewrite Hk. now apply in_map. }
  unfold place. destruct (msg_role m) eqn:Er.
  - assert (Hs : shown_in c m = true) by (unfold shown_in; now rewrite Er).
    rewrite Hs. unfold MODEL_COLUMNS. cbn [fold_left key].
    rewrite !push_column by (apply Hin; now rewrite ?push_keys).
    unfold MODEL_COLUMNS in Hc. simpl in Hc.
    destruct Hc as [<-|[<-|[<-|[<-|[<-|[<-|[]]]]]]]; reflexivity.
  - destruct (model m) as [[|x id]|] eqn:Em.
    + rewrite (shown_in_nowhere c m Er) by now right. now rewrite app_nil_r.
    + rewrite (shown_in_assistant c m x id Er Em).
      destruct (find (fun c0 => eqb (modelId c0) (x :: id)) MODEL_COLUMNS) as [c'|] eqn:Ef.
      * apply find_some in Ef. destruct Ef as [Hc' E]. apply eqb_eq in E.
        rewrite push_column by (apply Hin; reflexivity).
        rewrite <- E. unfold MODEL_COLUMNS in Hc, Hc'. simpl in Hc, Hc'.
        destruct Hc as [<-|[<-|[<-|[<-|[<-|[<-|[]]]]]]];
          destruct Hc' as [<-|[<-|[<-|[<-|[<-|[<-|[]]]]]]];
          repeat match goal with
                 | |- context [eqb ?a ?b] =>
                     let v := eval vm_compute in (eqb a b) in
                     change (eqb a b) with v
                 end;
          cbv iota; rewrite ?app_nil_r; reflexivity.
      * rewrite (find_none _ _ Ef c Hc). now rewrite app_nil_r.
    + rewrite (shown_in_nowhere c m Er) by now left. now rewrite app_nil_r.
Qed.

Lemma fold_place_column c : forall messages cols,
  In c MODEL_COLUMNS -> map fst cols = map key MODEL_COLUMNS ->
  column_of (fold_left place messages cols) (key c)
  = column_of cols (key c) ++ filter (shown_in c) messages.
Proof.
  induction messages as [|m messages IH]; intros cols Hc Hk; simpl.
  - now rewrite app_nil_r.
  - rewrite IH by (try rewrite place_keys; assumption).
    rewrite (place_column cols m c Hc Hk), <- app_assoc.
    now destruct (shown_in c m).
Qed.

(** X14. The column of a model shows, in the order of the conversation,
    every message of the user and the messages of assistants that carry
    the id of that model; a message of an assistant without a known id is
    shown in no column, and no message is shown twice in a column. *)
Theorem columns_sort_the_conversation messages c :
  In c MODEL_COLUMNS ->
  column_of (columnMessages messages) (key c) = filter (shown_in c) messages.
Proof.
  intros Hc. unfold columnMessages.
  rewrite (fold_place_column c messages _ Hc) by (now rewrite map_map).
  unfold MODEL_COLUMNS in Hc. simpl in Hc.
  destruct Hc as [<-|[<-|[<-|[<-|[<-|[<-|[]]]]]]]; reflexivity.
Qed.

End Columns.

Section Display.

Lemma assistantMessages_cons ch rest :
  Js.truthy (Js.opt_get ch (lit "message")) = true ->
  exists a,
    Page.assistantMessages (ch :: rest) = a :: Page.assistantMessages rest /\
    Page.msg_role a = Page.Assistant /\
    Page.model a = match Js.opt_get ch (lit "model") with
              | JStr id => Some id
              | _ => None
              end.
Proof.
  intros Ht. unfold Page.assistantMessages at 1. cbn [flat_map]. rewrite Ht.
  eexists. split; [reflexivity|]. split; reflexivity.
Qed.

Lemma registry_column m a :
  In m allModels -> Page.msg_role a = Page.Assistant ->
  Page.model a = Some (modelId m) ->
  Forall (fun c => shown_in c a = eqb (Page.key c) (label m)) Page.MODEL_COLUMNS.
Proof.
  intros Hm Hr Ha. unfold shown_in. rewrite Hr, Ha.
  unfold allModels in Hm. simpl in Hm.
  destruct Hm as [<-|[<-|[<-|[<-|[<-|[<-|[]]]]]]];
    repeat constructor.
Qed.

(** X15. The answers of a response are turned into one message each, in
    the same order, and the message made of the choice of a backend of
    the registry is shown in the column whose key is the label of that
    backend and in no other column. *)
Theorem answers_land_in_their_columns choices ms :
  map (fun ch => Js.opt_get ch (lit "model")) choices
  = map (fun m => JStr (modelId m)) ms ->
  Forall (fun ch => Js.truthy (Js.opt_get ch (lit "message")) = true) choices ->
  Forall (fun m => In m allModels) ms ->
  Forall2 (fun m a =>
             Page.msg_role a = Page.Assistant /\
             Page.model a = Some (modelId m) /\
             Forall (fun c => shown_in c a = eqb (Page.key c) (label m)) Page.MODEL_COLUMNS)
          ms (Page.assistantMessages choices).
Proof.
  revert ms. induction choices as [|ch rest IH]; intros [|m ms] Hmap Ht Hin;
    try discriminate Hmap.
  - constructor.
  - injection Hmap as Hm Hrest.
    inversion Ht as [|? ? Hch Hr]; subst.
    inversion Hin as [|? ? Hm1 Hms]; subst.
    destruct (assistantMessages_cons ch rest Hch) as (a & -> & Hrole & Hmodel).
    rewrite Hm in Hmodel.
    constructor.
    + split; [exact Hrole|]. split; [exact Hmodel|].
      now apply registry_column.
    + now apply IH.
Qed.

End Display.

(** * Examples of the further properties *)

Lemma valid_answers_keep_positions_witness :
  StronglySorted lt (map index gap_answers) /\
  Forall (fun a => model a <> [] /\ trim (content a) <> [] /\
                   exists ch, nth_error gap_choices (index a) = Some ch /\
                              made_from plain_text ch a) gap_answers.
Proof.
  apply (valid_answers_keep_positions plain_text gap_choices gap_answers).
  reflexivity.
Defined.

Lemma judges_are_shown_the_others_witness :
  Forall2 (fun a r =>
             req_model r = model a /\ req_question r = lit "q" /\ req_headers r = [] /\
             ~ In a (req_candidates r) /\
             (forall b, In b trio_answers -> b <> a -> In b (req_candidates r)) /\
             List.length (req_candidates r) = (List.length trio_answers - 1)%nat)
          trio_answers
          (snd (runCrossEvaluation plain_text trio_choices [] (Some (lit "q"))
                                   trio_replies [2; 0; 0]%nat)).
Proof.
  apply (judges_are_shown_the_others plain_text trio_choices [] (lit "q") trio_answers).
  - discriminate.
  - reflexivity.
  - simpl. lia.
Defined.

Lemma score_is_number_of_votes_witness :
  let ev := round trio_replies [2; 0; 0]%nat trio_answers in
  JsObject.own (scores ev) (lit "B")
  = Some (JsObject.PNum (Z.of_nat (count (votes_for (lit "B")) (judges ev)))) /\
  (count (votes_for (lit "B")) (judges ev) <= List.length trio_answers)%nat.
Proof.
  apply (score_is_number_of_votes plain_text trio_choices [] (Some (lit "q"))
           trio_replies [2; 0; 0]%nat trio_answers).
  - reflexivity.
  - reflexivity.
  - simpl. auto.
  - discriminate.
Defined.

Lemma result_ignores_completion_order_witness :
  let ev1 := round trio_replies [] trio_answers in
  let ev2 := round trio_replies [2; 0; 0]%nat trio_answers in
  Permutation (judges ev1) (judges ev2) /\
  (forall k, In k (map model trio_answers) ->
             JsObject.own (scores ev1) k = JsObject.own (scores ev2) k) /\
  winnerModelId ev1 = winnerModelId ev2 /\
  winnerIndex ev1 = winnerIndex ev2.
Proof.
  apply (result_ignores_completion_order plain_text trio_choices [] (Some (lit "q"))
           trio_replies [] [2; 0; 0]%nat trio_answers).
  - reflexivity.
  - repeat constructor.
  - reflexivity.
  - reflexivity.
Defined.

Lemma winner_index_points_at_winner_witness :
  let ev := round trio_replies [2; 0; 0]%nat trio_answers in
  exists a ch,
    In a trio_answers /\
    winnerModelId ev = Some (model a) /\
    winnerIndex ev = Some (index a) /\
    nth_error trio_choices (index a) = Some ch /\
    Js.opt_get ch (lit "model") = JStr (model a) /\
    (forall b, In b trio_answers -> model b = model a -> (index a <= index b)%nat).
Proof.
  apply (winner_index_points_at_winner plain_text trio_choices [] (Some (lit "q"))
           trio_replies [2; 0; 0]%nat trio_answers).
  - reflexivity.
  - repeat constructor.
  - reflexivity.
Defined.

Lemma fence_without_object_is_null_witness :
  let judge := answer_of 0 "A" "a" in
  Json.parse (judge_text fenced_prose) = None /\
  judge_finish (fun _ => answering fenced_prose) ([], []) judge
  = ([], [null_vote judge]).
Proof.
  apply (fence_without_object_is_null (fun _ => answering fenced_prose) [] []
           (answer_of 0 "A" "a") fenced_prose).
  - reflexivity.
  - reflexivity.
  - left. reflexivity.
Defined.

Lemma failed_judge_leaves_null_vote_witness :
  let judge := answer_of 0 "A" "a" in
  judge_finish (fun _ => failing 429 "rate limited") ([], []) judge
  = ([], [null_vote judge]).
Proof.
  apply (failed_judge_leaves_null_vote (fun _ => failing 429 "rate limited") [] []
           (answer_of 0 "A" "a")).
  right. eexists. split; [reflexivity|]. left. reflexivity.
Defined.

Lemma handler_always_answers_witness :
  exists r, fst (POST plain_text with_key two_selected one_answers
                      (fun _ => Rejected) [1%nat] []) = Return r /\
            In (http_status r) [200; 400; 500; 502]%Z.
Proof.
  apply (handler_always_answers plain_text with_key two_selected one_answers
           (fun _ => Rejected) [1%nat] []).
  vm_compute. discriminate.
Defined.

Lemma success_response_shape_witness :
  exists choices raws evaluation sts,
    fst (POST plain_text with_key two_selected one_answers (fun _ => Rejected) [1%nat] [])
    = Return {| http_status := 200; http_body := Answers choices raws evaluation sts |} /\
    Permutation (map fst sts) (map modelId (modelsToCall two_selected_body)) /\
    map fst raws = map label allModels /\
    map (fun ch => Js.opt_get ch (lit "model")) choices
    = map (fun m => JStr (modelId m))
          (filter (answered one_answers) (modelsToCall two_selected_body)) /\
    Forall (fun ch => Js.truthy (Js.opt_get ch (lit "message")) = true) choices.
Proof.
  do 4 eexists. split.
  - reflexivity.
  - eapply (success_response_shape plain_text with_key two_selected one_answers
              (fun _ => Rejected) [1%nat] [] (lit "key") two_selected_body).
    + reflexivity.
    + reflexivity.
    + reflexivity.
Defined.

Lemma requests_of_the_handler_witness :
  let messages := [JObj [(lit "role", JStr (lit "user"));
                         (lit "content", JStr (lit "hi"))]] in
  exists reqs,
    snd (POST plain_text with_key two_selected one_answers (fun _ => Rejected) [1%nat] [])
    = map (fun m => BackendCall (makePayload (baseHeaders (lit "key") with_key)
                                             two_selected_body (JArr messages) m))
          (modelsToCall two_selected_body)
      ++ map JudgeCall reqs /\
    NoDup (map modelId (modelsToCall two_selected_body)) /\
    Forall (fun r => req_headers r = baseHeaders (lit "key") with_key /\
                     exists m, In m (modelsToCall two_selected_body) /\
                               answered one_answers m = true /\
                               req_model r = modelId m) reqs /\
    hd_error (baseHeaders (lit "key") with_key)
    = Some (lit "Authorization", lit "Bearer " ++ lit "key").
Proof.
  apply (requests_of_the_handler plain_text with_key two_selected one_answers
           (fun _ => Rejected) [1%nat] [] (lit "key") two_selected_body).
  - reflexivity.
  - reflexivity.
  - reflexivity.
Defined.

Lemma page_selection_is_honoured_witness :
  let ids := Page.activeModelIds without_nvidia in
  let body := first_turn (lit "hi") ids in
  modelsToCall body = filter (fun m => Page.enabled without_nvidia (label m)) allModels /\
  map modelId (modelsToCall body) = ids /\
  modelsToCall body <> [].
Proof.
  apply (page_selection_is_honoured (lit "  hi ") false without_nvidia (lit "hi")).
  - reflexivity.
  - split; [exists []|]; reflexivity.
Defined.

Lemma page_question_reaches_the_judges_witness :
  let ids := Page.activeModelIds without_nvidia in
  let body := first_turn (lit "hi") ids in
  exists messages,
    Js.get body (lit "messages") = Return (JArr messages) /\
    userQuestion messages = Return (Some (lit "hi")) /\
    lit "hi" = trim (lit "  hi ") /\ lit "hi" <> [].
Proof.
  apply (page_question_reaches_the_judges (lit "  hi ") false without_nvidia (lit "hi")
           (Page.activeModelIds without_nvidia)).
  - reflexivity.
  - split; [exists []|]; reflexivity.
Defined.

Lemma columns_sort_the_conversation_witness :
  let c := {| Page.key := lit "mistral"; Page.title := lit "Mistral Devstral";
              Page.modelId := lit "mistralai/devstral-2512:free" |} in
  Page.column_of (Page.columnMessages short_talk) (Page.key c)
  = filter (shown_in c) short_talk.
Proof.
  apply (columns_sort_the_conversation short_talk).
  right. left. reflexivity.
Defined.

Lemma answers_land_in_their_columns_witness :
  let choices := [choice_of "mistralai/devstral-2512:free" "hello";
                  choice_of "xiaomi/mimo-v2-flash:free" "hey"] in
  let ms := [ {| modelId := MISTRAL_MODEL; label := lit "mistral";
                 with_reasoning := false |};
              {| modelId := MIMO_MODEL; label := lit "mimo"; with_reasoning := true |} ] in
  Forall2 (fun m a =>
             Page.msg_role a = Page.Assistant /\
             Page.model a = Some (modelId m) /\
             Forall (fun c => shown_in c a = eqb (Page.key c) (label m))
                    Page.MODEL_COLUMNS)
          ms (Page.assistantMessages choices).
Proof.
  apply (answers_land_in_their_columns
           [choice_of "mistralai/devstral-2512:free" "hello";
            choice_of "xiaomi/mimo-v2-flash:free" "hey"]).
  - reflexivity.
  - repeat constructor.
  - constructor; [right; left; reflexivity|].
    constructor; [do 5 right; left; reflexivity|]. constructor.
Defined.
